(** * JsonSerial: a shallow embedding of the serialization engine

    Source files: jsonserial.hpp (class [JsonSerial]: tokenizer and writer),
    jsonimpl.hpp (reader, member descriptors), jsonclasses.hpp (class
    registry), jsonerror.hpp, jsondefs.hpp, vector.hpp, list.hpp, map.hpp.

    The C++ templates dispatch on static types; here a small universe of
    type descriptors [ty] plays the role of the template argument, and the
    program memory is a finite map from addresses to cells, so that
    pointer-to-member accesses are address arithmetic and pointer identity
    is address equality, as in the source. *)

From Stdlib Require Import ZArith Ascii String List Bool Lia.
From stdpp Require Import gmap strings pretty.

Local Open Scope string_scope.
Local Open Scope Z_scope.
Local Open Scope list_scope.

(** ** Characters and strings *)

(** The C library character classes in the classic locale. A [char] with
    the high bit set belongs to none of them. *)

Definition code (c : ascii) : Z := Z.of_nat (nat_of_ascii c).

Definition isspace (c : ascii) : bool :=
  ((9 <=? code c) && (code c <=? 13)) || (code c =? 32).

Definition iscntrl (c : ascii) : bool :=
  (code c <? 32) || (code c =? 127).

Definition isdigit (c : ascii) : bool :=
  (48 <=? code c) && (code c <=? 57).

Definition chr (n : nat) : ascii := ascii_of_nat n.

Definition NUL : ascii := chr 0.
Definition BS : ascii := chr 8.
Definition TAB : ascii := chr 9.
Definition LF : ascii := chr 10.
Definition FF : ascii := chr 12.
Definition CR : ascii := chr 13.
Definition DQUOTE : ascii := chr 34.
Definition BSLASH : ascii := chr 92.

Definition ch_eq (c d : ascii) : bool := Ascii.eqb c d.

(** [std::string(1, c)] *)
Definition str1 (c : ascii) : string := String c EmptyString.

(** [s += c] *)
Definition push_back (s : string) (c : ascii) : string := s +:+ str1 c.

Definition empty (s : string) : bool :=
  match s with EmptyString => true | _ => false end.

(** [s[0]]; for the empty string this is the terminating NUL. *)
Definition front (s : string) : ascii :=
  match s with EmptyString => NUL | String c _ => c end.

(** [s.c_str()] read as a C string: the characters before the first NUL. *)
Fixpoint c_str (s : string) : string :=
  match s with
  | EmptyString => EmptyString
  | String c r => if ch_eq c NUL then EmptyString else String c (c_str r)
  end.

(** Writing documents in statements: an apostrophe stands for a double
    quote and a dollar sign for a newline. *)
Fixpoint lit (s : string) : string :=
  match s with
  | EmptyString => EmptyString
  | String c r =>
      String (if ch_eq c (chr 39) then DQUOTE else if ch_eq c (chr 36) then LF else c) (lit r)
  end.

(** ** Errors (jsonerror.hpp) *)

Module JsonError.

Inductive Type_ :=
| OK | CantReadFile | CantWriteFile | NoData | PrematureEOF | InvalidCharacter
| ExpectingComma | ExpectingDelimiter | ExpectingBrace | ExpectingBracket
| ExpectingPairOrBrace | ExpectingValueOrBracket | ExpectingString
| UnknownClass | UnknownSuperclass | RedefinedClass | RedefinedSuperclass
| UnknownMember | RedefinedMember | AbstractClass | CantCreateObject | CantAddToArray
| InvalidValue | InvalidID | WrongKeyword.

Record t := set {
  type : Type_;
  fatal : bool;
  where_ : string;
  arg : string;
  streamname : string;
  line : Z
}.

End JsonError.

#[global] Instance Type_eq_dec : EqDecision JsonError.Type_.
Proof. solve_decision. Defined.

(** Exceptions of the standard library that the engine's callees throw. *)
Inductive std_exception := invalid_argument | out_of_range.

(** ** Program memory

    Addresses are machine addresses ([void*]); address 0 is [nullptr].
    A cell holds one variable of a non-class type. An object of a
    registered class is the region starting at its address: the member at
    pointer-to-member offset [o] of the object at [a] lives at [a + o].
    A polymorphic object carries its dynamic type in a [VVptr] cell at its
    own address, which is what [typeid] consults. *)

Inductive value :=
| VStr (s : string)            (* std::string *)
| VCStr (s : option string)    (* char*, const char*: None is nullptr *)
| VBool (b : bool)
| VInt (n : Z)                 (* int *)
| VPtr (p : Z)                 (* T*, std::shared_ptr<T>, std::unique_ptr<T> *)
| VSeq (elems : list Z)        (* std::vector, std::list: the element addresses *)
| VMap (entries : list (string * Z))  (* std::map<std::string,E>: key, address of the mapped value *)
| VVptr (dyn : string).        (* dynamic type of a polymorphic object *)

(** The static C++ types the engine is instantiated at. A class type is
    named by its [std::type_index]. *)
Inductive ty :=
| TString                      (* std::string *)
| TCStr                        (* char*, const char* *)
| TBool                        (* bool *)
| TInt                         (* int *)
| TObj (T : string)            (* a class type: is_defobject *)
| TPtr (t : ty)                (* raw and smart pointers *)
| TSeq (t : ty)                (* std::vector<t>, std::list<t> *)
| TMap (t : ty).               (* std::map<std::string,t> *)

#[global] Instance ty_eq_dec : EqDecision ty.
Proof. solve_decision. Defined.

(** [is_defobject<T>] of jsondefs.hpp *)
Definition is_defobject (t : ty) : bool :=
  match t with TObj _ => true | _ => false end.

Record Memory := {
  cells : gmap Z value;
  brk : Z                      (* next address handed out by operator new *)
}.

(** What the engine needs to know of a C++ class type that is not in its
    descriptor: its size and the effect of its default constructor on the
    cells of a new object (used by [resize] and [operator[]] of containers
    that hold objects by value). *)
Record TypeInfo := {
  ti_size : Z;
  ti_init : list (Z * value)
}.

(** ** Input streams

    [std::istream] over a fixed sequence of bytes, with the state bits
    that the engine observes through [good()], [get], [peek], [putback]. *)

Record istream := {
  buf : string;               (* the bytes not yet read *)
  eofbit : bool;
  failbit : bool
}.

Definition good (s : istream) : bool := negb (eofbit s) && negb (failbit s).

Definition stream_get (s : istream) : option ascii * istream :=
  if good s then
    match buf s with
    | EmptyString => (None, {| buf := buf s; eofbit := true; failbit := true |})
    | String c r => (Some c, {| buf := r; eofbit := false; failbit := false |})
    end
  else (None, {| buf := buf s; eofbit := eofbit s; failbit := true |}).

Definition stream_peek (s : istream) : option ascii * istream :=
  if good s then
    match buf s with
    | EmptyString => (None, {| buf := buf s; eofbit := true; failbit := failbit s |})
    | String c _ => (Some c, s)
    end
  else (None, {| buf := buf s; eofbit := eofbit s; failbit := true |}).

(** [putback] clears [eofbit] first (C++11) and fails on a failed stream. *)
Definition stream_putback (c : ascii) (s : istream) : istream :=
  if failbit s then {| buf := buf s; eofbit := false; failbit := true |}
  else {| buf := String c (buf s); eofbit := false; failbit := false |}.

(** ** The engine state (class JsonSerial, jsonserial.hpp)

    The fields are those of the class, in its order of declaration
    ([classes_] is passed separately, it is a reference to the registry),
    followed by the two parts of the environment the engine acts on. *)

Record JsonSerial := {
  in_ : option istream;   (* std::istream*: None is nullptr *)
  out_ : option string;   (* std::ostream*: the bytes written so far *)
  allow_ : Z;   (* unsigned char: mask of Syntax values *)
  needcomma_ : bool;
  in_multiquotes_ : bool;
  sharing_ : bool;
  lineno_ : Z;   (* size_t *)
  indent_ : Z;   (* unsigned int *)
  level_ : Z;   (* int *)
  tabchar_ : ascii;
  streamname_ : string;
  tabs_ : string;
  token1_ : string;
  token2_ : string;
  current_object_id_ : Z;   (* unsigned long *)
  object_to_id_ : gmap Z Z;   (* unordered_map<const void*, unsigned long> *)
  id_to_object_ : gmap Z Z;   (* unordered_map<unsigned long, ObjectPtr>: the raw_ pointer *)
  jsonerror_ : option JsonError.t;   (* JsonError*: None is nullptr *)
  reported : list JsonError.t;   (* the errors handed to errhandler_ (or printed on cerr), oldest first *)
  mem : Memory   (* the memory of the program the engine runs in *)
}.

(** Field updates. *)
Definition set_in_ (v : option istream) (js : JsonSerial) : JsonSerial :=
  {| in_ := v; out_ := out_ js; allow_ := allow_ js; needcomma_ := needcomma_ js; in_multiquotes_ := in_multiquotes_ js; sharing_ := sharing_ js; lineno_ := lineno_ js; indent_ := indent_ js; level_ := level_ js; tabchar_ := tabchar_ js; streamname_ := streamname_ js; tabs_ := tabs_ js; token1_ := token1_ js; token2_ := token2_ js; current_object_id_ := current_object_id_ js; object_to_id_ := object_to_id_ js; id_to_object_ := id_to_object_ js; jsonerror_ := jsonerror_ js; reported := reported js; mem := mem js |}.
Definition set_out_ (v : option string) (js : JsonSerial) : JsonSerial :=
  {| in_ := in_ js; out_ := v; allow_ := allow_ js; needcomma_ := needcomma_ js; in_multiquotes_ := in_multiquotes_ js; sharing_ := sharing_ js; lineno_ := lineno_ js; indent_ := indent_ js; level_ := level_ js; tabchar_ := tabchar_ js; streamname_ := streamname_ js; tabs_ := tabs_ js; token1_ := token1_ js; token2_ := token2_ js; current_object_id_ := current_object_id_ js; object_to_id_ := object_to_id_ js; id_to_object_ := id_to_object_ js; jsonerror_ := jsonerror_ js; reported := reported js; mem := mem js |}.
Definition set_allow_ (v : Z) (js : JsonSerial) : JsonSerial :=
  {| in_ := in_ js; out_ := out_ js; allow_ := v; needcomma_ := needcomma_ js; in_multiquotes_ := in_multiquotes_ js; sharing_ := sharing_ js; lineno_ := lineno_ js; indent_ := indent_ js; level_ := level_ js; tabchar_ := tabchar_ js; streamname_ := streamname_ js; tabs_ := tabs_ js; token1_ := token1_ js; token2_ := token2_ js; current_object_id_ := current_object_id_ js; object_to_id_ := object_to_id_ js; id_to_object_ := id_to_object_ js; jsonerror_ := jsonerror_ js; reported := reported js; mem := mem js |}.
Definition set_needcomma_ (v : bool) (js : JsonSerial) : JsonSerial :=
  {| in_ := in_ js; out_ := out_ js; allow_ := allow_ js; needcomma_ := v; in_multiquotes_ := in_multiquotes_ js; sharing_ := sharing_ js; lineno_ := lineno_ js; indent_ := indent_ js; level_ := level_ js; tabchar_ := tabchar_ js; streamname_ := streamname_ js; tabs_ := tabs_ js; token1_ := token1_ js; token2_ := token2_ js; current_object_id_ := current_object_id_ js; object_to_id_ := object_to_id_ js; id_to_object_ := id_to_object_ js; jsonerror_ := jsonerror_ js; reported := reported js; mem := mem js |}.
Definition set_in_multiquotes_ (v : bool) (js : JsonSerial) : JsonSerial :=
  {| in_ := in_ js; out_ := out_ js; allow_ := allow_ js; needcomma_ := needcomma_ js; in_multiquotes_ := v; sharing_ := sharing_ js; lineno_ := lineno_ js; indent_ := indent_ js; level_ := level_ js; tabchar_ := tabchar_ js; streamname_ := streamname_ js; tabs_ := tabs_ js; token1_ := token1_ js; token2_ := token2_ js; current_object_id_ := current_object_id_ js; object_to_id_ := object_to_id_ js; id_to_object_ := id_to_object_ js; jsonerror_ := jsonerror_ js; reported := reported js; mem := mem js |}.
Definition set_sharing_ (v : bool) (js : JsonSerial) : JsonSerial :=
  {| in_ := in_ js; out_ := out_ js; allow_ := allow_ js; needcomma_ := needcomma_ js; in_multiquotes_ := in_multiquotes_ js; sharing_ := v; lineno_ := lineno_ js; indent_ := indent_ js; level_ := level_ js; tabchar_ := tabchar_ js; streamname_ := streamname_ js; tabs_ := tabs_ js; token1_ := token1_ js; token2_ := token2_ js; current_object_id_ := current_object_id_ js; object_to_id_ := object_to_id_ js; id_to_object_ := id_to_object_ js; jsonerror_ := jsonerror_ js; reported := reported js; mem := mem js |}.
Definition set_lineno_ (v : Z) (js : JsonSerial) : JsonSerial :=
  {| in_ := in_ js; out_ := out_ js; allow_ := allow_ js; needcomma_ := needcomma_ js; in_multiquotes_ := in_multiquotes_ js; sharing_ := sharing_ js; lineno_ := v; indent_ := indent_ js; level_ := level_ js; tabchar_ := tabchar_ js; streamname_ := streamname_ js; tabs_ := tabs_ js; token1_ := token1_ js; token2_ := token2_ js; current_object_id_ := current_object_id_ js; object_to_id_ := object_to_id_ js; id_to_object_ := id_to_object_ js; jsonerror_ := jsonerror_ js; reported := reported js; mem := mem js |}.
Definition set_indent_ (v : Z) (js : JsonSerial) : JsonSerial :=
  {| in_ := in_ js; out_ := out_ js; allow_ := allow_ js; needcomma_ := needcomma_ js; in_multiquotes_ := in_multiquotes_ js; sharing_ := sharing_ js; lineno_ := lineno_ js; indent_ := v; level_ := level_ js; tabchar_ := tabchar_ js; streamname_ := streamname_ js; tabs_ := tabs_ js; token1_ := token1_ js; token2_ := token2_ js; current_object_id_ := current_object_id_ js; object_to_id_ := object_to_id_ js; id_to_object_ := id_to_object_ js; jsonerror_ := jsonerror_ js; reported := reported js; mem := mem js |}.
Definition set_level_ (v : Z) (js : JsonSerial) : JsonSerial :=
  {| in_ := in_ js; out_ := out_ js; allow_ := allow_ js; needcomma_ := needcomma_ js; in_multiquotes_ := in_multiquotes_ js; sharing_ := sharing_ js; lineno_ := lineno_ js; indent_ := indent_ js; level_ := v; tabchar_ := tabchar_ js; streamname_ := streamname_ js; tabs_ := tabs_ js; token1_ := token1_ js; token2_ := token2_ js; current_object_id_ := current_object_id_ js; object_to_id_ := object_to_id_ js; id_to_object_ := id_to_object_ js; jsonerror_ := jsonerror_ js; reported := reported js; mem := mem js |}.
Definition set_tabchar_ (v : ascii) (js : JsonSerial) : JsonSerial :=
  {| in_ := in_ js; out_ := out_ js; allow_ := allow_ js; needcomma_ := needcomma_ js; in_multiquotes_ := in_multiquotes_ js; sharing_ := sharing_ js; lineno_ := lineno_ js; indent_ := indent_ js; level_ := level_ js; tabchar_ := v; streamname_ := streamname_ js; tabs_ := tabs_ js; token1_ := token1_ js; token2_ := token2_ js; current_object_id_ := current_object_id_ js; object_to_id_ := object_to_id_ js; id_to_object_ := id_to_object_ js; jsonerror_ := jsonerror_ js; reported := reported js; mem := mem js |}.
Definition set_streamname_ (v : string) (js : JsonSerial) : JsonSerial :=
  {| in_ := in_ js; out_ := out_ js; allow_ := allow_ js; needcomma_ := needcomma_ js; in_multiquotes_ := in_multiquotes_ js; sharing_ := sharing_ js; lineno_ := lineno_ js; indent_ := indent_ js; level_ := level_ js; tabchar_ := tabchar_ js; streamname_ := v; tabs_ := tabs_ js; token1_ := token1_ js; token2_ := token2_ js; current_object_id_ := current_object_id_ js; object_to_id_ := object_to_id_ js; id_to_object_ := id_to_object_ js; jsonerror_ := jsonerror_ js; reported := reported js; mem := mem js |}.
Definition set_tabs_ (v : string) (js : JsonSerial) : JsonSerial :=
  {| in_ := in_ js; out_ := out_ js; allow_ := allow_ js; needcomma_ := needcomma_ js; in_multiquotes_ := in_multiquotes_ js; sharing_ := sharing_ js; lineno_ := lineno_ js; indent_ := indent_ js; level_ := level_ js; tabchar_ := tabchar_ js; streamname_ := streamname_ js; tabs_ := v; token1_ := token1_ js; token2_ := token2_ js; current_object_id_ := current_object_id_ js; object_to_id_ := object_to_id_ js; id_to_object_ := id_to_object_ js; jsonerror_ := jsonerror_ js; reported := reported js; mem := mem js |}.
Definition set_token1_ (v : string) (js : JsonSerial) : JsonSerial :=
  {| in_ := in_ js; out_ := out_ js; allow_ := allow_ js; needcomma_ := needcomma_ js; in_multiquotes_ := in_multiquotes_ js; sharing_ := sharing_ js; lineno_ := lineno_ js; indent_ := indent_ js; level_ := level_ js; tabchar_ := tabchar_ js; streamname_ := streamname_ js; tabs_ := tabs_ js; token1_ := v; token2_ := token2_ js; current_object_id_ := current_object_id_ js; object_to_id_ := object_to_id_ js; id_to_object_ := id_to_object_ js; jsonerror_ := jsonerror_ js; reported := reported js; mem := mem js |}.
Definition set_token2_ (v : string) (js : JsonSerial) : JsonSerial :=
  {| in_ := in_ js; out_ := out_ js; allow_ := allow_ js; needcomma_ := needcomma_ js; in_multiquotes_ := in_multiquotes_ js; sharing_ := sharing_ js; lineno_ := lineno_ js; indent_ := indent_ js; level_ := level_ js; tabchar_ := tabchar_ js; streamname_ := streamname_ js; tabs_ := tabs_ js; token1_ := token1_ js; token2_ := v; current_object_id_ := current_object_id_ js; object_to_id_ := object_to_id_ js; id_to_object_ := id_to_object_ js; jsonerror_ := jsonerror_ js; reported := reported js; mem := mem js |}.
Definition set_current_object_id_ (v : Z) (js : JsonSerial) : JsonSerial :=
  {| in_ := in_ js; out_ := out_ js; allow_ := allow_ js; needcomma_ := needcomma_ js; in_multiquotes_ := in_multiquotes_ js; sharing_ := sharing_ js; lineno_ := lineno_ js; indent_ := indent_ js; level_ := level_ js; tabchar_ := tabchar_ js; streamname_ := streamname_ js; tabs_ := tabs_ js; token1_ := token1_ js; token2_ := token2_ js; current_object_id_ := v; object_to_id_ := object_to_id_ js; id_to_object_ := id_to_object_ js; jsonerror_ := jsonerror_ js; reported := reported js; mem := mem js |}.
Definition set_object_to_id_ (v : gmap Z Z) (js : JsonSerial) : JsonSerial :=
  {| in_ := in_ js; out_ := out_ js; allow_ := allow_ js; needcomma_ := needcomma_ js; in_multiquotes_ := in_multiquotes_ js; sharing_ := sharing_ js; lineno_ := lineno_ js; indent_ := indent_ js; level_ := level_ js; tabchar_ := tabchar_ js; streamname_ := streamname_ js; tabs_ := tabs_ js; token1_ := token1_ js; token2_ := token2_ js; current_object_id_ := current_object_id_ js; object_to_id_ := v; id_to_object_ := id_to_object_ js; jsonerror_ := jsonerror_ js; reported := reported js; mem := mem js |}.
Definition set_id_to_object_ (v : gmap Z Z) (js : JsonSerial) : JsonSerial :=
  {| in_ := in_ js; out_ := out_ js; allow_ := allow_ js; needcomma_ := needcomma_ js; in_multiquotes_ := in_multiquotes_ js; sharing_ := sharing_ js; lineno_ := lineno_ js; indent_ := indent_ js; level_ := level_ js; tabchar_ := tabchar_ js; streamname_ := streamname_ js; tabs_ := tabs_ js; token1_ := token1_ js; token2_ := token2_ js; current_object_id_ := current_object_id_ js; object_to_id_ := object_to_id_ js; id_to_object_ := v; jsonerror_ := jsonerror_ js; reported := reported js; mem := mem js |}.
Definition set_jsonerror_ (v : option JsonError.t) (js : JsonSerial) : JsonSerial :=
  {| in_ := in_ js; out_ := out_ js; allow_ := allow_ js; needcomma_ := needcomma_ js; in_multiquotes_ := in_multiquotes_ js; sharing_ := sharing_ js; lineno_ := lineno_ js; indent_ := indent_ js; level_ := level_ js; tabchar_ := tabchar_ js; streamname_ := streamname_ js; tabs_ := tabs_ js; token1_ := token1_ js; token2_ := token2_ js; current_object_id_ := current_object_id_ js; object_to_id_ := object_to_id_ js; id_to_object_ := id_to_object_ js; jsonerror_ := v; reported := reported js; mem := mem js |}.
Definition set_reported (v : list JsonError.t) (js : JsonSerial) : JsonSerial :=
  {| in_ := in_ js; out_ := out_ js; allow_ := allow_ js; needcomma_ := needcomma_ js; in_multiquotes_ := in_multiquotes_ js; sharing_ := sharing_ js; lineno_ := lineno_ js; indent_ := indent_ js; level_ := level_ js; tabchar_ := tabchar_ js; streamname_ := streamname_ js; tabs_ := tabs_ js; token1_ := token1_ js; token2_ := token2_ js; current_object_id_ := current_object_id_ js; object_to_id_ := object_to_id_ js; id_to_object_ := id_to_object_ js; jsonerror_ := jsonerror_ js; reported := v; mem := mem js |}.
Definition set_mem (v : Memory) (js : JsonSerial) : JsonSerial :=
  {| in_ := in_ js; out_ := out_ js; allow_ := allow_ js; needcomma_ := needcomma_ js; in_multiquotes_ := in_multiquotes_ js; sharing_ := sharing_ js; lineno_ := lineno_ js; indent_ := indent_ js; level_ := level_ js; tabchar_ := tabchar_ js; streamname_ := streamname_ js; tabs_ := tabs_ js; token1_ := token1_ js; token2_ := token2_ js; current_object_id_ := current_object_id_ js; object_to_id_ := object_to_id_ js; id_to_object_ := id_to_object_ js; jsonerror_ := jsonerror_ js; reported := reported js; mem := v |}.

(** [enum Syntax] *)
Definition Strict : Z := 0.
Definition Comments : Z := 1.
Definition NoQuotes : Z := 2.
Definition NoCommas : Z := 4.
Definition Newlines : Z := 8.
Definition Relaxed : Z := Z.lor (Z.lor (Z.lor Comments NoQuotes) NoCommas) Newlines.

(** [allow_ & flag] as a condition *)
Definition allows (js : JsonSerial) (flag : Z) : bool :=
  negb (Z.land (allow_ js) flag =? 0).

(** ** Control flow

    A call of the engine either returns, throws its [jsonerror_] (a fatal
    error), lets an exception of the standard library escape, or has no
    defined behaviour (a null stream, an ill-typed cell, an out-of-bounds
    read). Recursive calls are bounded by fuel. *)

Inductive outcome (A : Type) : Type :=
| Ret (a : A) (js : JsonSerial)
| Throw (js : JsonSerial)
| StdThrow (e : std_exception) (js : JsonSerial)
| Undefined
| OutOfFuel.

Arguments Ret {A} a js.
Arguments Throw {A} js.
Arguments StdThrow {A} e js.
Arguments Undefined {A}.
Arguments OutOfFuel {A}.

Definition M (A : Type) : Type := JsonSerial -> outcome A.

Definition ret {A} (a : A) : M A := fun js => Ret a js.

Definition bind {A B} (m : M A) (k : A -> M B) : M B := fun js =>
  match m js with
  | Ret a js' => k a js'
  | Throw js' => Throw js'
  | StdThrow e js' => StdThrow e js'
  | Undefined => Undefined
  | OutOfFuel => OutOfFuel
  end.

Notation "x <- m ;; k" := (bind m (fun x => k))
  (at level 100, m at next level, right associativity).
Notation "m ;;; k" := (bind m (fun _ => k))
  (at level 100, right associativity).

Definition gets {A} (f : JsonSerial -> A) : M A := fun js => Ret (f js) js.
Definition modify (f : JsonSerial -> JsonSerial) : M unit := fun js => Ret tt (f js).
Definition undefined {A} : M A := fun _ => Undefined.
Definition std_throw {A} (e : std_exception) : M A := fun js => StdThrow e js.

Definition non_null {A} (p : option A) : bool :=
  match p with Some _ => true | None => false end.

(** [JsonSerial::error]: records the error, hands it to the handler, and
    throws when it is fatal. *)
Definition error (type : JsonError.Type_) (arg : string) (fatal : bool) : M unit :=
  fun js =>
    let where_ :=
      if non_null (in_ js) || bool_decide (type = JsonError.CantReadFile)
      then "read" else "write" in
    let e := JsonError.set type fatal where_ arg (streamname_ js) (lineno_ js) in
    let js' := set_reported (reported js ++ [e]) (set_jsonerror_ (Some e) js) in
    if fatal then Throw js' else Ret tt js'.

(** ** The tokenizer (JsonSerial::readLine and its helpers) *)

Definition with_in {A} (f : istream -> A * istream) : M A := fun js =>
  match in_ js with
  | None => Undefined
  | Some s => let '(a, s') := f s in Ret a (set_in_ (Some s') js)
  end.

Definition in_get : M (option ascii) := with_in stream_get.
Definition in_peek : M (option ascii) := with_in stream_peek.
Definition in_putback (c : ascii) : M unit :=
  with_in (fun s => (tt, stream_putback c s)).
Definition in_good : M bool := with_in (fun s => (good s, s)).

Definition peek_is (d : ascii) : M bool :=
  p <- in_peek ;;
  ret (match p with Some c => ch_eq c d | None => false end).

(** [isNumber]: the scan runs over [token.c_str()]. *)
Fixpoint isNumber_scan (p : string) (dotfound expfound : bool) : bool :=
  match p with
  | EmptyString => true
  | String c r =>
      if isdigit c then isNumber_scan r dotfound expfound
      else if ch_eq c "." then
        (if dotfound then false else isNumber_scan r true expfound)
      else if ch_eq c "e" || ch_eq c "E" then
        (if expfound then false
         else match r with
              | String d r' =>
                  if ch_eq d "+" || ch_eq d "-" then isNumber_scan r' dotfound true
                  else isNumber_scan r dotfound true
              | EmptyString => isNumber_scan r dotfound true
              end)
      else false
  end.

Definition isNumber (token : string) : bool :=
  if empty token then false
  else
    let p := c_str token in
    let p := match p with
             | String c r => if ch_eq c "-" then r else p
             | EmptyString => p
             end in
    isNumber_scan p false false.

(** The first block of [checkValue]: trailing white space is removed,
    unless the token is white space only. *)
Fixpoint rstrip (s : string) : string :=
  match s with
  | EmptyString => EmptyString
  | String c r =>
      let r' := rstrip r in
      if empty r' && isspace c then EmptyString else String c r'
  end.

Definition trimRight (token : string) : string :=
  if empty (rstrip token) then token else rstrip token.

(** [checkValue(token, objName)]: the token is passed by reference, its
    trimmed value is returned. *)
Definition checkValue (token : string) (objName : bool) : M string :=
  let token := trimRight token in
  nq <- gets (fun js => allows js NoQuotes) ;;
  if objName then
    if nq || ch_eq (front token) "}" || ch_eq (front token) "]" then ret token
    else error JsonError.ExpectingString token true ;;; ret token
  else if nq || empty token
          || ch_eq (front token) "}" || ch_eq (front token) "]"
          || String.eqb token "true" || String.eqb token "false"
          || String.eqb token "null" || isNumber token
  then ret token
  else error JsonError.InvalidValue (token +:+ " (should be quoted?)") true ;;; ret token.

(** [readEscape(token)], applied to [token1_] or [token2_]; at the end of
    the stream [get()] returns EOF, which is appended as a [char]. *)
Definition unescape (c : option ascii) : ascii :=
  match c with
  | None => chr 255
  | Some c =>
      if ch_eq c "b" then BS else if ch_eq c "f" then FF
      else if ch_eq c "n" then LF else if ch_eq c "r" then CR
      else if ch_eq c "t" then TAB else c
  end.

Definition readEscape1 : M unit :=
  c <- in_get ;; modify (fun js => set_token1_ (push_back (token1_ js) (unescape c)) js).

Definition readEscape2 : M unit :=
  c <- in_get ;; modify (fun js => set_token2_ (push_back (token2_ js) (unescape c)) js).

Inductive Part :=
| Begin | InQuotedToken1 | InUnquotedToken1 | AfterToken1 | AfterComa
| InQuotedToken2 | InUnquotedToken2 | AfterToken2 | Comment | LineComment.

#[global] Instance Part_eq_dec : EqDecision Part.
Proof. solve_decision. Defined.

(** The four reference parameters of [readLine]. *)
Record Line := {
  token1 : string;
  token2 : string;
  found1 : bool;
  found2 : bool
}.

Definition set_token1 (v : string) (l : Line) : Line :=
  {| token1 := v; token2 := token2 l; found1 := found1 l; found2 := found2 l |}.
Definition set_token2 (v : string) (l : Line) : Line :=
  {| token1 := token1 l; token2 := v; found1 := found1 l; found2 := found2 l |}.
Definition set_found1 (l : Line) : Line :=
  {| token1 := token1 l; token2 := token2 l; found1 := true; found2 := found2 l |}.
Definition set_found2 (l : Line) : Line :=
  {| token1 := token1 l; token2 := token2 l; found1 := found1 l; found2 := true |}.

(** The label INVALID_CHAR *)
Definition INVALID_CHAR {A} (c : ascii) : M A :=
  let msg := if ch_eq c LF then "newline " else if ch_eq c CR then "CR "
             else if ch_eq c TAB then "tab " else "" in
  error JsonError.InvalidCharacter (msg +:+ "(code: " +:+ pretty (code c) +:+ ")") true ;;;
  undefined.

(** One turn of the [while (true)] loop after a successful [get]: either
    the function returns, or the loop goes on in a new part. *)
Inductive turn :=
| Return (l : Line)
| Continue (part lastPart : Part) (l : Line).

(** The tests before the [switch]: line count, control characters, start
    of a comment. Yields the part, the last part and the current char. *)
Definition before_switch (part lastPart : Part) (c : ascii) : M (Part * Part * ascii) :=
  if ch_eq c LF then
    modify (fun js => set_lineno_ ((lineno_ js + 1) mod 2^64) js) ;;;
    ret (part, lastPart, c)
  else if iscntrl c && negb (isspace c) then INVALID_CHAR c
  else
    cm <- gets (fun js => allows js Comments) ;;
    if cm && negb (bool_decide (part = InQuotedToken1))
          && negb (bool_decide (part = InQuotedToken2)) then
      line <- (if negb (bool_decide (part = Comment)) && ch_eq c "/"
               then peek_is "/" else ret false) ;;
      if line then
        if negb (bool_decide (part = LineComment)) then ret (LineComment, part, c)
        else ret (part, lastPart, c)
      else
        block <- (if negb (bool_decide (part = LineComment)) && ch_eq c "/"
                  then peek_is "*" else ret false) ;;
        if block then
          if negb (bool_decide (part = Comment)) then
            c' <- in_get ;;
            ret (Comment, part, match c' with Some c' => c' | None => c end)
          else ret (part, lastPart, c)
        else ret (part, lastPart, c)
    else ret (part, lastPart, c).

(** A separator: a comma, or a newline when NoCommas is allowed. *)
Definition separator (c : ascii) : M bool :=
  nc <- gets (fun js => allows js NoCommas) ;;
  ret (ch_eq c "," || (nc && ch_eq c LF)).

Definition closing (c : ascii) : bool := ch_eq c "}" || ch_eq c "]".
Definition opening (c : ascii) : bool := ch_eq c "{" || ch_eq c "[".

Definition in_quotes_invalid (c : ascii) : M bool :=
  nl <- gets (fun js => allows js Newlines) ;;
  ret (iscntrl c && (negb nl || negb (isspace c))).

(** The [switch (part)]. *)
Definition switch_part (inObj : bool) (part lastPart : Part) (c : ascii) (l : Line) : M turn :=
  match part with
  | Begin =>
      if ch_eq c DQUOTE then ret (Continue InQuotedToken1 lastPart (set_found1 l))
      else if opening c then ret (Return (set_token1 (str1 c) (set_found1 l)))
      else if negb (isspace c) then
        modify (fun js => set_token1_ (push_back (token1_ js) c) js) ;;;
        ret (Continue InUnquotedToken1 lastPart (set_found1 l))
      else ret (Continue part lastPart l)
  | InQuotedToken1 =>
      if ch_eq c DQUOTE then
        t <- gets token1_ ;; ret (Continue AfterToken1 lastPart (set_token1 t l))
      else if ch_eq c BSLASH then readEscape1 ;;; ret (Continue part lastPart l)
      else
        bad <- in_quotes_invalid c ;;
        if bad then INVALID_CHAR c
        else modify (fun js => set_token1_ (push_back (token1_ js) c) js) ;;;
             ret (Continue part lastPart l)
  | InUnquotedToken1 =>
      sep <- separator c ;;
      if sep then
        t <- gets token1_ ;; t <- checkValue t inObj ;; ret (Return (set_token1 t l))
      else if closing c then
        in_putback c ;;;
        t <- gets token1_ ;; t <- checkValue t inObj ;; ret (Return (set_token1 t l))
      else if ch_eq c ":" && inObj then
        t <- gets token1_ ;; t <- checkValue t inObj ;;
        ret (Continue AfterComa lastPart (set_token1 t l))
      else if ch_eq c BSLASH then readEscape1 ;;; ret (Continue part lastPart l)
      else modify (fun js => set_token1_ (push_back (token1_ js) c) js) ;;;
           ret (Continue part lastPart l)
  | AfterToken1 =>
      sep <- separator c ;;
      if sep then ret (Return l)
      else if closing c then in_putback c ;;; ret (Return l)
      else if ch_eq c ":" && inObj then ret (Continue AfterComa lastPart l)
      else if negb (isspace c) then
        error JsonError.ExpectingComma "" true ;;; ret (Return l)
      else ret (Continue part lastPart l)
  | AfterComa =>
      if ch_eq c DQUOTE then
        let l := set_found2 l in
        q <- peek_is DQUOTE ;;
        if negb q then ret (Continue InQuotedToken2 lastPart l)
        else
          in_get ;;;
          q <- peek_is DQUOTE ;;
          if negb q then ret (Continue AfterToken2 lastPart (set_token2 "" l))
          else
            in_get ;;;
            modify (set_in_multiquotes_ true) ;;;
            ret (Continue InQuotedToken2 lastPart l)
      else if opening c then ret (Return (set_token2 (str1 c) (set_found2 l)))
      else if negb (isspace c) then
        modify (fun js => set_token2_ (push_back (token2_ js) c) js) ;;;
        ret (Continue InUnquotedToken2 lastPart (set_found2 l))
      else ret (Continue part lastPart l)
  | InQuotedToken2 =>
      mq <- gets in_multiquotes_ ;;
      if ch_eq c DQUOTE then
        if negb mq then
          t <- gets token2_ ;; ret (Continue AfterToken2 lastPart (set_token2 t l))
        else
          q <- peek_is DQUOTE ;;
          if negb q then
            modify (fun js => set_token2_ (push_back (token2_ js) DQUOTE) js) ;;;
            ret (Continue part lastPart l)
          else
            in_get ;;;
            q <- peek_is DQUOTE ;;
            if negb q then
              modify (fun js =>
                set_token2_ (push_back (push_back (token2_ js) DQUOTE) DQUOTE) js) ;;;
              ret (Continue part lastPart l)
            else
              in_get ;;;
              t <- gets token2_ ;;
              modify (set_in_multiquotes_ false) ;;;
              ret (Continue AfterToken2 lastPart (set_token2 t l))
      else if mq && isspace c then
        modify (fun js => set_token2_ (push_back (token2_ js) c) js) ;;;
        ret (Continue part lastPart l)
      else if ch_eq c BSLASH then readEscape2 ;;; ret (Continue part lastPart l)
      else
        bad <- in_quotes_invalid c ;;
        if bad then INVALID_CHAR c
        else modify (fun js => set_token2_ (push_back (token2_ js) c) js) ;;;
             ret (Continue part lastPart l)
  | InUnquotedToken2 =>
      sep <- separator c ;;
      if sep then
        t <- gets token2_ ;; t <- checkValue t false ;; ret (Return (set_token2 t l))
      else if closing c then
        in_putback c ;;;
        t <- gets token2_ ;; t <- checkValue t false ;; ret (Return (set_token2 t l))
      else if ch_eq c BSLASH then readEscape2 ;;; ret (Continue part lastPart l)
      else modify (fun js => set_token2_ (push_back (token2_ js) c) js) ;;;
           ret (Continue part lastPart l)
  | AfterToken2 =>
      sep <- separator c ;;
      if sep then ret (Return l)
      else if closing c then in_putback c ;;; ret (Return l)
      else if negb (isspace c) then
        error JsonError.ExpectingDelimiter "" true ;;; ret (Return l)
      else ret (Continue part lastPart l)
  | LineComment =>
      cm <- gets (fun js => allows js Comments) ;;
      if cm && ch_eq c LF then ret (Continue lastPart lastPart l)
      else ret (Continue part lastPart l)
  | Comment =>
      cm <- gets (fun js => allows js Comments) ;;
      close <- (if cm && ch_eq c "*" then peek_is "/" else ret false) ;;
      if close then in_get ;;; ret (Continue lastPart lastPart l)
      else ret (Continue part lastPart l)
  end.

(** The loop. Every turn takes at least one character from the stream, so
    the length of the remaining input plus one bounds the number of turns. *)
Fixpoint readLine_loop (fuel : nat) (inObj : bool) (part lastPart : Part) (l : Line)
  : M Line :=
  match fuel with
  | O => fun _ => OutOfFuel
  | S fuel =>
      c <- in_get ;;
      match c with
      | None =>
          t <- gets token1_ ;;
          if negb (empty t) then
            t <- checkValue t inObj ;; ret (set_token1 t l)
          else ret l
      | Some c =>
          b <- before_switch part lastPart c ;;
          let '(part, lastPart, c) := b in
          r <- switch_part inObj part lastPart c l ;;
          match r with
          | Return l => ret l
          | Continue part lastPart l => readLine_loop fuel inObj part lastPart l
          end
      end
  end.

Definition remaining (js : JsonSerial) : nat :=
  match in_ js with Some s => String.length (buf s) | None => O end.

Definition readLine (inObj : bool) : M Line := fun js =>
  (modify (fun js => set_token2_ "" (set_token1_ "" js)) ;;;
   readLine_loop (S (remaining js)) inObj Begin Begin
     {| token1 := ""; token2 := ""; found1 := false; found2 := false |}) js.

(** ** Memory access *)

Definition load (a : Z) : M value := fun js =>
  match cells (mem js) !! a with
  | Some v => Ret v js
  | None => Undefined
  end.

Definition store (a : Z) (v : value) : M unit :=
  modify (fun js => set_mem {| cells := <[a := v]> (cells (mem js)); brk := brk (mem js) |} js).

(** [operator new]: a fresh region of [n] cells. *)
Definition alloc (n : Z) : M Z := fun js =>
  let a := brk (mem js) in
  Ret a (set_mem {| cells := cells (mem js); brk := a + n |} js).

Definition load_string (a : Z) : M string :=
  v <- load a ;; match v with VStr s => ret s | _ => undefined end.
Definition load_cstr (a : Z) : M (option string) :=
  v <- load a ;; match v with VCStr s => ret s | _ => undefined end.
Definition load_bool (a : Z) : M bool :=
  v <- load a ;; match v with VBool b => ret b | _ => undefined end.
Definition load_int (a : Z) : M Z :=
  v <- load a ;; match v with VInt n => ret n | _ => undefined end.
Definition load_ptr (a : Z) : M Z :=
  v <- load a ;; match v with VPtr p => ret p | _ => undefined end.
Definition load_seq (a : Z) : M (list Z) :=
  v <- load a ;; match v with VSeq l => ret l | _ => undefined end.
Definition load_map (a : Z) : M (list (string * Z)) :=
  v <- load a ;; match v with VMap m => ret m | _ => undefined end.

(** [typeid(obj)] for [obj] of static type [T] at address [a]. *)
Definition typeid (T : string) (a : Z) : M string := fun js =>
  match cells (mem js) !! a with
  | Some (VVptr dyn) => Ret dyn js
  | _ => Ret T js
  end.

(** ** Class descriptors (jsonclasses.hpp) *)

(** [std::function<C*()>] and [MetaClass::Creator::create]: user code that
    allocates an object and returns its address, or [nullptr]. *)
Definition Creator : Type := Memory -> Z * Memory.

(** The variants of [ObjectClass<T>::Member] (jsonimpl.hpp). [var] is the
    address of a static variable, or the offset of an instance variable. *)
Inductive MemberKind :=
| StaticMember (var : Z) (t : ty)
| InstanceMember (var : Z) (t : ty)
| InstanceMemberWithCreator (var : Z) (pointee : ty) (creator : Z -> Creator)
| ArrayMemberWithCreator (var : Z) (elem : ty) (creator : Z -> Creator)
| InstanceMemberWithAccessor (t : ty)
    (setter : Z -> value -> Memory -> Memory) (getter : Z -> Memory -> option value)
| InstanceCustomMember (readfun : Z -> string -> M unit) (writefun : Z -> M unit).

Record Member := {
  name : string;
  kind : MemberKind
}.

Definition isCustom (m : Member) : bool :=
  match kind m with InstanceCustomMember _ _ => true | _ => false end.

(** [ObjectClass<C>]. A [Superclass] entry holds the descriptor of the
    superclass and the upcast; the descriptor is the one registered when
    [extends] was called. *)
Inductive ObjectClass := Build_ObjectClass {
  classname_ : string;
  superclasses_ : list Superclass;
  creator_ : option Creator;
  members_ : list Member;
  membermap_ : gmap string Member;
  postread_ : option (Z -> Memory -> Memory);
  postwrite_ : option (Z -> Memory -> Memory)
}
with Superclass := Build_Superclass {
  super_ : ObjectClass;
  upcast_ : Z -> Z
}.

(** The two implementations of the interface [MetaClass]. *)
Inductive MetaClass :=
| Object (cl : ObjectClass)
| MapClass (E : ty).

Definition classname (cl : MetaClass) : string :=
  match cl with
  | Object cl => classname_ cl
  | MapClass _ => "std::map"
  end.

Definition getMember (cl : ObjectClass) (n : string) : option Member :=
  membermap_ cl !! n.

(** [JsonClasses]: the registry. *)
Record JsonClasses := {
  classindexes_ : gmap string ObjectClass;   (* by std::type_index *)
  classnames_ : gmap string ObjectClass;     (* by class name *)
  registry_error : option JsonError.t;
  registry_reported : list JsonError.t
}.

Definition getClass_name (classes : JsonClasses) (n : string) : option ObjectClass :=
  classnames_ classes !! n.
Definition getClass_type (classes : JsonClasses) (T : string) : option ObjectClass :=
  classindexes_ classes !! T.

(** [JsonClasses::error]: the error is recorded and reported, never thrown. *)
Definition registry_fail (type : JsonError.Type_) (arg where_ : string)
    (classes : JsonClasses) : JsonClasses :=
  let e := JsonError.set type true where_ arg "" 0 in
  {| classindexes_ := classindexes_ classes; classnames_ := classnames_ classes;
     registry_error := Some e; registry_reported := registry_reported classes ++ [e] |}.

Definition put_class (T : string) (cl : ObjectClass) (classes : JsonClasses) : JsonClasses :=
  {| classindexes_ := <[T := cl]> (classindexes_ classes);
     classnames_ := <[classname_ cl := cl]> (classnames_ classes);
     registry_error := registry_error classes;
     registry_reported := registry_reported classes |}.

(** [defclass<T>(classname, creator)] *)
Definition defclass (T classname : string) (creator : option Creator)
    (classes : JsonClasses) : JsonClasses :=
  let classes :=
    match getClass_name classes classname with
    | Some _ => registry_fail JsonError.RedefinedClass classname "defclass()" classes
    | None => classes
    end in
  put_class T (Build_ObjectClass classname [] creator [] ∅ None None) classes.

(** [ObjectClass<T>::addMember], on the class registered for [T]. *)
Definition addMember (T : string) (m : Member) (classes : JsonClasses) : JsonClasses :=
  match getClass_type classes T with
  | None => classes
  | Some cl =>
      match getMember cl (name m) with
      | Some _ =>
          registry_fail JsonError.RedefinedMember
            (": member " +:+ name m +:+ " of class " +:+ classname_ cl) "member()" classes
      | None =>
          put_class T
            (Build_ObjectClass (classname_ cl) (superclasses_ cl) (creator_ cl)
               (members_ cl ++ [m]) (<[name m := m]> (membermap_ cl))
               (postread_ cl) (postwrite_ cl)) classes
      end
  end.

Definition member (T : string) (n : string) (k : MemberKind) : JsonClasses -> JsonClasses :=
  addMember T {| name := n; kind := k |}.

(** [ObjectClass<T>::extends<Super>()]; [upcast] is the pointer adjustment
    from [T*] to [Super*]. *)
Definition extends (T Super : string) (upcast : Z -> Z) (classes : JsonClasses) : JsonClasses :=
  match getClass_type classes T with
  | None => classes
  | Some cl =>
      match getClass_type classes Super with
      | None =>
          registry_fail JsonError.UnknownSuperclass
            (": superclass " +:+ Super +:+ " of class " +:+ classname_ cl) "extends()" classes
      | Some c =>
          if existsb (fun it => String.eqb (classname_ (super_ it)) (classname_ c))
               (superclasses_ cl)
          then registry_fail JsonError.RedefinedSuperclass
                 (": superclass " +:+ classname_ c +:+ " of class " +:+ classname_ cl)
                 "extends()" classes
          else
            put_class T
              (Build_ObjectClass (classname_ cl) (superclasses_ cl ++ [Build_Superclass c upcast])
                 (creator_ cl) (members_ cl) (membermap_ cl)
                 (postread_ cl) (postwrite_ cl)) classes
      end
  end.

Definition no_classes : JsonClasses :=
  {| classindexes_ := ∅; classnames_ := ∅; registry_error := None; registry_reported := [] |}.

(** ** The writer (jsonserial.hpp, jsonimpl.hpp) *)

(** [*out_ << s] *)
Definition put (s : string) : M unit := fun js =>
  match out_ js with
  | None => Undefined
  | Some o => Ret tt (set_out_ (Some (o +:+ s)) js)
  end.

(** [std::string(n, c)] *)
Definition fill (n : nat) (c : ascii) : string :=
  string_of_list_ascii (repeat c n).

(** [addTab]: [++level_*indent_] is computed in [unsigned int]. *)
Definition addTab : M unit :=
  modify (fun js =>
    let js := set_level_ (level_ js + 1) js in
    if Z.of_nat (String.length (tabs_ js)) <=? (level_ js * indent_ js) mod 2^32
    then set_tabs_ (tabs_ js +:+ fill 20 (tabchar_ js)) js
    else js).

Definition removeTab : M unit :=
  modify (fun js =>
    if level_ js - 1 <? 0 then set_level_ 0 js else set_level_ (level_ js - 1) js).

(** [writeTabs]: the first [level_*indent_] bytes of [tabs_]. *)
Definition writeTabs : M unit :=
  n <- gets (fun js => (level_ js * indent_ js) mod 2^32) ;;
  t <- gets tabs_ ;;
  if n <=? Z.of_nat (String.length t)
  then put (String.substring 0 (Z.to_nat n) t)
  else undefined.

Fixpoint escape (s : string) : string :=
  match s with
  | EmptyString => EmptyString
  | String c r =>
      if ch_eq c DQUOTE then String BSLASH (String DQUOTE (escape r))
      else if ch_eq c BSLASH then String BSLASH (String BSLASH (escape r))
      else if ch_eq c BS then String BSLASH (String "b" (escape r))
      else if ch_eq c FF then String BSLASH (String "f" (escape r))
      else if ch_eq c LF then String BSLASH (String "n" (escape r))
      else if ch_eq c CR then String BSLASH (String "r" (escape r))
      else if ch_eq c TAB then String BSLASH (String "t" (escape r))
      else String c (escape r)
  end.

(** [writeString(s, is_cstring)]: [s] is a C string, possibly null. *)
Definition writeString (s : option string) (is_cstring : bool) : M unit :=
  match s with
  | None => put (if is_cstring then "null" else str1 DQUOTE +:+ str1 DQUOTE)
  | Some s => put (str1 DQUOTE +:+ escape (c_str s) +:+ str1 DQUOTE)
  end ;;;
  modify (set_needcomma_ true).

Definition size_of (typeinfo : string -> TypeInfo) (t : ty) : Z :=
  match t with
  | TObj T => ti_size (typeinfo T)
  | _ => 1
  end.

(** ** Conversions of the C and C++ libraries used by the reader *)

Fixpoint skip_space (s : string) : string :=
  match s with
  | String c r => if isspace c then skip_space r else s
  | EmptyString => EmptyString
  end.

Definition digit_of (c : ascii) : option Z :=
  if isdigit c then Some (code c - 48)
  else if (97 <=? code c) && (code c <=? 122) then Some (code c - 87)
  else if (65 <=? code c) && (code c <=? 90) then Some (code c - 55)
  else None.

(** The digits of a number in [base]; [None] when there is none. *)
Fixpoint scan_digits (base : Z) (s : string) (acc : option Z) : option Z :=
  match s with
  | String c r =>
      match digit_of c with
      | Some d =>
          if d <? base
          then scan_digits base r (Some (match acc with Some n => n | None => 0 end * base + d))
          else acc
      | None => acc
      end
  | EmptyString => acc
  end.

(** The subject sequence of [strtol]/[strtoul]: white space, a sign, a
    prefix when [base] is 0, digits. Yields the sign and the magnitude. *)
Definition scan_integer (base : Z) (s : string) : option (bool * Z) :=
  let s := skip_space s in
  let '(neg, s) :=
    match s with
    | String c r => if ch_eq c "-" then (true, r) else if ch_eq c "+" then (false, r) else (false, s)
    | EmptyString => (false, s)
    end in
  let '(base, s) :=
    if base =? 0 then
      match s with
      | String z (String x (String h r)) =>
          if ch_eq z "0" && (ch_eq x "x" || ch_eq x "X")
             && match digit_of h with Some d => d <? 16 | None => false end
          then (16, String h r)
          else if ch_eq z "0" then (8, s) else (10, s)
      | String z _ => if ch_eq z "0" then (8, s) else (10, s)
      | EmptyString => (10, s)
      end
    else (base, s) in
  match scan_digits base s None with
  | Some n => Some (neg, n)
  | None => None
  end.

(** [std::strtoul(s, nullptr, 0)] *)
Definition strtoul (s : string) : Z :=
  match scan_integer 0 s with
  | None => 0
  | Some (neg, n) =>
      if 2^64 <=? n then 2^64 - 1 else if neg then (2^64 - n) mod 2^64 else n
  end.

(** [std::stoul(s)] *)
Definition stoul (s : string) : M Z :=
  match scan_integer 10 (c_str s) with
  | None => std_throw invalid_argument
  | Some (neg, n) =>
      if 2^64 <=? n then std_throw out_of_range
      else ret (if neg then (2^64 - n) mod 2^64 else n)
  end.

(** [std::stoi(s)] *)
Definition stoi (s : string) : M Z :=
  match scan_integer 10 (c_str s) with
  | None => std_throw invalid_argument
  | Some (neg, n) =>
      let v := if neg then - n else n in
      if (v <? - 2^31) || (2^31 <=? v) then std_throw out_of_range else ret v
  end.

(** The overloads of [readValue] that parse one token and nothing else,
    as the value they assign. *)
Definition readScalar (t : ty) (s : string) : M value :=
  match t with
  | TString => ret (VStr s)
  | TCStr => ret (VCStr (if String.eqb s "null" then None else Some (c_str s)))
  | TBool =>
      if String.eqb s "true" then ret (VBool true)
      else if String.eqb s "false" then ret (VBool false)
      else error JsonError.InvalidValue (s +:+ " should be a boolean") true ;;; undefined
  | TInt => n <- stoi s ;; ret (VInt n)
  | _ => undefined
  end.

(** [std::map]: the entries are kept in the order of their keys. *)
Fixpoint map_find (key : string) (entries : list (string * Z)) : option Z :=
  match entries with
  | [] => None
  | (k, p) :: entries => if String.eqb k key then Some p else map_find key entries
  end.

Fixpoint map_insert (key : string) (p : Z) (entries : list (string * Z)) : list (string * Z) :=
  match entries with
  | [] => [(key, p)]
  | (k, q) :: rest =>
      match String.compare key k with
      | Lt => (key, p) :: entries
      | Eq => (k, q) :: rest
      | Gt => (k, q) :: map_insert key p rest
      end
  end.

(** A creator called by the engine. *)
Definition run_creator (f : Creator) : M Z := fun js =>
  let '(p, m) := f (mem js) in Ret p (set_mem m js).

(** [try { body } catch (std::invalid_argument) { handler }] *)
Definition catch_invalid_argument {A} (body handler : M A) : M A := fun js =>
  match body js with
  | StdThrow invalid_argument js' => handler js'
  | o => o
  end.

(** [writeValue] of a value that is not held in a variable of the model
    (what a getter returns): a scalar, or a pointer. *)
Definition write_returned (writeValue : ty -> Z -> M unit) (t : ty) (v : value) : M unit :=
  match t, v with
  | TString, VStr s => writeString (Some s) false
  | TCStr, VCStr s => writeString s true
  | TBool, VBool b => put (if b then "true" else "false") ;;; modify (set_needcomma_ true)
  | TInt, VInt n => put (pretty n) ;;; modify (set_needcomma_ true)
  | TPtr t, VPtr p =>
      (if p =? 0 then put "null" else writeValue t p) ;;; modify (set_needcomma_ true)
  | _, _ => undefined
  end.

Section Engine.

(** The registry the engine was constructed with, and the class types of
    the program. *)
Variable classes_ : JsonClasses.
Variable typeinfo : string -> TypeInfo.

Section Writer.

(** The recursive calls of [writeValue], one level down. *)
Variable writeValue : ty -> Z -> M unit.

(** [Member::write] for each variant. *)
Definition Member_write (m : Member) (obj : Z) : M unit :=
  match kind m with
  | StaticMember var t => writeValue t var
  | InstanceMember var t => writeValue t (obj + var)
  | InstanceMemberWithCreator var pointee _ => writeValue (TPtr pointee) (obj + var)
  | ArrayMemberWithCreator var elem _ => writeValue (TSeq elem) (obj + var)
  | InstanceMemberWithAccessor t _ getter =>
      v <- gets (fun js => getter obj (mem js)) ;;
      match v with
      | Some v => write_returned writeValue t v
      | None => undefined
      end
  | InstanceCustomMember _ writefun => writefun obj
  end.

(** The loop over [members_] in [ObjectClass<T>::writeMembers]. *)
Fixpoint write_own_members (ms : list Member) (obj : Z) : M unit :=
  match ms with
  | [] => ret tt
  | it :: ms =>
      nc <- gets needcomma_ ;;
      (if nc then put ("," +:+ str1 LF) else ret tt) ;;;
      modify (set_needcomma_ false) ;;;
      (if isCustom it then modify (set_token1_ (name it))
       else writeTabs ;;; put (str1 DQUOTE +:+ name it +:+ str1 DQUOTE +:+ ": ")) ;;;
      Member_write it obj ;;;
      write_own_members ms obj
  end.

(** [ObjectClass<T>::writeMembers] *)
Fixpoint ObjectClass_writeMembers (cl : ObjectClass) (obj : Z) : M unit :=
  (fix supers (l : list Superclass) : M unit :=
     match l with
     | [] => ret tt
     | it :: l =>
         ObjectClass_writeMembers (super_ it) (upcast_ it obj) ;;;
         supers l
     end) (superclasses_ cl) ;;;
  write_own_members (members_ cl) obj.

(** [MapClass<T>::writeMembers], over the entries in traversal order. *)
Fixpoint MapClass_writeMembers (E : ty) (entries : list (string * Z)) : M unit :=
  match entries with
  | [] => ret tt
  | it :: entries =>
      nc <- gets needcomma_ ;;
      (if nc then put ("," +:+ str1 LF) else ret tt) ;;;
      modify (set_needcomma_ false) ;;;
      writeTabs ;;;
      put (str1 DQUOTE +:+ fst it +:+ str1 DQUOTE +:+ ": ") ;;;
      writeValue E (snd it) ;;;
      MapClass_writeMembers E entries
  end.

Definition writeMembers (cl : MetaClass) (obj : Z) : M unit :=
  match cl with
  | Object cl => ObjectClass_writeMembers cl obj
  | MapClass E => m <- load_map obj ;; MapClass_writeMembers E m
  end.

Definition doPostWrite (cl : MetaClass) (obj : Z) : M unit :=
  match cl with
  | Object cl =>
      match postwrite_ cl with
      | Some f => if obj =? 0 then ret tt else modify (fun js => set_mem (f obj (mem js)) js)
      | None => ret tt
      end
  | MapClass _ => ret tt
  end.

(** [JsonSerial::writeObject] *)
Definition writeObject (cl : MetaClass) (is_derived_class : bool) (obj : Z) : M unit :=
  sharing <- gets sharing_ ;;
  seen <- gets (fun js => if sharing then object_to_id_ js !! obj else None) ;;
  match seen with
  | Some id => put (str1 DQUOTE +:+ "@" +:+ pretty id +:+ str1 DQUOTE)
  | None =>
      (if sharing then
         modify (fun js =>
           let id := (current_object_id_ js + 1) mod 2^64 in
           set_object_to_id_ (<[obj := id]> (object_to_id_ js))
             (set_current_object_id_ id js))
       else ret tt) ;;;
      modify (set_needcomma_ false) ;;;
      put ("{" +:+ str1 LF) ;;;
      addTab ;;;
      (if is_derived_class then
         writeTabs ;;;
         put (str1 DQUOTE +:+ "@class" +:+ str1 DQUOTE +:+ ": " +:+ str1 DQUOTE
              +:+ classname cl +:+ str1 DQUOTE +:+ "," +:+ str1 LF)
       else ret tt) ;;;
      (if sharing then
         writeTabs ;;;
         id <- gets current_object_id_ ;;
         put (str1 DQUOTE +:+ "@id" +:+ str1 DQUOTE +:+ ": " +:+ str1 DQUOTE
              +:+ pretty id +:+ str1 DQUOTE +:+ "," +:+ str1 LF)
       else ret tt) ;;;
      writeMembers cl obj ;;;
      removeTab ;;;
      put (str1 LF) ;;; writeTabs ;;; put "}" ;;;
      modify (set_needcomma_ true) ;;;
      doPostWrite cl obj
  end.

(** [JsonSerial::writeArray] *)
Fixpoint writeArray_loop (t : ty) (elems : list Z) : M unit :=
  match elems with
  | [] => ret tt
  | it :: elems =>
      nc <- gets needcomma_ ;;
      (if nc then put ("," +:+ str1 LF) else ret tt) ;;;
      writeTabs ;;;
      modify (set_needcomma_ false) ;;;
      writeValue t it ;;;
      writeArray_loop t elems
  end.

Definition writeArray (t : ty) (elems : list Z) : M unit :=
  modify (set_needcomma_ false) ;;;
  put ("[" +:+ str1 LF) ;;;
  addTab ;;;
  writeArray_loop t elems ;;;
  removeTab ;;;
  put (str1 LF) ;;; writeTabs ;;; put "]".

(** The overloads of [writeValue2]. *)
Definition writeValue2 (t : ty) (a : Z) : M unit :=
  match t with
  | TPtr t =>
      ptr <- load_ptr a ;;
      if ptr =? 0 then put "null" else writeValue t ptr
  | TInt => n <- load_int a ;; put (pretty n)
  | TMap E => writeObject (MapClass E) false a
  | TObj T =>
      dyn <- typeid T a ;;
      match getClass_type classes_ dyn with
      | None => error JsonError.UnknownClass dyn true
      | Some cl => writeObject (Object cl) (negb (String.eqb dyn T)) a
      end
  | TSeq t =>
      cont <- load_seq a ;;
      match cont with [] => put "[]" | _ => writeArray t cont end
  | _ => undefined
  end.

(** The overloads of [writeValue], for the variable of type [t] at [a]. *)
Definition writeValue_ (t : ty) (a : Z) : M unit :=
  match t with
  | TBool =>
      b <- load_bool a ;;
      put (if b then "true" else "false") ;;; modify (set_needcomma_ true)
  | TString => s <- load_string a ;; writeString (Some s) false
  | TCStr => s <- load_cstr a ;; writeString s true
  | _ => writeValue2 t a ;;; modify (set_needcomma_ true)
  end.

End Writer.

Fixpoint writeValue (fuel : nat) (t : ty) (a : Z) : M unit :=
  match fuel with
  | O => fun _ => OutOfFuel
  | S fuel => writeValue_ (writeValue fuel) t a
  end.

(** [JsonSerial::writeMember], the helper of custom write functions. *)
Definition writeMember (fuel : nat) (t : ty) (a : Z) : M unit :=
  writeTabs ;;;
  n <- gets token1_ ;;
  put (str1 DQUOTE +:+ n +:+ str1 DQUOTE +:+ ": ") ;;;
  writeValue fuel t a.

(** *** The reader (jsonimpl.hpp)

    The [ObjectPtr*&] parameter of the reading functions serves the
    bookkeeping of shared-ownership handles ([shared_], [init_]); the
    model keeps the [raw_] pointer of each [ObjectPtr] only, a smart
    pointer being the address it holds. *)

(** Value-initialization of a new variable of type [t] at [a]: [T{}]. *)
Definition construct (t : ty) (a : Z) : M unit :=
  match t with
  | TString => store a (VStr "")
  | TCStr => store a (VCStr None)
  | TBool => store a (VBool false)
  | TInt => store a (VInt 0)
  | TPtr _ => store a (VPtr 0)
  | TSeq _ => store a (VSeq [])
  | TMap _ => store a (VMap [])
  | TObj T =>
      (fix init (l : list (Z * value)) : M unit :=
         match l with
         | [] => ret tt
         | (o, v) :: l => store (a + o) v ;;; init l
         end) (ti_init (typeinfo T))
  end.

(** [new T{}] *)
Definition new_ (t : ty) : M Z :=
  a <- alloc (size_of typeinfo t) ;; construct t a ;;; ret a.

(** [JsonSerial::getCheckedClass] *)
Definition getCheckedClass (T : string) : M ObjectClass :=
  match getClass_type classes_ T with
  | Some cl => ret cl
  | None => error JsonError.UnknownClass T true ;;; undefined
  end.

(** [MetaClass::create] *)
Definition create (cl : MetaClass) : M Z :=
  match cl with
  | Object cl =>
      match creator_ cl with
      | Some f => run_creator f
      | None => ret 0
      end
  | MapClass E => new_ (TMap E)
  end.

Definition doPostRead (cl : MetaClass) (obj : Z) : M unit :=
  match cl with
  | Object cl =>
      match postread_ cl with
      | Some f => if obj =? 0 then ret tt else modify (fun js => set_mem (f obj (mem js)) js)
      | None => ret tt
      end
  | MapClass _ => ret tt
  end.

(** The block [if (!objclass) {...}] of [readObject]: pins the class and
    creates the object. Yields the class, the object and whether the
    loop [continue]s. *)
Definition pin_class (objclass : option MetaClass) (pointerclass : MetaClass)
    (cr : option Creator) (obj : Z) (name value : string) : M (MetaClass * Z * bool) :=
  match objclass with
  | Some cl => ret (cl, obj, false)
  | None =>
      objclass <-
        (if negb (String.eqb name "@class") then ret pointerclass
         else match getClass_name classes_ value with
              | Some cl => ret (Object cl)
              | None => error JsonError.UnknownClass value true ;;; undefined
              end) ;;
      obj <-
        (if obj =? 0 then
           match cr with
           | Some cr => run_creator cr
           | None => create objclass
           end
         else ret obj) ;;
      (if obj =? 0 then error JsonError.AbstractClass (classname objclass) true
       else ret tt) ;;;
      ret (objclass, obj, String.eqb name "@class")
  end.

Section Reader.

(** [readValue], [readPointee] and [readArray] call one another
    through the members of the classes; these are their recursive
    calls, one level down. The loops are bounded by the input. *)
Variable readValue : ty -> Z -> string -> M unit.
Variable readPointee : ty -> Z -> option Creator -> string -> M unit.
Variable readArray : ty -> Z -> option Creator -> string -> M unit.

(** [Member::read] for each variant. *)
Definition Member_read (m : Member) (obj : Z) (val : string) : M unit :=
  match kind m with
  | StaticMember var t => readValue t var val
  | InstanceMember var t => readValue t (obj + var) val
  | InstanceMemberWithCreator var pointee creator =>
      store (obj + var) (VPtr 0) ;;;
      if negb (String.eqb val "null")
      then readPointee pointee (obj + var) (Some (creator obj)) val
      else ret tt
  | ArrayMemberWithCreator var elem creator =>
      readArray elem (obj + var) (Some (creator obj)) val
  | InstanceMemberWithAccessor t setter _ =>
      v <- readScalar t val ;;
      modify (fun js => set_mem (setter obj v (mem js)) js)
  | InstanceCustomMember readfun _ => readfun obj val
  end.

(** [ObjectClass<T>::readMember] *)
Fixpoint ObjectClass_readMember (cl : ObjectClass) (obj : Z) (name val : string)
  : M bool :=
  match getMember cl name with
  | Some mb => Member_read mb obj val ;;; ret true
  | None =>
      (fix supers (l : list Superclass) : M bool :=
         match l with
         | [] => ret false
         | it :: l =>
             found <- ObjectClass_readMember (super_ it) (upcast_ it obj) name val ;;
             if found then ret true else supers l
         end) (superclasses_ cl)
  end.

(** [MapClass<T>::readMember]: [operator[]] on the key, the assignment
    of [E{}] to the mapped value, and its read. *)
Definition MapClass_readMember (E : ty) (map : Z) (key val : string) : M bool :=
  entries <- load_map map ;;
  p <- match map_find key entries with
       | Some p => ret p
       | None =>
           p <- alloc (size_of typeinfo E) ;;
           store map (VMap (map_insert key p entries)) ;;;
           ret p
       end ;;
  construct E p ;;;
  readValue E p val ;;;
  ret true.

Definition readMember (cl : MetaClass) (obj : Z) (name val : string) : M bool :=
  match cl with
  | Object cl => ObjectClass_readMember cl obj name val
  | MapClass E => MapClass_readMember E obj name val
  end.

(** The end of the loop body of [readObject], for a member:
    [try { ... } catch (std::invalid_argument) { ... }]. *)
Definition read_member_or_warn (cl : MetaClass) (obj : Z) (name value : string) : M unit :=
  catch_invalid_argument
    (found <- readMember cl obj name value ;;
     if found then ret tt
     else error JsonError.UnknownMember
            ("'" +:+ name +:+ "' in class '" +:+ classname cl +:+ "'") false)
    (error JsonError.InvalidValue (value +:+ " for member '" +:+ name +:+ "'") true).

(** The loop [while (js.in_->good())] of [readObject]. Each turn reads
    a line, which takes at least one byte from the stream. *)
Fixpoint readObject_loop (n : nat) (objclass : option MetaClass)
    (pointerclass : MetaClass) (cr : option Creator) (obj : Z) : M Z :=
  match n with
  | O => fun _ => OutOfFuel
  | S n =>
      ok <- in_good ;;
      if negb ok then error JsonError.PrematureEOF "" true ;;; ret 0
      else
        l <- readLine true ;;
        let name := token1 l in
        let value := token2 l in
        (if negb (found1 l) then error JsonError.ExpectingPairOrBrace "" true
         else if negb (found2 l) && negb (String.eqb name "}")
              then error JsonError.ExpectingPairOrBrace "" true
              else ret tt) ;;;
        (if ch_eq (front name) "@" && negb (String.eqb name "@class")
            && negb (String.eqb name "@id")
         then error JsonError.WrongKeyword value true else ret tt) ;;;
        pinned <- pin_class objclass pointerclass cr obj name value ;;
        let '(cl, obj, continue) := pinned in
        if continue then readObject_loop n (Some cl) pointerclass cr obj
        else if String.eqb name "}" then doPostRead cl obj ;;; ret obj
        else if String.eqb name "@id" then
          id <- stoul value ;;
          modify (fun js => set_id_to_object_ (<[id := obj]> (id_to_object_ js)) js) ;;;
          readObject_loop n (Some cl) pointerclass cr obj
        else
          read_member_or_warn cl obj name value ;;;
          readObject_loop n (Some cl) pointerclass cr obj
  end.

(** [readObject] *)
Definition readObject (objclass : option MetaClass) (pointerclass : MetaClass)
    (cr : option Creator) (obj : Z) (s : string) : M Z :=
  if empty s then error JsonError.ExpectingBrace "" true ;;; undefined
  else if ch_eq (front s) "@" then
    let id := strtoul (match c_str s with String _ r => r | EmptyString => "" end) in
    found <- gets (fun js => id_to_object_ js !! id) ;;
    match found with
    | None => error JsonError.InvalidID "" true ;;; undefined
    | Some raw => ret raw
    end
  else
    (if negb (String.eqb s "{") then error JsonError.ExpectingBrace "" true
     else ret tt) ;;;
    n <- gets remaining ;;
    readObject_loop (S n) objclass pointerclass cr obj.

(** [readPointee<T>] for the pointer variable at [ptr]. *)
Definition readPointee_ (t : ty) (ptr : Z) (cr : option Creator) (s : string) : M unit :=
  match t with
  | TObj T =>
      cl <- getCheckedClass T ;;
      p <- readObject None (Object cl) cr 0 s ;;
      store ptr (VPtr p)
  | _ =>
      p <- new_ t ;;
      store ptr (VPtr p) ;;;
      readValue t p s
  end.

(** [readArrayValue] for an element of type [t] at [e]. *)
Definition readArrayValue (t : ty) (e : Z) (cr : option Creator) (s : string) : M unit :=
  match t with
  | TCStr => store e (VCStr None) ;;; readValue TCStr e s
  | TPtr t =>
      store e (VPtr 0) ;;;
      if negb (String.eqb s "null") then readPointee t e cr s else ret tt
  | _ => readValue t e s
  end.

(** [JsonArrayImpl<T>::add] for a vector or a list at [cont]:
    [cont_.resize(cont_.size()+1)], then the read of [cont_.back()]. *)
Definition JsonArrayImpl_add (t : ty) (cont : Z) (cr : option Creator) (s : string)
  : M unit :=
  elems <- load_seq cont ;;
  e <- new_ t ;;
  store cont (VSeq (elems ++ [e])) ;;;
  readArrayValue t e cr s.

(** The loop of [readArray]; [end()] has nothing to do in the model. *)
Fixpoint readArray_loop (n : nat) (t : ty) (cont : Z) (cr : option Creator) : M unit :=
  match n with
  | O => fun _ => OutOfFuel
  | S n =>
      ok <- in_good ;;
      if negb ok then ret tt
      else
        l <- readLine false ;;
        if negb (found1 l) then
          error JsonError.ExpectingValueOrBracket "" true ;;;
          readArray_loop n t cont cr
        else if String.eqb (token1 l) "]" then ret tt
        else
          JsonArrayImpl_add t cont cr (token1 l) ;;;
          readArray_loop n t cont cr
  end.

(** [readArray], with [JsonArrayImpl<T> a(array)] for the vector or
    list at [cont] (the constructor clears the container). *)
Definition readArray_ (t : ty) (cont : Z) (cr : option Creator) (s : string) : M unit :=
  store cont (VSeq []) ;;;
  (if negb (String.eqb s "[") then error JsonError.ExpectingBracket "" true
   else ret tt) ;;;
  n <- gets remaining ;;
  readArray_loop (S n) t cont cr.

(** The overloads of [readValue] and [readValue2], for the variable
    of type [t] at [a]. *)
Definition readValue_ (t : ty) (a : Z) (s : string) : M unit :=
  match t with
  | TString | TCStr | TBool | TInt => v <- readScalar t s ;; store a v
  | TPtr t =>
      store a (VPtr 0) ;;;
      if negb (String.eqb s "null") then readPointee t a None s else ret tt
  | TObj T =>
      dyn <- typeid T a ;;
      wanted_class <- getCheckedClass dyn ;;
      readObject (Some (Object wanted_class)) (Object wanted_class) None a s ;;;
      ret tt
  | TMap E =>
      readObject (Some (MapClass E)) (MapClass E) None a s ;;; ret tt
  | TSeq t => readArray t a None s
  end.

End Reader.

Fixpoint readValue (fuel : nat) (t : ty) (a : Z) (s : string) : M unit :=
  match fuel with
  | O => fun _ => OutOfFuel
  | S fuel => readValue_ (readValue fuel) (readPointee fuel) (readArray fuel) t a s
  end
with readPointee (fuel : nat) (t : ty) (ptr : Z) (cr : option Creator) (s : string) : M unit :=
  match fuel with
  | O => fun _ => OutOfFuel
  | S fuel => readPointee_ (readValue fuel) (readPointee fuel) (readArray fuel) t ptr cr s
  end
with readArray (fuel : nat) (t : ty) (cont : Z) (cr : option Creator) (s : string) : M unit :=
  match fuel with
  | O => fun _ => OutOfFuel
  | S fuel => readArray_ (readValue fuel) (readPointee fuel) t cont cr s
  end.

(** [JsonSerial::readMember], the helper of custom read functions. *)
Definition JsonSerial_readMember (fuel : nat) (t : ty) (a : Z) (s : string) : M unit :=
  readValue fuel t a s.

(** [JsonSerial::reset] *)
Definition reset (streamname : string) (lineno : Z)
    (in_ : option istream) (out_ : option string) (js : JsonSerial) : JsonSerial :=
  {| in_ := in_; out_ := out_; allow_ := allow_ js;
     needcomma_ := false; in_multiquotes_ := false; sharing_ := sharing_ js;
     lineno_ := lineno; indent_ := indent_ js; level_ := 0; tabchar_ := tabchar_ js;
     streamname_ := streamname; tabs_ := fill 40 (tabchar_ js);
     token1_ := token1_ js; token2_ := token2_ js;
     current_object_id_ := 0; object_to_id_ := ∅; id_to_object_ := ∅;
     jsonerror_ := None; reported := reported js; mem := mem js |}.

(** [try { ... } catch (JsonError* e) {return false;} return !jsonerror_;] *)
Definition try_catch (body : M unit) : M bool := fun js =>
  match body js with
  | Ret _ js' => Ret (negb (non_null (jsonerror_ js'))) js'
  | Throw js' => Ret false js'
  | StdThrow e js' => StdThrow e js'
  | Undefined => Undefined
  | OutOfFuel => OutOfFuel
  end.

(** [JsonSerial::write(object, out, name, line)] for an object of type
    [t] at address [a]; the stream starts empty. *)
Definition write (fuel : nat) (t : ty) (a : Z) (name : string) (line : Z) : M bool :=
  try_catch
    (modify (reset name line None (Some "")) ;;;
     writeValue fuel t a ;;;
     put (str1 LF) ;;; put (str1 LF)).

(** [JsonSerial::read(object, in, name, line)] for an object of type [t]
    at address [a], from a stream holding [input]. *)
Definition read (fuel : nat) (t : ty) (a : Z) (input : string)
    (name : string) (line : Z) : M bool :=
  try_catch
    (modify (reset name line
               (Some {| buf := input; eofbit := false; failbit := false |}) None) ;;;
     l <- readLine true ;;
     if found1 l then readValue fuel t a (token1 l)
     else error JsonError.NoData "" true).

End Engine.

(** ** The classes and graphs of the concrete scenarios *)

Module Scenario.

(** The default creator of [defclass<Class>(classname)]: [new Class()]. *)
Definition new_object (ti : TypeInfo) : Creator := fun m =>
  (brk m,
   {| cells := fold_right (fun '(o, v) c => <[brk m + o := v]> c) (cells m) (ti_init ti);
      brk := brk m + ti_size ti |}).

(** [struct P {std::string type, number;}] *)
Definition P : TypeInfo := {| ti_size := 2; ti_init := [(0, VStr ""); (1, VStr "")] |}.
(** [struct V {std::vector<std::string> v;}] *)
Definition V : TypeInfo := {| ti_size := 1; ti_init := [(0, VSeq [])] |}.
(** [struct Node {int v; Node* next;}] *)
Definition Node : TypeInfo := {| ti_size := 2; ti_init := [(0, VInt 0); (1, VPtr 0)] |}.
(** [struct N {std::string s;}], registered with a creator that yields
    no object. *)
Definition N : TypeInfo := {| ti_size := 1; ti_init := [(0, VStr "")] |}.
(** [struct A {std::string x;}; struct C {std::string z;};
    struct B : A, C {std::string y;};] *)
Definition A : TypeInfo := {| ti_size := 1; ti_init := [(0, VStr "")] |}.
Definition C : TypeInfo := {| ti_size := 1; ti_init := [(0, VStr "")] |}.
Definition B : TypeInfo :=
  {| ti_size := 3; ti_init := [(0, VStr ""); (1, VStr ""); (2, VStr "")] |}.

Definition typeinfo (T : string) : TypeInfo :=
  if String.eqb T "P" then P else if String.eqb T "V" then V
  else if String.eqb T "Node" then Node else if String.eqb T "N" then N
  else if String.eqb T "A" then A else if String.eqb T "C" then C else B.

Definition classes : JsonClasses :=
  (member "B" "y" (InstanceMember 2 TString)
  (extends "B" "C" (fun obj => obj + 1)
  (extends "B" "A" (fun obj => obj)
  (defclass "B" "B" (Some (new_object B))
  (member "C" "z" (InstanceMember 0 TString)
  (defclass "C" "C" (Some (new_object C))
  (member "A" "x" (InstanceMember 0 TString)
  (defclass "A" "A" (Some (new_object A))
  (member "N" "s" (InstanceMember 0 TString)
  (defclass "N" "N" (Some (fun m => (0, m)))
  (member "Node" "next" (InstanceMember 1 (TPtr (TObj "Node")))
  (member "Node" "v" (InstanceMember 0 TInt)
  (defclass "Node" "Node" (Some (new_object Node))
  (member "V" "v" (InstanceMember 0 (TSeq TString))
  (defclass "V" "V" (Some (new_object V))
  (member "P" "number" (InstanceMember 1 TString)
  (member "P" "type" (InstanceMember 0 TString)
  (defclass "P" "P" (Some (new_object P)) no_classes)))))))))))))))))).

(** A newly constructed engine: [JsonSerial js(classes)], over a program
    memory. *)
Definition engine (m : Memory) : JsonSerial :=
  {| in_ := None; out_ := None; allow_ := Comments;
     needcomma_ := false; in_multiquotes_ := false; sharing_ := false;
     lineno_ := 0; indent_ := 2; level_ := 0; tabchar_ := " ";
     streamname_ := ""; tabs_ := ""; token1_ := ""; token2_ := "";
     current_object_id_ := 0; object_to_id_ := ∅; id_to_object_ := ∅;
     jsonerror_ := None; reported := []; mem := m |}.

(** [js.setSharing(mode)] and [js.setSyntax(mode)] *)
Definition setSharing (mode : bool) (js : JsonSerial) : JsonSerial :=
  {| in_ := in_ js; out_ := out_ js; allow_ := allow_ js;
     needcomma_ := needcomma_ js; in_multiquotes_ := in_multiquotes_ js;
     sharing_ := mode;
     lineno_ := lineno_ js; indent_ := indent_ js; level_ := level_ js;
     tabchar_ := tabchar_ js; streamname_ := streamname_ js; tabs_ := tabs_ js;
     token1_ := token1_ js; token2_ := token2_ js;
     current_object_id_ := current_object_id_ js;
     object_to_id_ := object_to_id_ js; id_to_object_ := id_to_object_ js;
     jsonerror_ := jsonerror_ js; reported := reported js; mem := mem js |}.

Definition setSyntax (mode : Z) (js : JsonSerial) : JsonSerial :=
  {| in_ := in_ js; out_ := out_ js; allow_ := mode mod 256;
     needcomma_ := needcomma_ js; in_multiquotes_ := in_multiquotes_ js;
     sharing_ := sharing_ js;
     lineno_ := lineno_ js; indent_ := indent_ js; level_ := level_ js;
     tabchar_ := tabchar_ js; streamname_ := streamname_ js; tabs_ := tabs_ js;
     token1_ := token1_ js; token2_ := token2_ js;
     current_object_id_ := current_object_id_ js;
     object_to_id_ := object_to_id_ js; id_to_object_ := id_to_object_ js;
     jsonerror_ := jsonerror_ js; reported := reported js; mem := mem js |}.

(** [P("home","212")] at address 100. *)
Definition home_212 : Memory :=
  {| cells := {[ 100 := VStr "home"; 101 := VStr "212" ]}; brk := 1000 |}.

(** A default-constructed [P] at address 100. *)
Definition empty_P : Memory :=
  {| cells := {[ 100 := VStr ""; 101 := VStr "" ]}; brk := 1000 |}.

(** A [V] at address 100 whose vector holds the one string "]". *)
Definition bracket_V : Memory :=
  {| cells := {[ 100 := VSeq [200]; 200 := VStr "]" ]}; brk := 1000 |}.

(** A default-constructed [V] at address 100. *)
Definition empty_V : Memory :=
  {| cells := {[ 100 := VSeq [] ]}; brk := 1000 |}.

(** The state and the result of a call that returned. *)
Definition returned {A} (o : outcome A) : option (A * JsonSerial) :=
  match o with Ret a js => Some (a, js) | _ => None end.

(** The bytes on the output stream after a call of [write]. *)
Definition written (o : outcome bool) : option string :=
  match o with Ret _ js => out_ js | _ => None end.

(** The value returned by a call of [read] or [write]. *)
Definition result (o : outcome bool) : option bool :=
  match o with Ret b _ => Some b | _ => None end.

(** The memory and the reported errors after a call. *)
Definition memory_after {A} (o : outcome A) : list (Z * value) :=
  match o with Ret _ js => map_to_list (cells (mem js)) | _ => [] end.

Definition errors_after {A} (o : outcome A) : list JsonError.t :=
  match o with Ret _ js => reported js | _ => [] end.

Definition cell_after {A} (o : outcome A) (a : Z) : option value :=
  match o with Ret _ js => cells (mem js) !! a | _ => None end.

(** The state in which a call ends, and the line that [readLine] yields. *)
Definition state_after {A} (o : outcome A) : JsonSerial :=
  match o with
  | Ret _ js | Throw js | StdThrow _ js => js
  | _ => engine {| cells := ∅; brk := 0 |}
  end.

Definition line_of (o : outcome Line) : Line :=
  match o with
  | Ret l _ => l
  | _ => {| token1 := ""; token2 := ""; found1 := false; found2 := false |}
  end.

(** The descriptor registered for a class type. *)
Definition class_of (T : string) : ObjectClass :=
  match getClass_type classes T with
  | Some cl => cl
  | None => Build_ObjectClass "" [] None [] ∅ None None
  end.

(** A null pointer variable at address 50. *)
Definition null_pointer : Memory :=
  {| cells := {[ 50 := VPtr 0 ]}; brk := 1000 |}.

(** A [Node] at address 100 whose [next] points to the node itself, and
    two nodes at 100 and 110 whose [next] both point to a third at 120. *)
Definition ring : Memory :=
  {| cells := {[ 100 := VInt 7; 101 := VPtr 100 ]}; brk := 1000 |}.

Definition fork : Memory :=
  {| cells := {[ 100 := VSeq [200; 201];
                 200 := VPtr 120; 201 := VPtr 120;
                 120 := VInt 3; 121 := VPtr 0 ]};
     brk := 1000 |}.

(** A [std::map<std::string,std::string>] at address 100 with the
    entries a -> "1" and b -> "2". *)
Definition two_entries : Memory :=
  {| cells := {[ 100 := VMap [("a", 200); ("b", 201)];
                 200 := VStr "1"; 201 := VStr "2" ]};
     brk := 1000 |}.

(** An engine with sharing enabled at the start of a write. *)
Definition sharing_writer (m : Memory) : JsonSerial :=
  setSharing true (reset "" 1 None (Some "") (engine m)).

(** An engine that reads from a stream. *)
Definition reading (input : string) (allow : Z) (m : Memory) : JsonSerial :=
  setSyntax allow
    (reset "" 1 (Some {| buf := input; eofbit := false; failbit := false |}) None
       (engine m)).

(** The stream written for the object of class [V] whose vector holds the
    string "]". *)
Definition bracket_document : string := lit "{$  'v': [$    ']'$  ]$}$$".

(** The state of the engine in scenario 5 when the line of the unknown
    member is about to be read. *)
Definition before_extra : JsonSerial :=
  reading (lit "'extra':'x','number':'1'}") Comments
    {| cells := {[ 100 := VStr "home"; 101 := VStr "" ]}; brk := 1000 |}.

End Scenario.

(** ** Definitions used to state the properties *)

(** A stream in good state over the bytes [s]. *)
Definition stream (s : string) : istream :=
  {| buf := s; eofbit := false; failbit := false |}.

(** The state in which [error(type, arg)] leaves the engine. *)
Definition raised (type : JsonError.Type_) (arg : string) (fatal : bool)
    (js : JsonSerial) : JsonSerial :=
  let where_ :=
    if non_null (in_ js) || bool_decide (type = JsonError.CantReadFile)
    then "read" else "write" in
  let e := JsonError.set type fatal where_ arg (streamname_ js) (lineno_ js) in
  set_reported (reported js ++ [e]) (set_jsonerror_ (Some e) js).

(** *** Bare tokens *)

(** A character that continues a bare token in every dialect: no
    separator, closing bracket, escape, comment start or control
    character. *)
Definition plain (c : ascii) : bool :=
  negb (ch_eq c ",") && negb (closing c) && negb (ch_eq c BSLASH)
  && negb (ch_eq c "/") && negb (iscntrl c).

(** A character that starts a bare token. *)
Definition starts_bare (c : ascii) : bool :=
  negb (isspace c) && negb (ch_eq c DQUOTE) && negb (opening c)
  && negb (ch_eq c "/") && negb (iscntrl c).

(** A character inside a quoted name, taken as it is. *)
Definition quotable (c : ascii) : bool :=
  negb (ch_eq c DQUOTE) && negb (ch_eq c BSLASH) && negb (iscntrl c).

Fixpoint all_plain (w : string) : bool :=
  match w with
  | EmptyString => true
  | String c r => plain c && all_plain r
  end.

Fixpoint all_quotable (w : string) : bool :=
  match w with
  | EmptyString => true
  | String c r => quotable c && all_quotable r
  end.

(** The bare value tokens that the strict dialect lets through. *)
Definition strict_bare_value (token : string) : bool :=
  empty token || ch_eq (front token) "}" || ch_eq (front token) "]"
  || String.eqb token "true" || String.eqb token "false"
  || String.eqb token "null" || isNumber token.

(** What the claim of the specification admits: a literal or a number. *)
Definition literal_or_number (token : string) : bool :=
  String.eqb token "true" || String.eqb token "false"
  || String.eqb token "null" || isNumber token.

(** *** The member walk *)

Section MemberWalk.

Variable writeValue : ty -> Z -> M unit.

(** What [writeMembers] does for one member of the object part at [obj]. *)
Definition emit_member (it : Member) (obj : Z) : M unit :=
  nc <- gets needcomma_ ;;
  (if nc then put ("," +:+ str1 LF) else ret tt) ;;;
  modify (set_needcomma_ false) ;;;
  (if isCustom it then modify (set_token1_ (name it))
   else writeTabs ;;; put (str1 DQUOTE +:+ name it +:+ str1 DQUOTE +:+ ": ")) ;;;
  Member_write writeValue it obj.

Fixpoint emit_members (l : list (Member * Z)) : M unit :=
  match l with
  | [] => ret tt
  | (it, obj) :: l => emit_member it obj ;;; emit_members l
  end.

End MemberWalk.

(** The members of a class in the order of the specification: the members
    of the superclasses, in the declared order of [extends], each at its
    upcast part of the object, then the own members. *)
Fixpoint all_members (cl : ObjectClass) (obj : Z) : list (Member * Z) :=
  (fix supers (l : list Superclass) : list (Member * Z) :=
     match l with
     | [] => []
     | it :: l => all_members (super_ it) (upcast_ it obj) ++ supers l
     end) (superclasses_ cl)
  ++ map (fun m => (m, obj)) (members_ cl).

Definition inherited_members (cl : ObjectClass) (obj : Z) : list (Member * Z) :=
  flat_map (fun it => all_members (super_ it) (upcast_ it obj)) (superclasses_ cl).

Definition own_members (cl : ObjectClass) (obj : Z) : list (Member * Z) :=
  map (fun m => (m, obj)) (members_ cl).

(** The member that answers to a name: the own member if the class has
    one, otherwise the answer of the first superclass, in the declared
    order, that has one, at the upcast part of the object. *)
Fixpoint find_member (cl : ObjectClass) (obj : Z) (n : string) : option (Member * Z) :=
  match getMember cl n with
  | Some mb => Some (mb, obj)
  | None =>
      (fix supers (l : list Superclass) : option (Member * Z) :=
         match l with
         | [] => None
         | it :: l =>
             match find_member (super_ it) (upcast_ it obj) n with
             | Some found => Some found
             | None => supers l
             end
         end) (superclasses_ cl)
  end.

(** The first answer of a list of attempts. *)
Fixpoint list_find_first {A B} (f : A -> option B) (l : list A) : option B :=
  match l with
  | [] => None
  | x :: l => match f x with Some y => Some y | None => list_find_first f l end
  end.

(** Induction on a class descriptor, with the superclasses as premises. *)
Fixpoint ObjectClass_supers_ind (P : ObjectClass -> Prop)
    (step : forall cl, Forall (fun it => P (super_ it)) (superclasses_ cl) -> P cl)
    (cl : ObjectClass) : P cl :=
  step cl
    ((fix supers (l : list Superclass) : Forall (fun it => P (super_ it)) l :=
        match l with
        | [] => @List.Forall_nil _ _
        | it :: l =>
            @List.Forall_cons _ _ it l (ObjectClass_supers_ind P step (super_ it)) (supers l)
        end) (superclasses_ cl)).

(** *** Creation of the object by the reader *)

(** The class that [readObject] pins when none was given: the class named
    by [@class] when the first name is [@class], the class of the pointer
    otherwise. *)
Definition pinned_class (classes : JsonClasses) (pointerclass : MetaClass)
    (name value : string) : option MetaClass :=
  if String.eqb name "@class"
  then match getClass_name classes value with
       | Some cl => Some (Object cl)
       | None => None
       end
  else Some pointerclass.

(** The outcome of the creation by the constructor thunk [f] for the
    pinned class [cl]. *)
Definition created_by (f : Creator) (cl : MetaClass) (continue : bool)
    (js : JsonSerial) : outcome (MetaClass * Z * bool) :=
  let js' := set_mem (snd (f (mem js))) js in
  if fst (f (mem js)) =? 0
  then Throw (raised JsonError.AbstractClass (classname cl) true js')
  else Ret (cl, fst (f (mem js)), continue) js'.

(** *** The table of shared objects *)

(** The identifiers in [object_to_id_] are those handed out so far: the
    counter is the number of entries (in [unsigned long]), and as long as
    that number fits, the identifiers are 1 .. n, one per object. *)
Definition table_inv (js : JsonSerial) : Prop :=
  current_object_id_ js = Z.of_nat (size (object_to_id_ js)) mod 2^64
  /\ (Z.of_nat (size (object_to_id_ js)) < 2^64 ->
      (forall a id, object_to_id_ js !! a = Some id ->
                    1 <= id <= Z.of_nat (size (object_to_id_ js)))
      /\ (forall a b id, object_to_id_ js !! a = Some id ->
                         object_to_id_ js !! b = Some id -> a = b)).

(** What a write may do to the table and to the stream: entries are
    added, never changed or removed, and bytes are appended. *)
Definition grows (js js' : JsonSerial) : Prop :=
  sharing_ js' = sharing_ js
  /\ (forall a id, object_to_id_ js !! a = Some id -> object_to_id_ js' !! a = Some id)
  /\ (table_inv js -> table_inv js')
  /\ (forall o, out_ js = Some o -> exists w, out_ js' = Some (o +:+ w)).

(** Classes without custom members (whose write functions are arbitrary
    user code acting on the engine). *)
Fixpoint no_custom (cl : ObjectClass) : bool :=
  forallb (fun m => negb (isCustom m)) (members_ cl)
  && (fix supers (l : list Superclass) : bool :=
        match l with
        | [] => true
        | it :: l => no_custom (super_ it) && supers l
        end) (superclasses_ cl).

Definition registry_no_custom (classes : JsonClasses) : bool :=
  forallb (fun e => no_custom (snd e)) (map_to_list (classindexes_ classes)).

Definition metaclass_no_custom (cl : MetaClass) : bool :=
  match cl with
  | Object cl => no_custom cl
  | MapClass _ => true
  end.

(** The lines that open an object when sharing is on. *)
Definition class_line (cl : MetaClass) : string :=
  str1 DQUOTE +:+ "@class" +:+ str1 DQUOTE +:+ ": " +:+ str1 DQUOTE
  +:+ classname cl +:+ str1 DQUOTE +:+ "," +:+ str1 LF.

Definition id_line (id : Z) : string :=
  str1 DQUOTE +:+ "@id" +:+ str1 DQUOTE +:+ ": " +:+ str1 DQUOTE
  +:+ pretty id +:+ str1 DQUOTE +:+ "," +:+ str1 LF.

(** The reference that stands for an object already written. *)
Definition reference (id : Z) : string :=
  str1 DQUOTE +:+ "@" +:+ pretty id +:+ str1 DQUOTE.

(** ** Containers *)

(** The types that are read from one token. *)
Definition is_scalar (t : ty) : bool :=
  match t with
  | TString | TCStr | TBool | TInt => true
  | _ => false
  end.

(** [v] is the value that the token [tok] denotes at the type [t]. *)
Definition parses_as (t : ty) (tok : string) (v : value) : Prop :=
  forall js, readScalar t tok js = Ret v js.

(** The elements of the array that the stream holds, as the tokenizer
    yields them, up to the closing bracket (or the end of the stream). *)
Fixpoint array_tokens (n : nat) (js : JsonSerial) : option (list string) :=
  match n with
  | O => None
  | S n =>
      match in_good js with
      | Ret true js =>
          match readLine false js with
          | Ret l js =>
              if negb (found1 l) then None
              else if String.eqb (token1 l) "]" then Some []
              else option_map (cons (token1 l)) (array_tokens n js)
          | _ => None
          end
      | Ret false _ => Some []
      | _ => None
      end
  end.

(** The state after the assignment of [v] to the cell at [a]. *)
Definition assigned (a : Z) (v : value) (js : JsonSerial) : JsonSerial :=
  set_mem {| cells := <[a := v]> (cells (mem js)); brk := brk (mem js) |} js.

(** [k] consecutive addresses from [a]. *)
Fixpoint fresh_from (a : Z) (k : nat) : list Z :=
  match k with
  | O => []
  | S k => a :: fresh_from (a + 1) k
  end.

(** What the read of an array of [toks] into the container at [cont]
    makes of the memory [m]: the container holds new elements, one per
    token and in their order, each with the value of its token, and the
    rest of the allocated memory is as before. *)
Definition holds_elements (t : ty) (cont : Z) (before : list Z) (toks : list string)
    (m m' : Memory) : Prop :=
  cells m' !! cont = Some (VSeq (before ++ fresh_from (brk m) (length toks)))
  /\ brk m' = brk m + Z.of_nat (length toks)
  /\ Forall2 (fun e tok => exists v, parses_as t tok v /\ cells m' !! e = Some v)
       (fresh_from (brk m) (length toks)) toks
  /\ (forall a, a < brk m -> a <> cont -> cells m' !! a = cells m !! a).

(** The members of the object that the stream holds, as the tokenizer
    yields them, up to the closing brace: the pairs of a name and a value
    token, the reserved member [@id] left out. *)
Fixpoint object_members (n : nat) (js : JsonSerial) : option (list (string * string)) :=
  match n with
  | O => None
  | S n =>
      match in_good js with
      | Ret true js =>
          match readLine true js with
          | Ret l js =>
              let name := token1 l in
              let value := token2 l in
              if negb (found1 l) then None
              else if negb (found2 l) && negb (String.eqb name "}") then None
              else if ch_eq (front name) "@" && negb (String.eqb name "@class")
                      && negb (String.eqb name "@id") then None
              else if String.eqb name "}" then Some []
              else if String.eqb name "@id" then
                match stoul value js with
                | Ret _ _ => object_members n js
                | _ => None
                end
              else option_map (cons (name, value)) (object_members n js)
          | _ => None
          end
      | _ => None
      end
  end.

(** The value token of the last member named [k]. *)
Fixpoint last_value (k : string) (members : list (string * string)) : option string :=
  match members with
  | [] => None
  | (k', value) :: rest =>
      match last_value k rest with
      | Some x => Some x
      | None => if String.eqb k' k then Some value else None
      end
  end.

(** A map object at [a] in the memory [m]: the mapped values are
    allocated, apart from one another and from the map. *)
Definition map_wf (a : Z) (entries : list (string * Z)) (m : Memory) : Prop :=
  (forall k p, map_find k entries = Some p -> p < brk m /\ p <> a)
  /\ (forall k k' p, map_find k entries = Some p -> map_find k' entries = Some p -> k = k').

(** What the read of the member [key] with the value [val] makes of the
    map at [a]. *)
Definition reads_entry (E : ty) (a : Z) (key val : string)
    (entries entries1 : list (string * Z)) (m m1 : Memory) : Prop :=
  cells m1 !! a = Some (VMap entries1) /\ brk m <= brk m1 /\ map_wf a entries1 m1
  /\ exists p v,
       map_find key entries1 = Some p /\ parses_as E val v /\ cells m1 !! p = Some v
       /\ (map_find key entries = Some p \/ (map_find key entries = None /\ p = brk m))
       /\ (forall k, k <> key -> map_find k entries1 = map_find k entries)
       /\ (forall b, b < brk m -> b <> a -> b <> p -> cells m1 !! b = cells m !! b).

(** What the read of the members [members] makes of the map at [a] with
    the entries [entries]: the entries are kept, with their mapped values
    at the same place; an entry of the map after the read is named in the
    document, and then holds the value of the last member of that name,
    or is an entry that was there; every name of the document has an
    entry; whatever is allocated and is neither the map nor the mapped
    value of a name of the document is as before. *)
Definition holds_entries (E : ty) (a : Z) (members : list (string * string))
    (entries : list (string * Z)) (m m' : Memory) : Prop :=
  exists entries',
    cells m' !! a = Some (VMap entries') /\ brk m <= brk m' /\ map_wf a entries' m'
    /\ (forall k p, map_find k entries = Some p -> map_find k entries' = Some p)
    /\ (forall k p, map_find k entries' = Some p ->
          match last_value k members with
          | Some value => exists v, parses_as E value v /\ cells m' !! p = Some v
          | None => map_find k entries = Some p
          end)
    /\ (forall k value, last_value k members = Some value ->
          exists p, map_find k entries' = Some p)
    /\ (forall b, b < brk m -> b <> a ->
          (forall k, map_find k entries = Some b -> last_value k members = None) ->
          cells m' !! b = cells m !! b).

(** ** Invariants of the writer *)

(** A call [preserves] the table when every state it ends in has grown
    from the state it started in. *)
Definition grown_from {A} (js : JsonSerial) (o : outcome A) : Prop :=
  match o with
  | Ret _ js' | Throw js' | StdThrow _ js' => grows js js'
  | _ => True
  end.

Definition preserves {A} (m : M A) : Prop := forall js, grown_from js (m js).

(** A step that appends [w] to the stream and leaves the table, the
    counter and the sharing mode as they are. *)
Definition emits (js js' : JsonSerial) (w : string) : Prop :=
  (forall o, out_ js = Some o -> out_ js' = Some (o +:+ w))
  /\ object_to_id_ js' = object_to_id_ js
  /\ current_object_id_ js' = current_object_id_ js
  /\ sharing_ js' = sharing_ js.

(** ** Independence of the tokenizer *)

(** The outcome of a call, with the final state changed by [f]. *)
Definition map_state {A} (f : JsonSerial -> JsonSerial) (o : outcome A) : outcome A :=
  match o with
  | Ret a js => Ret a (f js)
  | Throw js => Throw (f js)
  | StdThrow e js => StdThrow e (f js)
  | Undefined => Undefined
  | OutOfFuel => OutOfFuel
  end.

(** The parts of the state that the tokenizer has no use for: the
    program memory and the table of the objects read so far. *)
Inductive outside :=
| Mem (g : Memory)
| Ids (i : gmap Z Z).

Definition put_outside (u : outside) (js : JsonSerial) : JsonSerial :=
  match u with
  | Mem g => set_mem g js
  | Ids i => set_id_to_object_ i js
  end.

(** A call that neither reads nor writes these parts runs alike whatever
    they hold. *)
Definition mem_free {A} (m : M A) : Prop :=
  forall u js, m (put_outside u js) = map_state (put_outside u) (m js).


(** ** Further definitions used to state properties *)

(** *** Strings *)

(** A character of a string that [writeString] writes so that the
    tokenizer takes it: it is escaped, or it is no control character. *)
Definition writable (c : ascii) : bool :=
  negb (iscntrl c) || ch_eq c BS || ch_eq c FF || ch_eq c LF || ch_eq c CR || ch_eq c TAB.

Fixpoint all_writable (s : string) : bool :=
  match s with
  | EmptyString => true
  | String c r => writable c && all_writable r
  end.

(** *** Numbers *)

Fixpoint all_digits (s : string) : bool :=
  match s with
  | EmptyString => true
  | String c r => isdigit c && all_digits r
  end.

(** A token that [stoi] and [stoul] take for no number: it is empty or
    starts with a character that is no digit, sign or white space. *)
Definition starts_no_number (s : string) : bool :=
  match s with
  | EmptyString => true
  | String c _ =>
      negb (isdigit c) && negb (isspace c) && negb (ch_eq c "-") && negb (ch_eq c "+")
  end.

(** *** Layout *)

Fixpoint all_space (w : string) : bool :=
  match w with
  | EmptyString => true
  | String c r => isspace c && all_space r
  end.

(** The line number after the bytes [w], counted in [size_t]. *)
Fixpoint lines_after (w : string) (line : Z) : Z :=
  match w with
  | EmptyString => line
  | String c r => lines_after r (if ch_eq c LF then (line + 1) mod 2^64 else line)
  end.

(** The text of a line comment: no newline, and no control character
    other than white space. *)
Definition comment_char (c : ascii) : bool :=
  negb (ch_eq c LF) && negb (iscntrl c && negb (isspace c)).

Fixpoint all_comment (w : string) : bool :=
  match w with
  | EmptyString => true
  | String c r => comment_char c && all_comment r
  end.

(** The stream at its end, after a [get] that failed. *)
Definition at_eof : istream := {| buf := ""; eofbit := true; failbit := true |}.

(** *** Bare tokens *)

(** The characters of the tokens that [isNumber] accepts. *)
Definition number_char (c : ascii) : bool :=
  isdigit c || ch_eq c "." || ch_eq c "e" || ch_eq c "E" || ch_eq c "+" || ch_eq c "-".

Fixpoint all_number_chars (s : string) : bool :=
  match s with
  | EmptyString => true
  | String c r => number_char c && all_number_chars r
  end.

(** How many characters of [s] satisfy [p]. *)
Fixpoint count_chars (p : ascii -> bool) (s : string) : nat :=
  match s with
  | EmptyString => O
  | String c r => ((if p c then 1 else 0) + count_chars p r)%nat
  end.

(** *** The registry *)

(** The registries that a program builds: from the empty one, by calls of
    [defclass], [member] and [extends]. *)
Inductive built : JsonClasses -> Prop :=
| built_empty : built no_classes
| built_defclass T n cr c : built c -> built (defclass T n cr c)
| built_member T m c : built c -> built (addMember T m c)
| built_extends T S up c : built c -> built (extends T S up c).

(** The list of the members of a class (used to write) and the map from
    their names (used to read) hold the same members, and no name twice. *)
Definition well_formed_class (cl : ObjectClass) : Prop :=
  (forall n m, getMember cl n = Some m <-> In m (members_ cl) /\ name m = n)
  /\ List.NoDup (map name (members_ cl)).

(** *** Indentation *)

(** The indentation buffer is long enough for the current level: it is
    made of the tabulation character, and longer than [level_*indent_]. *)
Definition tabs_ok (js : JsonSerial) : Prop :=
  0 <= level_ js /\ 0 <= indent_ js <= 20
  /\ level_ js * indent_ js < 2^32
  /\ level_ js * indent_ js < Z.of_nat (String.length (tabs_ js))
  /\ tabs_ js = fill (String.length (tabs_ js)) (tabchar_ js).

(** [k] calls of [addTab]. *)
Fixpoint addTabs (k : nat) : M unit :=
  match k with
  | O => ret tt
  | S k => addTab ;;; addTabs k
  end.

(** *** Errors *)

(** What a call may do to the record of the errors: errors are added to
    [reported], none is dropped; [jsonerror_] is left as it was when
    nothing was reported, and is set when something was. *)
Definition errors_kept (js js' : JsonSerial) : Prop :=
  exists more,
    reported js' = reported js ++ more
    /\ match more with
       | [] => jsonerror_ js' = jsonerror_ js
       | _ :: _ => jsonerror_ js' <> None
       end.

Definition errors_tracked {A} (js : JsonSerial) (o : outcome A) : Prop :=
  match o with
  | Ret _ js' | StdThrow _ js' => errors_kept js js'
  | Throw js' => errors_kept js js' /\ jsonerror_ js' <> None
  | _ => True
  end.

(** A call that keeps the record of the errors, and throws a [JsonError]
    only with [jsonerror_] set. *)
Definition tracks {A} (m : M A) : Prop := forall js, errors_tracked js (m js).

(** Classes whose members are read by the engine itself: none of the
    members a name is looked up in is a custom member (whose read function
    is arbitrary user code acting on the engine). *)
Fixpoint plain_members (cl : ObjectClass) : bool :=
  forallb (fun e => negb (isCustom (snd e))) (map_to_list (membermap_ cl))
  && (fix supers (l : list Superclass) : bool :=
        match l with
        | [] => true
        | it :: l => plain_members (super_ it) && supers l
        end) (superclasses_ cl).

Definition plain_metaclass (cl : MetaClass) : bool :=
  match cl with
  | Object cl => plain_members cl
  | MapClass _ => true
  end.

Definition plain_registry (classes : JsonClasses) : bool :=
  forallb (fun e => plain_members (snd e)) (map_to_list (classindexes_ classes))
  && forallb (fun e => plain_members (snd e)) (map_to_list (classnames_ classes)).

(** *** What the writer leaves alone *)

(** A call that leaves the memory of the program as it was, however it
    ends. *)
Definition keeps_mem {A} (m : M A) : Prop :=
  forall js,
    match m js with
    | Ret _ js' | Throw js' | StdThrow _ js' => mem js' = mem js
    | _ => True
    end.

(** Registries whose classes have no [postwrite] function. *)
Definition no_postwrite (classes : JsonClasses) : bool :=
  forallb (fun e => negb (non_null (postwrite_ (snd e))))
    (map_to_list (classindexes_ classes)).

(** *** Objects with string members *)

(** The line of a member with a string value, as the writer writes it
    after the indentation, followed by [tail]. *)
Definition member_line (name s tail : string) : string :=
  String DQUOTE (name +:+ String DQUOTE (String ":" (String " "
    (String DQUOTE (escape s +:+ String DQUOTE tail))))).

(** An object of the class [P] of the scenarios at address 100, with the
    members [type] and [number] given, and what [write] writes for it with
    the indentation of a new engine (two spaces). *)
Definition P_object (s1 s2 : string) : Memory :=
  {| cells := {[ 100 := VStr s1; 101 := VStr s2 ]}; brk := 1000 |}.

Definition P_document (s1 s2 : string) : string :=
  String "{" (String LF ("  " +:+ member_line "type" s1
    (String "," (String LF ("  " +:+ member_line "number" s2
       (String LF (String "}" (String LF (String LF ""))))))))).

(** *** The loop of the tokenizer *)

(** The results of one turn after which the loop of [readLine] is left. *)
Definition leaves_loop (r : turn) : bool :=
  match r with Return _ => true | Continue _ _ _ => false end.

Definition never {A} (a : A) : bool := false.

(** A call that puts nothing back on the stream, unless its result is one
    of [free], and that needs no turn of a loop of its own. *)
Definition bounded {A} (free : A -> bool) (m : M A) : Prop :=
  forall js,
    match m js with
    | Ret a js' => free a = true \/ (remaining js' <= remaining js)%nat
    | OutOfFuel => False
    | _ => True
    end.

(** A string that does not start with a decimal digit. *)
Definition starts_no_digit (s : string) : bool :=
  match s with
  | EmptyString => true
  | String c _ => negb (isdigit c)
  end.

(** * Properties *)

(** ** Reasoning about engine calls *)

Lemma bind_Ret {A B} (m : M A) (k : A -> M B) js a js' :
  m js = Ret a js' -> bind m k js = k a js'.
Proof. intros H. unfold bind. by rewrite H. Qed.

Lemma bind_assoc {A B C} (m : M A) (f : A -> M B) (g : B -> M C) js :
  bind (bind m f) g js = bind m (fun x => bind (f x) g) js.
Proof. unfold bind. destruct (m js); reflexivity. Qed.

Lemma bind_ext {A B} (m : M A) (f g : A -> M B) js :
  (forall a js', f a js' = g a js') -> bind m f js = bind m g js.
Proof. intros H. unfold bind. destruct (m js); auto. Qed.

Lemma bind_cong {A B} (m m' : M A) (f g : A -> M B) js :
  (forall js, m js = m' js) -> (forall a js', f a js' = g a js') ->
  bind m f js = bind m' g js.
Proof. intros Hm H. unfold bind. rewrite Hm. destruct (m' js); auto. Qed.

(** Evaluation of the calls whose result is determined by the fields of
    the state. *)
Ltac mcbn :=
  cbn [bind ret gets modify undefined std_throw
       in_get in_peek in_putback in_good with_in peek_is
       stream_get stream_peek stream_putback good stream
       buf eofbit failbit
       in_ out_ allow_ needcomma_ in_multiquotes_ sharing_ lineno_ indent_ level_
       tabchar_ streamname_ tabs_ token1_ token2_ current_object_id_ object_to_id_
       id_to_object_ jsonerror_ reported mem
       set_in_ set_out_ set_allow_ set_needcomma_ set_in_multiquotes_ set_sharing_
       set_lineno_ set_indent_ set_level_ set_tabchar_ set_streamname_ set_tabs_
       set_token1_ set_token2_ set_current_object_id_ set_object_to_id_
       set_id_to_object_ set_jsonerror_ set_reported set_mem
       token1 token2 found1 found2 set_token1 set_token2 set_found1 set_found2
       negb andb orb fst snd].

Ltac mrun := repeat (progress (unfold bind; mcbn)).

Lemma append_assoc_1 acc c w : (acc +:+ str1 c) +:+ w = acc +:+ String c w.
Proof.
  induction acc as [|a acc IH]; [reflexivity|].
  change (String a ((acc +:+ str1 c) +:+ w) = String a (acc +:+ String c w)).
  by rewrite IH.
Qed.

Lemma append_nil_r s : s +:+ "" = s.
Proof.
  induction s as [|a s IH]; [reflexivity|].
  change (String a (s +:+ "") = String a s). by rewrite IH.
Qed.

Lemma length_append s t :
  String.length (s +:+ t) = (String.length s + String.length t)%nat.
Proof.
  induction s as [|a s IH]; [reflexivity|].
  change (S (String.length (s +:+ t)) = S (String.length s + String.length t)).
  by rewrite IH.
Qed.

(** ** The tokenizer on bare tokens *)

Lemma cntrl_not_LF c : iscntrl c = false -> ch_eq c LF = false.
Proof.
  intros H. destruct (ch_eq c LF) eqn:E; [|done].
  apply Ascii.eqb_eq in E. subst c. discriminate H.
Qed.

Lemma plain_inv c : plain c = true ->
  ch_eq c "," = false /\ closing c = false /\ ch_eq c BSLASH = false
  /\ ch_eq c "/" = false /\ iscntrl c = false.
Proof. unfold plain. rewrite !andb_true_iff, !negb_true_iff. tauto. Qed.

Lemma starts_bare_inv c : starts_bare c = true ->
  isspace c = false /\ ch_eq c DQUOTE = false /\ opening c = false
  /\ ch_eq c "/" = false /\ iscntrl c = false.
Proof. unfold starts_bare. rewrite !andb_true_iff, !negb_true_iff. tauto. Qed.

Lemma quotable_inv c : quotable c = true ->
  ch_eq c DQUOTE = false /\ ch_eq c BSLASH = false /\ iscntrl c = false.
Proof. unfold quotable. rewrite !andb_true_iff, !negb_true_iff. tauto. Qed.

Lemma readLine_loop_S fuel inObj part lastPart l :
  readLine_loop (S fuel) inObj part lastPart l =
  (c <- in_get ;;
   match c with
   | None =>
       t <- gets token1_ ;;
       if negb (empty t) then
         t <- checkValue t inObj ;; ret (set_token1 t l)
       else ret l
   | Some c =>
       b <- before_switch part lastPart c ;;
       let '(part, lastPart, c) := b in
       r <- switch_part inObj part lastPart c l ;;
       match r with
       | Return l => ret l
       | Continue part lastPart l => readLine_loop fuel inObj part lastPart l
       end
   end).
Proof. reflexivity. Qed.

Lemma in_get_cons js c r :
  in_ js = Some (stream (String c r)) ->
  in_get js = Ret (Some c) (set_in_ (Some (stream r)) js).
Proof. intros H. unfold in_get, with_in. by rewrite H. Qed.

(** Outside quotes, a character that is neither a control character nor
    a slash passes the tests before the [switch] unchanged. *)
Lemma before_switch_plain part lp c js :
  iscntrl c = false -> ch_eq c "/" = false ->
  before_switch part lp c js = Ret (part, lp, c) js.
Proof.
  intros Hc Hs. unfold before_switch.
  rewrite (cntrl_not_LF _ Hc), Hc, Hs. simpl.
  unfold bind, gets, ret. rewrite !andb_false_r.
  destruct (allows js Comments && _ && _); reflexivity.
Qed.

Lemma before_switch_in_quotes1 lp c js :
  iscntrl c = false ->
  before_switch InQuotedToken1 lp c js = Ret (InQuotedToken1, lp, c) js.
Proof.
  intros Hc. unfold before_switch.
  rewrite (cntrl_not_LF _ Hc), Hc. mrun. rewrite andb_false_r. reflexivity.
Qed.

Lemma in_quotes_invalid_no c js :
  iscntrl c = false -> in_quotes_invalid c js = Ret false js.
Proof. intros H. unfold in_quotes_invalid. mrun. by rewrite H. Qed.

Lemma separator_plain c js :
  ch_eq c "," = false -> iscntrl c = false -> separator c js = Ret false js.
Proof.
  intros H1 H2. unfold separator, bind, gets, ret.
  rewrite H1, (cntrl_not_LF _ H2), andb_false_r. reflexivity.
Qed.

Lemma separator_comma js : separator "," js = Ret true js.
Proof. reflexivity. Qed.

(** [checkValue] on a value token: the token is trimmed, and let through
    under NoQuotes or when it is one of the strict bare values. *)
Lemma checkValue_value token js :
  checkValue token false js =
    if allows js NoQuotes || strict_bare_value (trimRight token)
    then Ret (trimRight token) js
    else Throw (raised JsonError.InvalidValue
                  (trimRight token +:+ " (should be quoted?)") true js).
Proof.
  unfold checkValue, strict_bare_value, bind, gets, ret.
  rewrite !orb_assoc.
  destruct (allows js NoQuotes || _ || _ || _ || _ || _ || _ || _ ) eqn:E; reflexivity.
Qed.

(** The loop in [InUnquotedToken1], for an array element: plain
    characters are collected up to the comma. *)
Lemma unquoted1_loop w : forall acc fuel lp l js rest,
  (String.length w < fuel)%nat ->
  in_ js = Some (stream (w +:+ String "," rest)) ->
  token1_ js = acc ->
  all_plain w = true ->
  readLine_loop fuel false InUnquotedToken1 lp l js
  = (t <- checkValue (acc +:+ w) false ;; ret (set_token1 t l))
      (set_token1_ (acc +:+ w) (set_in_ (Some (stream rest)) js)).
Proof.
  induction w as [|c w IH]; intros acc fuel lp l js rest Hf Hin Ht Hp; subst acc.
  - destruct fuel as [|fuel]; [simpl in Hf; lia|].
    rewrite append_nil_r.
    change ("" +:+ String "," rest) with (String "," rest) in Hin.
    rewrite readLine_loop_S. mrun. rewrite (in_get_cons _ _ _ Hin).
    rewrite before_switch_plain by reflexivity.
    cbn [switch_part]. mrun. rewrite separator_comma. mrun.
    rewrite !checkValue_value.
    destruct js; mcbn.
    destruct (allows _ NoQuotes || _); reflexivity.
  - destruct fuel as [|fuel]; [simpl in Hf; lia|].
    simpl in Hp. apply andb_true_iff in Hp as [Hc Hp].
    apply plain_inv in Hc as (H1 & H2 & H3 & H4 & H5).
    change (String c w +:+ String "," rest) with (String c (w +:+ String "," rest)) in Hin.
    rewrite readLine_loop_S. mrun. rewrite (in_get_cons _ _ _ Hin).
    rewrite before_switch_plain by assumption.
    cbn [switch_part]. mrun. rewrite separator_plain by assumption.
    rewrite H2, H3, andb_false_r. mrun.
    erewrite IH; [|simpl in Hf; lia|reflexivity|reflexivity|assumption].
    mrun. unfold push_back. rewrite append_assoc_1. destruct js; reflexivity.
Qed.

(** The same loop in [InUnquotedToken2], for the value of a member. *)
Lemma unquoted2_loop w : forall acc fuel inObj lp l js rest,
  (String.length w < fuel)%nat ->
  in_ js = Some (stream (w +:+ String "," rest)) ->
  token2_ js = acc ->
  all_plain w = true ->
  readLine_loop fuel inObj InUnquotedToken2 lp l js
  = (t <- checkValue (acc +:+ w) false ;; ret (set_token2 t l))
      (set_token2_ (acc +:+ w) (set_in_ (Some (stream rest)) js)).
Proof.
  induction w as [|c w IH]; intros acc fuel inObj lp l js rest Hf Hin Ht Hp; subst acc.
  - destruct fuel as [|fuel]; [simpl in Hf; lia|].
    rewrite append_nil_r.
    change ("" +:+ String "," rest) with (String "," rest) in Hin.
    rewrite readLine_loop_S. mrun. rewrite (in_get_cons _ _ _ Hin).
    rewrite before_switch_plain by reflexivity.
    cbn [switch_part]. mrun. rewrite separator_comma. mrun.
    rewrite !checkValue_value.
    destruct js; mcbn.
    destruct (allows _ NoQuotes || _); reflexivity.
  - destruct fuel as [|fuel]; [simpl in Hf; lia|].
    simpl in Hp. apply andb_true_iff in Hp as [Hc Hp].
    apply plain_inv in Hc as (H1 & H2 & H3 & H4 & H5).
    change (String c w +:+ String "," rest) with (String c (w +:+ String "," rest)) in Hin.
    rewrite readLine_loop_S. mrun. rewrite (in_get_cons _ _ _ Hin).
    rewrite before_switch_plain by assumption.
    cbn [switch_part]. mrun. rewrite separator_plain by assumption.
    rewrite H2, H3. mrun.
    erewrite IH; [|simpl in Hf; lia|reflexivity|reflexivity|assumption].
    mrun. unfold push_back. rewrite append_assoc_1. destruct js; reflexivity.
Qed.

(** The loop in [InQuotedToken1]: the characters of a name are collected
    up to the closing quote. *)
Lemma quoted1_loop name : forall acc fuel inObj lp l js rest,
  in_ js = Some (stream (name +:+ String DQUOTE rest)) ->
  token1_ js = acc ->
  all_quotable name = true ->
  readLine_loop (String.length name + 1 + fuel) inObj InQuotedToken1 lp l js
  = readLine_loop fuel inObj AfterToken1 lp (set_token1 (acc +:+ name) l)
      (set_token1_ (acc +:+ name) (set_in_ (Some (stream rest)) js)).
Proof.
  induction name as [|c w IH]; intros acc fuel inObj lp l js rest Hin Ht Hp; subst acc.
  - change ("" +:+ String DQUOTE rest) with (String DQUOTE rest) in Hin.
    rewrite append_nil_r.
    cbn [String.length Nat.add]. rewrite readLine_loop_S. mrun.
    rewrite (in_get_cons _ _ _ Hin).
    rewrite before_switch_in_quotes1 by reflexivity.
    cbn [switch_part]. mrun.
    change (ch_eq DQUOTE DQUOTE) with true. mrun.
    destruct js; reflexivity.
  - simpl in Hp. apply andb_true_iff in Hp as [Hc Hp].
    apply quotable_inv in Hc as (H1 & H2 & H3).
    change (String c w +:+ String DQUOTE rest)
      with (String c (w +:+ String DQUOTE rest)) in Hin.
    cbn [String.length Nat.add]. rewrite readLine_loop_S. mrun.
    rewrite (in_get_cons _ _ _ Hin).
    rewrite before_switch_in_quotes1 by assumption.
    cbn [switch_part]. rewrite H1, H2. mrun.
    rewrite in_quotes_invalid_no by assumption. mrun.
    erewrite IH; [|reflexivity|reflexivity|assumption].
    mrun. unfold push_back. rewrite append_assoc_1. destruct js; reflexivity.
Qed.

(** A bare element of an array, up to the comma that follows it. *)
Lemma bare_array_element js c w rest :
  in_ js = Some (stream (String c w +:+ String "," rest)) ->
  starts_bare c = true ->
  all_plain w = true ->
  let tok := trimRight (String c w) in
  let js1 := set_token1_ (String c w) (set_token2_ "" (set_in_ (Some (stream rest)) js)) in
  readLine false js =
    if allows js NoQuotes || strict_bare_value tok
    then Ret {| token1 := tok; token2 := ""; found1 := true; found2 := false |} js1
    else Throw (raised JsonError.InvalidValue (tok +:+ " (should be quoted?)") true js1).
Proof.
  intros Hin Hc Hw tok js1.
  apply starts_bare_inv in Hc as (H1 & H2 & H3 & H4 & H5).
  change (String c w +:+ String "," rest) with (String c (w +:+ String "," rest)) in Hin.
  unfold readLine. mrun. unfold remaining. rewrite Hin.
  cbn [buf stream String.length]. rewrite readLine_loop_S. mrun.
  rewrite (in_get_cons _ c (w +:+ String "," rest)) by (mcbn; exact Hin).
  rewrite before_switch_plain by assumption.
  cbn [switch_part]. rewrite H2, H3, H1. mrun.
  erewrite unquoted1_loop;
    [| | mcbn; reflexivity | reflexivity | assumption].
  2:{ rewrite length_append. simpl. lia. }
  mrun. rewrite checkValue_value.
  subst tok js1. destruct js; mcbn.
  destruct (allows _ NoQuotes || _); reflexivity.
Qed.

(** A bare value of a member with a quoted name, up to the comma that
    follows it. *)
Lemma bare_member_value js name c w rest :
  in_ js = Some (stream (String DQUOTE (name +:+ String DQUOTE
                   (String ":" (String c w +:+ String "," rest))))) ->
  all_quotable name = true ->
  starts_bare c = true ->
  all_plain w = true ->
  let tok := trimRight (String c w) in
  let js1 := set_token1_ name (set_token2_ (String c w) (set_in_ (Some (stream rest)) js)) in
  readLine true js =
    if allows js NoQuotes || strict_bare_value tok
    then Ret {| token1 := name; token2 := tok; found1 := true; found2 := true |} js1
    else Throw (raised JsonError.InvalidValue (tok +:+ " (should be quoted?)") true js1).
Proof.
  intros Hin Hn Hc Hw tok js1.
  apply starts_bare_inv in Hc as (H1 & H2 & H3 & H4 & H5).
  unfold readLine. mrun. unfold remaining. rewrite Hin.
  cbn [buf stream String.length]. rewrite readLine_loop_S. mrun.
  rewrite (in_get_cons _ DQUOTE _) by (mcbn; exact Hin).
  rewrite before_switch_plain by reflexivity.
  cbn [switch_part]. change (ch_eq DQUOTE DQUOTE) with true. mrun.
  rewrite length_append. cbn [String.length].
  replace (S (String.length name + S (S (String.length (String c w +:+ String "," rest)))))%nat
    with (String.length name + 1 + S (S (String.length (String c w +:+ String "," rest))))%nat
    by lia.
  erewrite quoted1_loop; [|mcbn; reflexivity|reflexivity|assumption].
  mrun. rewrite readLine_loop_S. mrun.
  rewrite before_switch_plain by reflexivity.
  cbn [switch_part]. mrun. rewrite separator_plain by reflexivity.
  change (closing ":") with false. change (ch_eq ":" ":" && true) with true. mrun.
  change (String c w +:+ String "," rest) with (String c (w +:+ String "," rest)).
  cbn [String.length]. rewrite readLine_loop_S. mrun.
  rewrite before_switch_plain by assumption.
  cbn [switch_part]. rewrite H2, H3, H1. mrun.
  erewrite unquoted2_loop; [| | mcbn; reflexivity | reflexivity | assumption].
  2:{ rewrite length_append. simpl. lia. }
  mrun. rewrite checkValue_value.
  subst tok js1. destruct js; mcbn.
  destruct (allows _ NoQuotes || _); reflexivity.
Qed.


(** ** The member walk *)

Section Walk.

Variable writeValue : ty -> Z -> M unit.
Variable readValue : ty -> Z -> string -> M unit.
Variable readPointee readArray : ty -> Z -> option Creator -> string -> M unit.

Lemma all_members_eq cl obj :
  all_members cl obj = inherited_members cl obj ++ own_members cl obj.
Proof. destruct cl. reflexivity. Qed.

Lemma emit_members_app l1 l2 js :
  emit_members writeValue (l1 ++ l2) js
  = (emit_members writeValue l1 ;;; emit_members writeValue l2) js.
Proof.
  revert js. induction l1 as [|[it obj] l1 IH]; intros js; [reflexivity|].
  cbn [emit_members app]. rewrite bind_assoc. apply bind_ext. intros _ js'. apply IH.
Qed.

Lemma write_own_members_emit ms obj js :
  write_own_members writeValue ms obj js
  = emit_members writeValue (map (fun m => (m, obj)) ms) js.
Proof.
  revert js. induction ms as [|it ms IH]; intros js; [reflexivity|].
  cbn [write_own_members map emit_members]. unfold emit_member.
  rewrite !bind_assoc. apply bind_ext. intros nc js1.
  rewrite !bind_assoc. apply bind_ext. intros _ js2.
  rewrite !bind_assoc. apply bind_ext. intros _ js3.
  rewrite !bind_assoc. apply bind_ext. intros _ js4.
  apply bind_ext. intros _ js5. apply IH.
Qed.

Lemma writeMembers_order cl : forall obj js,
  ObjectClass_writeMembers writeValue cl obj js
  = emit_members writeValue (all_members cl obj) js.
Proof.
  induction cl as [cl IH] using ObjectClass_supers_ind. intros obj js.
  destruct cl as [n sups cr ms mm pr pw]. cbn [superclasses_] in IH.
  cbn [ObjectClass_writeMembers all_members superclasses_ members_].
  rewrite emit_members_app. apply bind_cong; [|intros; apply write_own_members_emit].
  clear -IH. induction sups as [|it sups IHs]; intros js'; [reflexivity|].
  inversion IH as [|? ? Hit Hs]; subst.
  rewrite emit_members_app. apply bind_cong; [apply Hit|]. intros _. apply IHs, Hs.
Qed.

Lemma readMember_order cl : forall obj n val js,
  ObjectClass_readMember readValue readPointee readArray cl obj n val js =
  match find_member cl obj n with
  | Some (mb, part) =>
      (Member_read readValue readPointee readArray mb part val ;;; ret true) js
  | None => Ret false js
  end.
Proof.
  induction cl as [cl IH] using ObjectClass_supers_ind. intros obj n val js.
  destruct cl as [cn sups cr ms mm pr pw]. cbn [superclasses_] in IH.
  cbn [ObjectClass_readMember find_member superclasses_].
  destruct (getMember _ n) as [mb|]; [reflexivity|].
  revert js. induction sups as [|it sups IHs]; intros js; [reflexivity|].
  inversion IH as [|? ? Hit Hs]; subst.
  unfold bind at 1. rewrite Hit.
  destruct (find_member (super_ it) (upcast_ it obj) n) as [[mb part]|].
  - unfold bind.
    destruct (Member_read readValue readPointee readArray mb part val js); reflexivity.
  - apply IHs, Hs.
Qed.

(** The search of [find_member] in the words of the specification. *)
Lemma find_member_own cl obj n mb :
  getMember cl n = Some mb -> find_member cl obj n = Some (mb, obj).
Proof. intros H. destruct cl. cbn [find_member]. by rewrite H. Qed.

Lemma find_member_supers cl obj n :
  getMember cl n = None ->
  find_member cl obj n =
  list_find_first (fun it => find_member (super_ it) (upcast_ it obj) n) (superclasses_ cl).
Proof.
  intros H. destruct cl as [cn sups cr ms mm pr pw]. cbn [find_member superclasses_].
  rewrite H. clear H. induction sups as [|it sups IH]; [reflexivity|].
  cbn [list_find_first]. destruct (find_member _ _ n); [reflexivity|exact IH].
Qed.

(** C5. The declared order of the superclasses governs both directions.
    Writing the members of an object emits the members inherited from the
    superclasses, taken recursively in the declared order of [extends] and
    each at its upcast part of the object, before the own members of the
    class. Reading a member looks the name up among the own members of
    the class first; only when it is absent there, the superclasses are
    tried in the declared order, each on its upcast part of the object,
    and the first that has the member reads it. *)
Theorem member_walk_order (cl : ObjectClass) (obj : Z) :
  (forall js,
     ObjectClass_writeMembers writeValue cl obj js
     = emit_members writeValue (inherited_members cl obj ++ own_members cl obj) js)
  /\ (forall n val js,
        ObjectClass_readMember readValue readPointee readArray cl obj n val js =
        match find_member cl obj n with
        | Some (mb, part) =>
            (Member_read readValue readPointee readArray mb part val ;;; ret true) js
        | None => Ret false js
        end)
  /\ (forall n mb, getMember cl n = Some mb -> find_member cl obj n = Some (mb, obj))
  /\ (forall n, getMember cl n = None ->
        find_member cl obj n =
        list_find_first (fun it => find_member (super_ it) (upcast_ it obj) n)
          (superclasses_ cl)).
Proof.
  split; [|split; [|split]].
  - intros js. rewrite <- all_members_eq. apply writeMembers_order.
  - apply readMember_order.
  - apply find_member_own.
  - apply find_member_supers.
Qed.

End Walk.

(** ** The reader: creation of objects, unknown members *)

Section ReaderSteps.

Variable classes_ : JsonClasses.
Variable typeinfo : string -> TypeInfo.
Variable readValue : ty -> Z -> string -> M unit.
Variable readPointee readArray : ty -> Z -> option Creator -> string -> M unit.

Lemma run_creator_eq f js :
  run_creator f js = Ret (fst (f (mem js))) (set_mem (snd (f (mem js))) js).
Proof. unfold run_creator. destruct (f (mem js)). reflexivity. Qed.

(** C6, as amended. When no class was given and the target object is not
    materialized, the class is pinned (the class named by [@class], or
    the class of the pointer) and a constructor thunk is invoked: the one
    supplied by the caller if there is one, the default constructor of
    the pinned class otherwise. If there is neither, the fatal error
    AbstractClass is raised with the name of the class; if the invoked
    thunk returns null, the same error AbstractClass is raised, and no
    other. *)
Theorem object_creation (pointerclass : MetaClass) (cr : option Creator)
    (name value : string) (cl : ObjectClass) (js : JsonSerial) :
  pinned_class classes_ pointerclass name value = Some (Object cl) ->
  pin_class classes_ typeinfo None pointerclass cr 0 name value js =
  match cr, creator_ cl with
  | Some f, _ => created_by f (Object cl) (String.eqb name "@class") js
  | None, Some g => created_by g (Object cl) (String.eqb name "@class") js
  | None, None => Throw (raised JsonError.AbstractClass (classname_ cl) true js)
  end.
Proof.
  unfold pinned_class, pin_class. intros Hp.
  assert (E : (if negb (String.eqb name "@class") then ret pointerclass
               else match getClass_name classes_ value with
                    | Some cl => ret (Object cl)
                    | None => error JsonError.UnknownClass value true ;;; undefined
                    end) js = Ret (Object cl) js).
  { destruct (String.eqb name "@class"); cbn [negb] in *.
    - destruct (getClass_name classes_ value); [|discriminate].
      inversion Hp; subst. reflexivity.
    - inversion Hp; subst. reflexivity. }
  rewrite (bind_Ret _ _ _ _ _ E). change (0 =? 0) with true. cbv iota.
  destruct cr as [f|]; [|cbn [create]; destruct (creator_ cl) as [g|]].
  - rewrite (bind_Ret _ _ _ _ _ (run_creator_eq f js)). unfold created_by.
    destruct (fst (f (mem js)) =? 0); reflexivity.
  - rewrite (bind_Ret _ _ _ _ _ (run_creator_eq g js)). unfold created_by.
    destruct (fst (g (mem js)) =? 0); reflexivity.
  - reflexivity.
Qed.

Lemma not_at_not_id n : ch_eq (front n) "@" = false -> String.eqb n "@id" = false.
Proof.
  intros H. destruct (String.eqb n "@id") eqn:E; [|reflexivity].
  apply String.eqb_eq in E. subst n. discriminate H.
Qed.

Lemma not_at_not_class n : ch_eq (front n) "@" = false -> String.eqb n "@class" = false.
Proof.
  intros H. destruct (String.eqb n "@class") eqn:E; [|reflexivity].
  apply String.eqb_eq in E. subst n. discriminate H.
Qed.

Lemma readObject_loop_S n objclass pointerclass cr obj :
  readObject_loop classes_ typeinfo readValue readPointee readArray
    (S n) objclass pointerclass cr obj =
  (ok <- in_good ;;
   if negb ok then error JsonError.PrematureEOF "" true ;;; ret 0
   else
     l <- readLine true ;;
     let name := token1 l in
     let value := token2 l in
     (if negb (found1 l) then error JsonError.ExpectingPairOrBrace "" true
      else if negb (found2 l) && negb (String.eqb name "}")
           then error JsonError.ExpectingPairOrBrace "" true
           else ret tt) ;;;
     (if ch_eq (front name) "@" && negb (String.eqb name "@class")
         && negb (String.eqb name "@id")
      then error JsonError.WrongKeyword value true else ret tt) ;;;
     pinned <- pin_class classes_ typeinfo objclass pointerclass cr obj name value ;;
     let '(cl, obj, continue) := pinned in
     if continue then
       readObject_loop classes_ typeinfo readValue readPointee readArray
         n (Some cl) pointerclass cr obj
     else if String.eqb name "}" then doPostRead cl obj ;;; ret obj
     else if String.eqb name "@id" then
       id <- stoul value ;;
       modify (fun js => set_id_to_object_ (<[id := obj]> (id_to_object_ js)) js) ;;;
       readObject_loop classes_ typeinfo readValue readPointee readArray
         n (Some cl) pointerclass cr obj
     else
       read_member_or_warn typeinfo readValue readPointee readArray cl obj name value ;;;
       readObject_loop classes_ typeinfo readValue readPointee readArray
         n (Some cl) pointerclass cr obj).
Proof. reflexivity. Qed.

(** A name that the class and its superclasses do not have is reported
    and nothing else happens. *)
Lemma unknown_member_warns cl obj n value js :
  find_member cl obj n = None ->
  read_member_or_warn typeinfo readValue readPointee readArray (Object cl) obj n value js
  = Ret tt (raised JsonError.UnknownMember
              ("'" +:+ n +:+ "' in class '" +:+ classname_ cl +:+ "'") false js).
Proof.
  intros H. unfold read_member_or_warn, catch_invalid_argument.
  cbn [readMember]. unfold bind. rewrite readMember_order, H. reflexivity.
Qed.


End ReaderSteps.

(** ** The writer: shared objects *)

Lemma bind_Ret_inv {A B} (m : M A) (k : A -> M B) js b js' :
  bind m k js = Ret b js' -> exists a js1, m js = Ret a js1 /\ k a js1 = Ret b js'.
Proof. unfold bind. destruct (m js); try discriminate. eauto. Qed.

Lemma append_assoc s t u : (s +:+ t) +:+ u = s +:+ (t +:+ u).
Proof.
  induction s as [|a s IH]; [reflexivity|].
  change (String a ((s +:+ t) +:+ u) = String a (s +:+ t +:+ u)). by rewrite IH.
Qed.

Lemma grows_refl js : grows js js.
Proof.
  split; [reflexivity|split; [auto|split; [auto|]]].
  intros o H. exists "". by rewrite append_nil_r.
Qed.

Lemma grows_trans js1 js2 js3 : grows js1 js2 -> grows js2 js3 -> grows js1 js3.
Proof.
  intros (S1 & T1 & I1 & O1) (S2 & T2 & I2 & O2).
  split; [congruence|split; [auto|split; [auto|]]].
  intros o H. destruct (O1 o H) as [w1 H1]. destruct (O2 _ H1) as [w2 H2].
  exists (w1 +:+ w2). by rewrite H2, append_assoc.
Qed.

(** A change of fields other than the table, the counter, the sharing
    mode and the stream. *)
Lemma grows_frame js js' :
  sharing_ js' = sharing_ js -> object_to_id_ js' = object_to_id_ js ->
  current_object_id_ js' = current_object_id_ js -> out_ js' = out_ js ->
  grows js js'.
Proof.
  intros Hs Ht Hc Ho. split; [exact Hs|split; [|split]].
  - intros a id. by rewrite Ht.
  - unfold table_inv. by rewrite Ht, Hc.
  - intros o H. exists "". by rewrite Ho, H, append_nil_r.
Qed.

Lemma grows_put js o w :
  out_ js = Some o -> grows js (set_out_ (Some (o +:+ w)) js).
Proof.
  intros H. split; [reflexivity|split; [auto|split; [auto|]]].
  intros o' H'. exists w. cbn. congruence.
Qed.

(** The table of a write that has not begun. *)
Lemma table_inv_fresh js :
  object_to_id_ js = ∅ -> current_object_id_ js = 0 -> table_inv js.
Proof.
  intros E C. unfold table_inv. rewrite E, C. split; [reflexivity|].
  intros _. split; intros ? ?; [|intros ?]; rewrite lookup_empty; discriminate.
Qed.

(** The first sighting of an object: the next identifier is recorded. *)
Lemma table_inv_next js obj :
  object_to_id_ js !! obj = None -> table_inv js ->
  table_inv (set_object_to_id_
               (<[obj := (current_object_id_ js + 1) mod 2^64]> (object_to_id_ js))
               (set_current_object_id_ ((current_object_id_ js + 1) mod 2^64) js)).
Proof.
  intros Hnone [Hc Hi]. unfold table_inv. cbn [object_to_id_ current_object_id_
    set_object_to_id_ set_current_object_id_].
  rewrite (map_size_insert_None _ _ _ Hnone).
  assert (Hn : (current_object_id_ js + 1) mod 2 ^ 64
               = Z.of_nat (S (size (object_to_id_ js))) mod 2 ^ 64).
  { rewrite Hc, Zplus_mod_idemp_l. f_equal. lia. }
  split; [exact Hn|]. intros Hlt.
  destruct Hi as [Hr Hinj]; [lia|].
  rewrite Hn, Z.mod_small by lia.
  split.
  - intros a id. rewrite lookup_insert. destruct (decide (obj = a)) as [->|Hne].
    + intros [= <-]. lia.
    + intros H. specialize (Hr _ _ H). lia.
  - intros a b id. rewrite !lookup_insert.
    destruct (decide (obj = a)) as [Ea|Ha], (decide (obj = b)) as [Eb|Hb].
    + congruence.
    + intros [= <-] H. specialize (Hr _ _ H). lia.
    + intros H [= <-]. specialize (Hr _ _ H). lia.
    + apply Hinj.
Qed.

Lemma grows_next js obj :
  object_to_id_ js !! obj = None ->
  grows js (set_object_to_id_
              (<[obj := (current_object_id_ js + 1) mod 2^64]> (object_to_id_ js))
              (set_current_object_id_ ((current_object_id_ js + 1) mod 2^64) js)).
Proof.
  intros Hnone. split; [reflexivity|split; [|split]].
  - intros a id H. cbn. rewrite lookup_insert_ne; [exact H|]. congruence.
  - by apply table_inv_next.
  - intros o H. exists "". cbn. by rewrite H, append_nil_r.
Qed.

Lemma grown_bind {A B} (m : M A) (k : A -> M B) js :
  grown_from js (m js) ->
  (forall a js1, m js = Ret a js1 -> grown_from js1 (k a js1)) ->
  grown_from js (bind m k js).
Proof.
  intros Hm Hk. unfold bind.
  destruct (m js) as [a js1|js1|e js1| |]; try exact Hm; try exact I.
  specialize (Hk a js1 eq_refl). cbn in Hm.
  destruct (k a js1); try exact I; cbn in *; eapply grows_trans; eauto.
Qed.

Lemma preserves_ret {A} (a : A) : preserves (ret a).
Proof. intros js. apply grows_refl. Qed.

Lemma preserves_bind {A B} (m : M A) (k : A -> M B) :
  preserves m -> (forall a, preserves (k a)) -> preserves (bind m k).
Proof.
  intros Hm Hk js. apply grown_bind; [apply Hm|]. intros a js1 _. apply Hk.
Qed.

Lemma preserves_gets {A} (f : JsonSerial -> A) : preserves (gets f).
Proof. intros js. apply grows_refl. Qed.

Lemma preserves_undefined {A} : preserves (@undefined A).
Proof. intros js. exact I. Qed.

Lemma preserves_modify f : (forall js, grows js (f js)) -> preserves (modify f).
Proof. intros H js. apply H. Qed.

Lemma preserves_if {A} (b : bool) (m1 m2 : M A) :
  preserves m1 -> preserves m2 -> preserves (if b then m1 else m2).
Proof. destruct b; auto. Qed.

Lemma preserves_put s : preserves (put s).
Proof.
  intros js. unfold put. destruct (out_ js) eqn:E; [|exact I]. by apply grows_put.
Qed.

Lemma preserves_error type arg fatal : preserves (error type arg fatal).
Proof.
  intros js. unfold error. destruct fatal; by apply grows_frame.
Qed.

Lemma preserves_load a : preserves (load a).
Proof. intros js. unfold load. destruct (_ !! a); [apply grows_refl|exact I]. Qed.

Ltac preserves_step :=
  lazymatch goal with
  | |- preserves (ret _) => apply preserves_ret
  | |- preserves (gets _) => apply preserves_gets
  | |- preserves undefined => apply preserves_undefined
  | |- preserves (put _) => apply preserves_put
  | |- preserves (error _ _ _) => apply preserves_error
  | |- preserves (load _) => apply preserves_load
  | |- preserves (modify _) =>
      apply preserves_modify; intros ?; apply grows_frame; reflexivity
  | |- preserves (bind _ _) => apply preserves_bind; [|intros ?]
  | |- preserves (match ?x with _ => _ end) => destruct x
  end.

Ltac preserves_auto := repeat preserves_step.

Lemma preserves_load_string a : preserves (load_string a).
Proof. unfold load_string. preserves_auto. Qed.
Lemma preserves_load_cstr a : preserves (load_cstr a).
Proof. unfold load_cstr. preserves_auto. Qed.
Lemma preserves_load_bool a : preserves (load_bool a).
Proof. unfold load_bool. preserves_auto. Qed.
Lemma preserves_load_int a : preserves (load_int a).
Proof. unfold load_int. preserves_auto. Qed.
Lemma preserves_load_ptr a : preserves (load_ptr a).
Proof. unfold load_ptr. preserves_auto. Qed.
Lemma preserves_load_seq a : preserves (load_seq a).
Proof. unfold load_seq. preserves_auto. Qed.
Lemma preserves_load_map a : preserves (load_map a).
Proof. unfold load_map. preserves_auto. Qed.

Lemma preserves_typeid T a : preserves (typeid T a).
Proof.
  intros js. unfold typeid. destruct (_ !! a) as [[]|]; apply grows_refl.
Qed.

Lemma preserves_addTab : preserves addTab.
Proof.
  apply preserves_modify. intros js. cbv beta zeta.
  match goal with |- context [if ?b then _ else _] => destruct b end;
    by apply grows_frame.
Qed.

Lemma preserves_removeTab : preserves removeTab.
Proof.
  apply preserves_modify. intros js. cbv beta zeta.
  match goal with |- context [if ?b then _ else _] => destruct b end;
    by apply grows_frame.
Qed.

Lemma preserves_writeTabs : preserves writeTabs.
Proof. unfold writeTabs. preserves_auto. Qed.

Lemma preserves_writeString s b : preserves (writeString s b).
Proof. unfold writeString. preserves_auto. Qed.

Ltac preserves_writer :=
  repeat first
    [ preserves_step
    | lazymatch goal with
      | |- preserves writeTabs => apply preserves_writeTabs
      | |- preserves addTab => apply preserves_addTab
      | |- preserves removeTab => apply preserves_removeTab
      | |- preserves (writeString _ _) => apply preserves_writeString
      | |- preserves (load_string _) => apply preserves_load_string
      | |- preserves (load_cstr _) => apply preserves_load_cstr
      | |- preserves (load_bool _) => apply preserves_load_bool
      | |- preserves (load_int _) => apply preserves_load_int
      | |- preserves (load_ptr _) => apply preserves_load_ptr
      | |- preserves (load_seq _) => apply preserves_load_seq
      | |- preserves (load_map _) => apply preserves_load_map
      | |- preserves (typeid _ _) => apply preserves_typeid
      end ].

Section WriterPreserves.

Variable classes_ : JsonClasses.
Hypothesis registry_ok : registry_no_custom classes_ = true.

Lemma registered_no_custom T cl :
  getClass_type classes_ T = Some cl -> no_custom cl = true.
Proof.
  intros H. unfold registry_no_custom in registry_ok.
  rewrite forallb_forall in registry_ok.
  apply (registry_ok (T, cl)). apply list_elem_of_In, elem_of_map_to_list, H.
Qed.

Section OneLevel.

Variable writeValue : ty -> Z -> M unit.
Hypothesis writeValue_preserves : forall t a, preserves (writeValue t a).

Lemma preserves_write_returned t v : preserves (write_returned writeValue t v).
Proof.
  unfold write_returned.
  destruct t, v; try apply preserves_undefined; preserves_writer;
    apply writeValue_preserves.
Qed.

Lemma preserves_Member_write m obj :
  isCustom m = false -> preserves (Member_write writeValue m obj).
Proof.
  unfold Member_write, isCustom. destruct (kind m); intros Hc; try discriminate;
    try apply writeValue_preserves.
  preserves_writer. apply preserves_write_returned.
Qed.

Lemma preserves_write_own_members ms obj :
  forallb (fun m => negb (isCustom m)) ms = true ->
  preserves (write_own_members writeValue ms obj).
Proof.
  induction ms as [|it ms IH]; intros H; [apply preserves_ret|].
  cbn [forallb] in H. apply andb_true_iff in H as [Hc H].
  apply negb_true_iff in Hc.
  cbn [write_own_members]. rewrite Hc. preserves_writer.
  - by apply preserves_Member_write.
  - by apply IH.
Qed.

Lemma preserves_ObjectClass_writeMembers cl :
  forall obj, no_custom cl = true ->
  preserves (ObjectClass_writeMembers writeValue cl obj).
Proof.
  induction cl as [cl IH] using ObjectClass_supers_ind. intros obj Hn.
  destruct cl as [n sups cr ms mm pr pw]. cbn [superclasses_] in IH.
  cbn [no_custom members_ superclasses_] in Hn.
  apply andb_true_iff in Hn as [Hms Hsups].
  cbn [ObjectClass_writeMembers superclasses_ members_].
  apply preserves_bind; [|intros _; by apply preserves_write_own_members].
  clear Hms. induction sups as [|it sups IHs]; [apply preserves_ret|].
  apply andb_true_iff in Hsups as [Hit Hsups].
  inversion IH as [|? ? Pit Ps]; subst.
  apply preserves_bind; [by apply Pit|]. intros _. by apply IHs.
Qed.

Lemma preserves_MapClass_writeMembers E entries :
  preserves (MapClass_writeMembers writeValue E entries).
Proof.
  induction entries as [|it entries IH]; [apply preserves_ret|].
  cbn [MapClass_writeMembers]. preserves_writer.
  - apply writeValue_preserves.
  - apply IH.
Qed.

Lemma preserves_writeMembers cl obj :
  metaclass_no_custom cl = true -> preserves (writeMembers writeValue cl obj).
Proof.
  destruct cl as [cl|E]; cbn [metaclass_no_custom writeMembers]; intros H.
  - by apply preserves_ObjectClass_writeMembers.
  - apply preserves_bind; [apply preserves_load_map|].
    intros m. apply preserves_MapClass_writeMembers.
Qed.

Lemma preserves_doPostWrite cl obj : preserves (doPostWrite cl obj).
Proof. unfold doPostWrite. destruct cl as [cl|]; preserves_writer. Qed.

Lemma preserves_writeObject cl derived obj :
  metaclass_no_custom cl = true ->
  preserves (writeObject writeValue cl derived obj).
Proof.
  intros Hcl js. unfold writeObject.
  apply grown_bind; [apply preserves_gets|]. intros sharing js1 [= <- <-].
  apply grown_bind; [apply preserves_gets|]. intros seen js1 [= <- <-].
  destruct (if sharing_ js then object_to_id_ js !! obj else None) as [id|] eqn:Hseen.
  { apply preserves_put. }
  apply grown_bind.
  { destruct (sharing_ js); [|apply grows_refl]. by apply grows_next. }
  intros _ js1 _. revert js1.
  change (preserves
    (modify (set_needcomma_ false) ;;;
     put ("{" +:+ str1 LF) ;;; addTab ;;;
     (if derived then
        writeTabs ;;;
        put (str1 DQUOTE +:+ "@class" +:+ str1 DQUOTE +:+ ": " +:+ str1 DQUOTE
             +:+ classname cl +:+ str1 DQUOTE +:+ "," +:+ str1 LF)
      else ret tt) ;;;
     (if sharing_ js then
        writeTabs ;;;
        id <- gets current_object_id_ ;;
        put (str1 DQUOTE +:+ "@id" +:+ str1 DQUOTE +:+ ": " +:+ str1 DQUOTE
             +:+ pretty id +:+ str1 DQUOTE +:+ "," +:+ str1 LF)
      else ret tt) ;;;
     writeMembers writeValue cl obj ;;;
     removeTab ;;;
     put (str1 LF) ;;; writeTabs ;;; put "}" ;;;
     modify (set_needcomma_ true) ;;;
     doPostWrite cl obj)).
  preserves_writer; [by apply preserves_writeMembers|apply preserves_doPostWrite].
Qed.

Lemma preserves_writeArray t elems : preserves (writeArray writeValue t elems).
Proof.
  unfold writeArray.
  assert (Hl : preserves (writeArray_loop writeValue t elems)).
  { induction elems as [|it elems IH]; [apply preserves_ret|].
    cbn [writeArray_loop]. preserves_writer; [apply writeValue_preserves|apply IH]. }
  preserves_writer. apply Hl.
Qed.

Lemma preserves_writeValue_ t a : preserves (writeValue_ classes_ writeValue t a).
Proof.
  unfold writeValue_, writeValue2. destruct t.
  - preserves_writer.
  - preserves_writer.
  - preserves_writer.
  - preserves_writer.
  - apply preserves_bind; [|intros; preserves_writer].
    apply preserves_bind; [apply preserves_typeid|]. intros dyn.
    destruct (getClass_type classes_ dyn) as [cl|] eqn:E; [|apply preserves_error].
    apply preserves_writeObject. cbn. by eapply registered_no_custom.
  - preserves_writer. apply writeValue_preserves.
  - preserves_writer. apply preserves_writeArray.
  - preserves_writer. by apply preserves_writeObject.
Qed.

End OneLevel.

(** Every write leaves the entries of the table in place. *)
Lemma preserves_writeValue fuel : forall t a, preserves (writeValue classes_ fuel t a).
Proof.
  induction fuel as [|fuel IH]; intros t a; [intros js; exact I|].
  cbn [writeValue]. by apply preserves_writeValue_.
Qed.

End WriterPreserves.

Lemma emits_trans js1 js2 js3 w1 w2 :
  emits js1 js2 w1 -> emits js2 js3 w2 -> emits js1 js3 (w1 +:+ w2).
Proof.
  intros (O1 & T1 & C1 & S1) (O2 & T2 & C2 & S2).
  split; [|split; [congruence|split; congruence]].
  intros o H. rewrite (O2 _ (O1 _ H)). by rewrite append_assoc.
Qed.

Lemma emits_frame js js' :
  out_ js' = out_ js -> object_to_id_ js' = object_to_id_ js ->
  current_object_id_ js' = current_object_id_ js -> sharing_ js' = sharing_ js ->
  emits js js' "".
Proof.
  intros Ho Ht Hc Hs. split; [|auto]. intros o H. by rewrite Ho, H, append_nil_r.
Qed.

Lemma emits_put w js js' : put w js = Ret tt js' -> emits js js' w.
Proof.
  unfold put. destruct (out_ js) as [o|] eqn:E; [|discriminate].
  intros [= <-]. split; [|auto]. intros o' H. cbn. congruence.
Qed.

Lemma emits_modify f js js' :
  (forall js, out_ (f js) = out_ js /\ object_to_id_ (f js) = object_to_id_ js
              /\ current_object_id_ (f js) = current_object_id_ js
              /\ sharing_ (f js) = sharing_ js) ->
  modify f js = Ret tt js' -> emits js js' "".
Proof.
  intros H [= <-]. destruct (H js) as (? & ? & ? & ?). by apply emits_frame.
Qed.

Lemma emits_addTab js js' : addTab js = Ret tt js' -> emits js js' "".
Proof.
  apply emits_modify. intros s. cbv beta zeta.
  match goal with |- context [if ?b then _ else _] => destruct b end; auto.
Qed.

Lemma emits_removeTab js js' : removeTab js = Ret tt js' -> emits js js' "".
Proof.
  apply emits_modify. intros s. cbv beta zeta.
  match goal with |- context [if ?b then _ else _] => destruct b end; auto.
Qed.

Lemma emits_writeTabs js js' : writeTabs js = Ret tt js' -> exists ind, emits js js' ind.
Proof.
  unfold writeTabs. cbn [bind gets].
  match goal with |- context [if ?b then _ else _] => destruct b end; [|discriminate].
  intros H. eexists. eapply emits_put, H.
Qed.

Lemma emits_doPostWrite cl obj js js' : doPostWrite cl obj js = Ret tt js' -> emits js js' "".
Proof.
  unfold doPostWrite. destruct cl as [cl|]; [|intros [= <-]; by apply emits_frame].
  destruct (postwrite_ cl); [|intros [= <-]; by apply emits_frame].
  destruct (obj =? 0); intros [= <-]; by apply emits_frame.
Qed.

Section SharedObjects.

Variable classes_ : JsonClasses.
Hypothesis registry_ok : registry_no_custom classes_ = true.

(** The first sighting of an object, once its identifier is recorded:
    the bytes that open it, the bytes of its members, the bytes that close
    it. *)
Lemma first_sighting_bytes (fuel : nat) (cl : MetaClass) (derived : bool) (obj : Z)
    (js js' : JsonSerial) (o : string) :
  metaclass_no_custom cl = true ->
  out_ js = Some o ->
  (modify (set_needcomma_ false) ;;;
   put ("{" +:+ str1 LF) ;;; addTab ;;;
   (if derived then writeTabs ;;; put (class_line cl) else ret tt) ;;;
   (writeTabs ;;; id <- gets current_object_id_ ;; put (id_line id)) ;;;
   writeMembers (writeValue classes_ fuel) cl obj ;;;
   removeTab ;;;
   put (str1 LF) ;;; writeTabs ;;; put "}" ;;;
   modify (set_needcomma_ true) ;;;
   doPostWrite cl obj) js = Ret tt js' ->
  grows js js'
  /\ exists ind1 ind2 body tail,
       out_ js' = Some (o +:+ "{" +:+ str1 LF
                        +:+ (if derived then ind1 +:+ class_line cl else "")
                        +:+ ind2 +:+ id_line (current_object_id_ js)
                        +:+ body +:+ str1 LF +:+ tail +:+ "}").
Proof.
  intros Hcl Hout H.
  split.
  { pose proof (preserves_writeValue classes_ registry_ok fuel) as Hwv.
    assert (P : preserves
      (modify (set_needcomma_ false) ;;;
       put ("{" +:+ str1 LF) ;;; addTab ;;;
       (if derived then writeTabs ;;; put (class_line cl) else ret tt) ;;;
       (writeTabs ;;; id <- gets current_object_id_ ;; put (id_line id)) ;;;
       writeMembers (writeValue classes_ fuel) cl obj ;;;
       removeTab ;;;
       put (str1 LF) ;;; writeTabs ;;; put "}" ;;;
       modify (set_needcomma_ true) ;;;
       doPostWrite cl obj)).
    { preserves_writer; [by apply preserves_writeMembers|apply preserves_doPostWrite]. }
    specialize (P js). rewrite H in P. exact P. }
  apply bind_Ret_inv in H as ([] & js1 & H1 & H).
  apply bind_Ret_inv in H as ([] & js2 & H2 & H).
  apply bind_Ret_inv in H as ([] & js3 & H3 & H).
  apply bind_Ret_inv in H as ([] & js4 & H4 & H).
  apply bind_Ret_inv in H as ([] & js5 & H5 & H).
  apply bind_Ret_inv in H as ([] & js6 & H6 & H).
  apply bind_Ret_inv in H as ([] & js7 & H7 & H).
  apply bind_Ret_inv in H as ([] & js8 & H8 & H).
  apply bind_Ret_inv in H as ([] & js9 & H9 & H).
  apply bind_Ret_inv in H as ([] & js10 & H10 & H).
  apply bind_Ret_inv in H as ([] & js11 & H11 & H).
  apply emits_modify in H1; [|auto].
  apply emits_put in H2. apply emits_addTab in H3.
  assert (E4 : exists ind1, emits js3 js4 (if derived then ind1 +:+ class_line cl else "")).
  { destruct derived.
    - apply bind_Ret_inv in H4 as ([] & js4a & H4a & H4).
      apply emits_writeTabs in H4a as [ind1 E]. apply emits_put in H4.
      exists ind1. eapply emits_trans; eauto.
    - exists "". injection H4 as <-. by apply emits_frame. }
  destruct E4 as [ind1 E4].
  apply bind_Ret_inv in H5 as ([] & js5a & H5a & H5).
  apply bind_Ret_inv in H5 as (id & js5b & [= <- <-] & H5).
  apply emits_writeTabs in H5a as [ind2 E5a]. apply emits_put in H5.
  pose proof (preserves_writeMembers (writeValue classes_ fuel)
                (preserves_writeValue classes_ registry_ok fuel) cl obj Hcl js5) as G6.
  rewrite H6 in G6. cbn in G6.
  apply emits_removeTab in H7. apply emits_put in H8.
  apply emits_writeTabs in H9 as [tail E9]. apply emits_put in H10.
  apply emits_modify in H11; [|auto]. apply emits_doPostWrite in H.
  pose proof (emits_trans _ _ _ _ _ H1 (emits_trans _ _ _ _ _ H2
               (emits_trans _ _ _ _ _ H3 (emits_trans _ _ _ _ _ E4 E5a)))) as Epre.
  assert (Ec : current_object_id_ js5a = current_object_id_ js).
  { destruct Epre as (_ & _ & -> & _). reflexivity. }
  rewrite Ec in H5.
  pose proof (emits_trans _ _ _ _ _ Epre H5) as Eopen.
  pose proof (emits_trans _ _ _ _ _ H7 (emits_trans _ _ _ _ _ H8
               (emits_trans _ _ _ _ _ E9 (emits_trans _ _ _ _ _ H10
               (emits_trans _ _ _ _ _ H11 H))))) as Eclose.
  destruct Eopen as (O5 & _). specialize (O5 _ Hout).
  destruct G6 as (_ & _ & _ & O6). destruct (O6 _ O5) as [body O6'].
  destruct Eclose as (O7 & _). specialize (O7 _ O6').
  exists ind1, ind2, body, tail. rewrite O7. f_equal.
  cbn [String.append]. rewrite ?append_nil_r, ?append_assoc.
  cbn [String.append]. rewrite ?append_assoc. reflexivity.
Qed.


End SharedObjects.

(** ** The tokenizer does not look at the program memory *)

Create HintDb memfree.

Lemma mem_free_ret {A} (a : A) : mem_free (ret a).
Proof. intros u js. reflexivity. Qed.

Lemma mem_free_bind {A B} (m : M A) (k : A -> M B) :
  mem_free m -> (forall a, mem_free (k a)) -> mem_free (bind m k).
Proof.
  intros Hm Hk u js. unfold bind. rewrite Hm.
  destruct (m js); cbn [map_state]; try reflexivity. apply Hk.
Qed.

Lemma mem_free_gets {A} (f : JsonSerial -> A) :
  (forall u js, f (put_outside u js) = f js) -> mem_free (gets f).
Proof. intros H u js. unfold gets. by rewrite H. Qed.

Lemma mem_free_modify (f : JsonSerial -> JsonSerial) :
  (forall u js, f (put_outside u js) = put_outside u (f js)) -> mem_free (modify f).
Proof. intros H u js. unfold modify. cbn [map_state]. by rewrite H. Qed.

Lemma mem_free_undefined {A} : mem_free (@undefined A).
Proof. intros u js. reflexivity. Qed.

Lemma mem_free_std_throw {A} e : mem_free (@std_throw A e).
Proof. intros u js. reflexivity. Qed.

Lemma mem_free_error ty arg fatal : mem_free (error ty arg fatal).
Proof. intros [g|i] js; unfold error; destruct fatal; reflexivity. Qed.

Lemma mem_free_with_in {A} (f : istream -> A * istream) : mem_free (with_in f).
Proof.
  intros [g|i] js; unfold with_in; cbn [put_outside in_ set_mem set_id_to_object_];
    (destruct (in_ js) as [s|]; [|reflexivity]); destruct (f s); reflexivity.
Qed.

#[local] Hint Resolve mem_free_ret mem_free_undefined mem_free_std_throw
  mem_free_error mem_free_with_in : memfree.

Ltac mem_free_step :=
  first
    [ solve [auto 1 with memfree]
    | lazymatch goal with
      | |- mem_free (gets _) => apply mem_free_gets; intros [?|?] ?; reflexivity
      | |- mem_free (modify _) => apply mem_free_modify; intros [?|?] ?; reflexivity
      | |- mem_free (bind _ _) => apply mem_free_bind; [|intros ?]
      | |- mem_free (match ?x with _ => _ end) => destruct x
      end ].

Ltac mem_free_auto := repeat mem_free_step.

Lemma mem_free_in_get : mem_free in_get.
Proof. apply mem_free_with_in. Qed.
Lemma mem_free_in_peek : mem_free in_peek.
Proof. apply mem_free_with_in. Qed.
Lemma mem_free_in_putback c : mem_free (in_putback c).
Proof. apply mem_free_with_in. Qed.
Lemma mem_free_in_good : mem_free in_good.
Proof. apply mem_free_with_in. Qed.
#[local] Hint Resolve mem_free_in_get mem_free_in_peek mem_free_in_putback
  mem_free_in_good : memfree.

Lemma mem_free_peek_is d : mem_free (peek_is d).
Proof. unfold peek_is. mem_free_auto. Qed.
#[local] Hint Resolve mem_free_peek_is : memfree.

Lemma mem_free_checkValue token objName : mem_free (checkValue token objName).
Proof. unfold checkValue. cbv zeta. mem_free_auto. Qed.

Lemma mem_free_readEscape1 : mem_free readEscape1.
Proof. unfold readEscape1. mem_free_auto. Qed.
Lemma mem_free_readEscape2 : mem_free readEscape2.
Proof. unfold readEscape2. mem_free_auto. Qed.

Lemma mem_free_INVALID_CHAR {A} c : mem_free (@INVALID_CHAR A c).
Proof. unfold INVALID_CHAR. cbv zeta. mem_free_auto. Qed.

Lemma mem_free_separator c : mem_free (separator c).
Proof. unfold separator. mem_free_auto. Qed.

Lemma mem_free_in_quotes_invalid c : mem_free (in_quotes_invalid c).
Proof. unfold in_quotes_invalid. mem_free_auto. Qed.
#[local] Hint Resolve mem_free_checkValue mem_free_readEscape1 mem_free_readEscape2
  mem_free_INVALID_CHAR mem_free_separator mem_free_in_quotes_invalid : memfree.

Lemma mem_free_before_switch part lastPart c : mem_free (before_switch part lastPart c).
Proof. unfold before_switch. mem_free_auto. Qed.

Lemma mem_free_switch_part inObj part lastPart c l :
  mem_free (switch_part inObj part lastPart c l).
Proof. unfold switch_part. destruct part; cbv zeta; mem_free_auto. Qed.
#[local] Hint Resolve mem_free_before_switch mem_free_switch_part : memfree.

Lemma mem_free_readLine_loop fuel : forall inObj part lastPart l,
  mem_free (readLine_loop fuel inObj part lastPart l).
Proof.
  induction fuel as [|fuel IH]; intros inObj part lastPart l.
  - intros u js. reflexivity.
  - cbn [readLine_loop]. mem_free_auto.
Qed.

Lemma mem_free_readLine inObj : mem_free (readLine inObj).
Proof.
  intros u js. unfold readLine.
  replace (remaining (put_outside u js)) with (remaining js) by (by destruct u).
  generalize (remaining js). intros n.
  assert (H : mem_free (modify (fun js => set_token2_ "" (set_token1_ "" js)) ;;;
                        readLine_loop (S n) inObj Begin Begin
                          {| token1 := ""; token2 := ""; found1 := false; found2 := false |})).
  { apply mem_free_bind; [|intros ?; apply mem_free_readLine_loop].
    apply mem_free_modify. intros [?|?] ?; reflexivity. }
  apply H.
Qed.

Lemma set_mem_mem js : set_mem (mem js) js = js.
Proof. destruct js; reflexivity. Qed.

Lemma mem_free_mem {A} (m : M A) js a js' :
  mem_free m -> m js = Ret a js' -> mem js' = mem js.
Proof.
  intros H E. pose proof (H (Mem (mem js)) js) as H1. cbn [put_outside] in H1.
  rewrite set_mem_mem, E in H1. cbn [map_state] in H1.
  injection H1 as H1. apply (f_equal mem) in H1. exact H1.
Qed.

Lemma array_tokens_outside n : forall u js,
  array_tokens n (put_outside u js) = array_tokens n js.
Proof.
  induction n as [|n IH]; intros u js; [reflexivity|].
  cbn [array_tokens]. rewrite (mem_free_in_good u js).
  destruct (in_good js) as [[] js0|?|? ?| |]; cbn [map_state]; try reflexivity.
  rewrite (mem_free_readLine false u js0).
  destruct (readLine false js0) as [l js1|?|? ?| |]; cbn [map_state]; try reflexivity.
  by rewrite IH.
Qed.

Lemma array_tokens_mem n g js : array_tokens n (set_mem g js) = array_tokens n js.
Proof. apply (array_tokens_outside n (Mem g)). Qed.

(** ** Reading scalars *)

Lemma readScalar_inv t tok js v js' :
  is_scalar t = true -> readScalar t tok js = Ret v js' ->
  js' = js /\ parses_as t tok v.
Proof.
  intros Hs H. destruct t; try discriminate Hs; cbn [readScalar] in H.
  - injection H as <- <-. split; [reflexivity|]. intros ?. reflexivity.
  - injection H as <- <-. split; [reflexivity|]. intros ?. reflexivity.
  - unfold parses_as. cbn [readScalar].
    destruct (String.eqb tok "true").
    { injection H as <- <-. split; [reflexivity|]. intros ?. reflexivity. }
    destruct (String.eqb tok "false").
    { injection H as <- <-. split; [reflexivity|]. intros ?. reflexivity. }
    discriminate H.
  - unfold parses_as. cbn [readScalar]. unfold stoi in *.
    destruct (scan_integer 10 (c_str tok)) as [[neg n]|]; [|discriminate H].
    unfold bind in *.
    match type of H with context [if ?b then _ else _] => destruct b end;
      [discriminate H|].
    injection H as <- <-. split; [reflexivity|]. intros ?. reflexivity.
Qed.

Lemma fresh_from_snoc a k : fresh_from a (S k) = fresh_from a k ++ [a + Z.of_nat k].
Proof.
  revert a. induction k as [|k IH]; intros a.
  - cbn. by rewrite Z.add_0_r.
  - change (a :: fresh_from (a + 1) (S k) = a :: (fresh_from (a + 1) k ++ [a + Z.of_nat (S k)])).
    rewrite IH. do 3 f_equal. lia.
Qed.

Lemma fresh_from_ge a k e : In e (fresh_from a k) -> a <= e.
Proof.
  revert a. induction k as [|k IH]; intros a; [intros []|].
  intros [<-|H]; [lia|]. apply IH in H. lia.
Qed.

Section ArrayRead.

Variable classes_ : JsonClasses.
Variable typeinfo : string -> TypeInfo.

Lemma readValue_scalar k t e tok js js' :
  is_scalar t = true -> readValue classes_ typeinfo k t e tok js = Ret tt js' ->
  exists v, parses_as t tok v /\ js' = assigned e v js.
Proof.
  intros Hs H. destruct k as [|k]; [discriminate H|].
  cbn [readValue] in H. unfold readValue_ in H.
  assert (H' : (v <- readScalar t tok ;; store e v) js = Ret tt js')
    by (destruct t; try discriminate Hs; exact H).
  apply bind_Ret_inv in H' as (v & js1 & H1 & H2).
  apply readScalar_inv in H1 as [-> P]; [|exact Hs].
  exists v. split; [exact P|]. unfold store, modify in H2. by injection H2 as <-.
Qed.

Lemma readValue_parses k t e tok v js :
  is_scalar t = true -> parses_as t tok v ->
  readValue classes_ typeinfo (S k) t e tok js = Ret tt (assigned e v js).
Proof.
  intros Hs P. cbn [readValue]. unfold readValue_.
  assert (H' : (v <- readScalar t tok ;; store e v) js = Ret tt (assigned e v js)).
  { unfold bind. rewrite (P js). reflexivity. }
  destruct t; try discriminate Hs; exact H'.
Qed.

Lemma holds_elements_nil t cont before m :
  cells m !! cont = Some (VSeq before) -> holds_elements t cont before [] m m.
Proof.
  intros H. split; [|split; [|split]].
  - cbn. by rewrite app_nil_r.
  - cbn. lia.
  - constructor.
  - reflexivity.
Qed.

Lemma holds_elements_cons t cont before tok toks m m1 m2 :
  cont < brk m ->
  holds_elements t cont before [tok] m m1 ->
  holds_elements t cont (before ++ [brk m]) toks m1 m2 ->
  holds_elements t cont before (tok :: toks) m m2.
Proof.
  intros Hc (C1 & B1 & F1 & R1) (C2 & B2 & F2 & R2).
  unfold holds_elements. cbn [length fresh_from] in *.
  assert (B1' : brk m1 = brk m + 1) by lia.
  rewrite B1' in *.
  split; [|split; [|split]].
  - rewrite C2, <- app_assoc. reflexivity.
  - lia.
  - inversion F1 as [|? ? ? ? (v & P & Hv) _]; subst.
    constructor; [|exact F2].
    exists v. split; [exact P|]. rewrite R2; [exact Hv|lia|lia].
  - intros a Ha Hne. rewrite R2; [|lia|exact Hne]. by apply R1.
Qed.

Lemma add_scalar_inv k t cont cr tok js js' before :
  is_scalar t = true ->
  cells (mem js) !! cont = Some (VSeq before) -> cont < brk (mem js) ->
  JsonArrayImpl_add typeinfo (readValue classes_ typeinfo k)
    (readPointee classes_ typeinfo k) t cont cr tok js = Ret tt js' ->
  js' = set_mem (mem js') js
  /\ holds_elements t cont before [tok] (mem js) (mem js').
Proof.
  intros Hs Hc Hlt H. unfold JsonArrayImpl_add in H.
  rewrite (bind_Ret _ _ js before js) in H
    by (unfold load_seq, load, bind; rewrite Hc; reflexivity).
  apply bind_Ret_inv in H as (e & js1 & H1 & H).
  apply bind_Ret_inv in H as ([] & js2 & H2 & H).
  assert (E1 : e = brk (mem js)
               /\ exists init, js1 = set_mem {| cells := <[e := init]> (cells (mem js));
                                                brk := brk (mem js) + 1 |} js).
  { destruct t; try discriminate Hs; injection H1 as <- <-; split; try reflexivity;
      eexists; reflexivity. }
  destruct E1 as [-> [init ->]].
  unfold store, modify in H2. injection H2 as <-.
  assert (E3 : exists js3,
             readValue classes_ typeinfo k t (brk (mem js)) tok js3 = Ret tt js'
             /\ js3 = set_mem (mem js3) js
             /\ brk (mem js3) = brk (mem js) + 1
             /\ cells (mem js3) !! cont = Some (VSeq (before ++ [brk (mem js)]))
             /\ forall a, a <> brk (mem js) -> a <> cont ->
                          cells (mem js3) !! a = cells (mem js) !! a).
  { destruct t; try discriminate Hs; unfold readArrayValue in H;
      try (apply bind_Ret_inv in H as ([] & js3 & H3 & H);
           unfold store, modify in H3; injection H3 as <-);
      (eexists; split; [exact H|]); cbn [mem set_mem cells brk];
      (split; [reflexivity|split; [reflexivity|split]]);
      [| intros a Ha Hne | | intros a Ha Hne | | intros a Ha Hne | | intros a Ha Hne ];
      repeat (rewrite lookup_insert_ne by lia); try reflexivity;
      by rewrite lookup_insert_eq. }
  destruct E3 as (js3 & Hr & E3 & B3 & C3 & R3).
  apply readValue_scalar in Hr as (v & P & ->); [|exact Hs].
  unfold assigned. cbn [mem set_mem cells brk]. split.
  - match goal with
    | |- set_mem ?g js3 = _ =>
        transitivity (set_mem g (set_mem (mem js3) js)); [by rewrite <- E3|reflexivity]
    end.
  - split; [|split; [|split]]; cbn [cells brk length fresh_from].
    + rewrite lookup_insert_ne by lia. exact C3.
    + lia.
    + constructor; [|constructor]. exists v. split; [exact P|]. by rewrite lookup_insert_eq.
    + intros a Ha Hne. rewrite lookup_insert_ne by lia. apply R3; [lia|exact Hne].
Qed.

Lemma add_scalar_run k t cont cr tok v js before :
  is_scalar t = true -> parses_as t tok v ->
  cells (mem js) !! cont = Some (VSeq before) ->
  exists js',
    JsonArrayImpl_add typeinfo (readValue classes_ typeinfo (S k))
      (readPointee classes_ typeinfo (S k)) t cont cr tok js = Ret tt js'.
Proof.
  intros Hs P Hc. unfold JsonArrayImpl_add.
  rewrite (bind_Ret _ _ js before js)
    by (unfold load_seq, load, bind; rewrite Hc; reflexivity).
  destruct t; try discriminate Hs;
    unfold new_, alloc, construct, store, size_of, readArrayValue, bind, modify, ret;
    eexists; apply readValue_parses; [reflexivity|exact P|reflexivity|exact P
                                     |reflexivity|exact P|reflexivity|exact P].
Qed.

(** The loop of [readArray] for elements read from one token. *)
Lemma readArray_loop_tokens k t cont cr n : forall js js' before,
  is_scalar t = true ->
  cells (mem js) !! cont = Some (VSeq before) -> cont < brk (mem js) ->
  readArray_loop typeinfo (readValue classes_ typeinfo k)
    (readPointee classes_ typeinfo k) n t cont cr js = Ret tt js' ->
  exists toks, array_tokens n js = Some toks
               /\ holds_elements t cont before toks (mem js) (mem js').
Proof.
  induction n as [|n IH]; intros js js' before Hs Hc Hlt H; [discriminate H|].
  cbn [readArray_loop] in H. cbn [array_tokens].
  apply bind_Ret_inv in H as (ok & js0 & H0 & H). rewrite H0.
  pose proof (mem_free_mem _ _ _ _ mem_free_in_good H0) as M0.
  destruct ok; cbn [negb] in H.
  2:{ injection H as <-. exists []. split; [reflexivity|].
      rewrite M0. by apply holds_elements_nil. }
  apply bind_Ret_inv in H as (l & js1 & H1 & H). rewrite H1.
  pose proof (mem_free_mem _ _ _ _ (mem_free_readLine false) H1) as M1.
  destruct (found1 l); cbn [negb] in *; [|discriminate H].
  destruct (String.eqb (token1 l) "]").
  { injection H as <-. exists []. split; [reflexivity|].
    rewrite M1, M0. by apply holds_elements_nil. }
  apply bind_Ret_inv in H as ([] & js2 & H2 & H).
  rewrite <- M0, <- M1 in Hc, Hlt.
  apply (add_scalar_inv k t cont cr _ js1 js2 before Hs Hc Hlt) in H2 as [E2 A2].
  pose proof A2 as (C2 & B2 & _).
  apply (IH js2 js' (before ++ [brk (mem js1)]) Hs) in H as (toks & T & A); cycle 1.
  { exact C2. }
  { cbn [length] in B2. lia. }
  exists (token1 l :: toks). split.
  - rewrite E2, array_tokens_mem in T. by rewrite T.
  - rewrite <- M0, <- M1. by apply (holds_elements_cons _ _ _ _ _ _ (mem js2)).
Qed.

Lemma readArray_loop_returns k t cont cr n : forall js toks before,
  is_scalar t = true ->
  cells (mem js) !! cont = Some (VSeq before) -> cont < brk (mem js) ->
  array_tokens n js = Some toks ->
  Forall (fun tok => exists v, parses_as t tok v) toks ->
  exists js',
    readArray_loop typeinfo (readValue classes_ typeinfo (S k))
      (readPointee classes_ typeinfo (S k)) n t cont cr js = Ret tt js'.
Proof.
  induction n as [|n IH]; intros js toks before Hs Hc Hlt T P; [discriminate T|].
  cbn [readArray_loop]. cbn [array_tokens] in T.
  destruct (in_good js) as [ok js0|?|? ?| |] eqn:H0; try discriminate T.
  rewrite (bind_Ret _ _ _ _ _ H0).
  pose proof (mem_free_mem _ _ _ _ mem_free_in_good H0) as M0.
  destruct ok; cbn [negb]; [|by eexists].
  destruct (readLine false js0) as [l js1|?|? ?| |] eqn:H1; try discriminate T.
  rewrite (bind_Ret _ _ _ _ _ H1).
  pose proof (mem_free_mem _ _ _ _ (mem_free_readLine false) H1) as M1.
  destruct (found1 l); cbn [negb] in *; [|discriminate T].
  destruct (String.eqb (token1 l) "]"); [by eexists|].
  destruct (array_tokens n js1) as [toks'|] eqn:T'; [|discriminate T].
  injection T as <-. inversion P as [|? ? [v Pv] P']; subst.
  rewrite <- M0, <- M1 in Hc, Hlt.
  destruct (add_scalar_run k t cont cr (token1 l) v js1 before Hs Pv Hc) as [js2 H2].
  rewrite (bind_Ret _ _ _ _ _ H2).
  apply (add_scalar_inv (S k) t cont cr _ js1 js2 before Hs Hc Hlt) in H2 as [E2 A2].
  destruct A2 as (C2 & B2 & _).
  apply (IH js2 toks' (before ++ [brk (mem js1)]) Hs); [exact C2| |  |exact P'].
  - cbn [length] in B2. lia.
  - by rewrite E2, array_tokens_mem.
Qed.

Lemma readArray_loop_empty rv rp t cont cr n js :
  array_tokens n js = Some [] ->
  exists js', readArray_loop typeinfo rv rp n t cont cr js = Ret tt js'
              /\ mem js' = mem js.
Proof.
  intros T. destruct n as [|n]; [discriminate T|].
  cbn [readArray_loop]. cbn [array_tokens] in T.
  destruct (in_good js) as [ok js0|?|? ?| |] eqn:H0; try discriminate T.
  rewrite (bind_Ret _ _ _ _ _ H0).
  pose proof (mem_free_mem _ _ _ _ mem_free_in_good H0) as M0.
  destruct ok; cbn [negb]; [|by eexists].
  destruct (readLine false js0) as [l js1|?|? ?| |] eqn:H1; try discriminate T.
  rewrite (bind_Ret _ _ _ _ _ H1).
  pose proof (mem_free_mem _ _ _ _ (mem_free_readLine false) H1) as M1.
  destruct (found1 l); cbn [negb] in *; [|discriminate T].
  destruct (String.eqb (token1 l) "]").
  - eexists. split; [reflexivity|]. by rewrite M1.
  - destruct (array_tokens n js1); discriminate T.
Qed.

Lemma readArray_unfold fuel t cont cr js :
  readArray classes_ typeinfo (S fuel) t cont cr "[" js
  = readArray_loop typeinfo (readValue classes_ typeinfo fuel)
      (readPointee classes_ typeinfo fuel) (S (remaining js)) t cont cr
      (assigned cont (VSeq []) js).
Proof. reflexivity. Qed.

Lemma readArray_bracket fuel t cont cr s js js' :
  readArray classes_ typeinfo (S fuel) t cont cr s js = Ret tt js' -> s = "[".
Proof.
  intros H. cbn [readArray] in H. unfold readArray_ in H.
  apply bind_Ret_inv in H as ([] & js0 & _ & H).
  destruct (String.eqb_spec s "[") as [E|_]; [exact E|discriminate H].
Qed.


End ArrayRead.

(** ** Maps *)

Lemma map_find_insert key p entries k :
  map_find key entries = None ->
  map_find k (map_insert key p entries)
  = if String.eqb key k then Some p else map_find k entries.
Proof.
  induction entries as [|[k0 q] rest IH]; intros H; [reflexivity|].
  cbn [map_find] in H. destruct (String.eqb_spec k0 key) as [E0|N0]; [discriminate H|].
  cbn [map_insert]. destruct (String.compare key k0) eqn:C.
  - apply String.compare_eq_iff in C. congruence.
  - reflexivity.
  - cbn [map_find]. rewrite (IH H).
    destruct (String.eqb_spec k0 k) as [E1|N1], (String.eqb_spec key k) as [E2|N2];
      congruence.
Qed.

Lemma holds_entries_nil E a entries m :
  cells m !! a = Some (VMap entries) -> map_wf a entries m ->
  holds_entries E a [] entries m m.
Proof.
  intros Hc Hw. exists entries. split; [exact Hc|]. split; [lia|]. split; [exact Hw|].
  split; [auto|]. split; [intros k p H; exact H|]. split; [discriminate|]. reflexivity.
Qed.

Lemma holds_entries_cons E a key val members entries entries1 m m1 m2 :
  map_wf a entries m ->
  reads_entry E a key val entries entries1 m m1 ->
  holds_entries E a members entries1 m1 m2 ->
  holds_entries E a ((key, val) :: members) entries m m2.
Proof.
  intros [Wlt Winj] (C1 & B1 & [W1lt W1inj] & p & v & Fp & Pv & Cp & Old & Oth & R1)
    (entries' & C2 & B2 & W2 & K2 & V2 & P2 & R2).
  assert (Keep : forall k q, map_find k entries = Some q -> map_find k entries1 = Some q).
  { intros k q H. destruct (decide (k = key)) as [->|Hne].
    - destruct Old as [Hp|[Hn _]]; congruence.
    - by rewrite Oth. }
  exists entries'. split; [exact C2|]. split; [lia|]. split; [exact W2|].
  split; [|split; [|split]].
  - intros k q H. apply K2, Keep, H.
  - intros k q H. specialize (V2 k q H). cbn [last_value].
    destruct (last_value k members) as [x|] eqn:L; [exact V2|].
    destruct (String.eqb_spec key k) as [->|Hne].
    + assert (q = p) as -> by congruence.
      exists v. split; [exact Pv|].
      rewrite (R2 p); [exact Cp|apply (W1lt _ _ Fp)|apply (W1lt _ _ Fp)|].
      intros k' Hk'. assert (k' = k) as -> by (eapply W1inj; eauto). exact L.
    + rewrite <- Oth; [exact V2|congruence].
  - intros k value H. cbn [last_value] in H.
    destruct (last_value k members) as [x|] eqn:L; [by eapply P2|].
    destruct (String.eqb_spec key k) as [->|Hne]; [|discriminate H].
    exists p. by apply K2.
  - intros b Hb Hne Hun.
    assert (Hbp : b <> p).
    { intros ->. destruct Old as [Hp|[_ Hp]]; [|lia].
      specialize (Hun key Hp). cbn [last_value] in Hun.
      destruct (last_value key members); [discriminate|].
      by rewrite String.eqb_refl in Hun. }
    rewrite R2; [by apply R1|lia|exact Hne|].
    intros k Hk. destruct (decide (k = key)) as [->|Hk'].
    + congruence.
    + rewrite Oth in Hk by exact Hk'. specialize (Hun k Hk). cbn [last_value] in Hun.
      by destruct (last_value k members).
Qed.

Section MapRead.

Variable classes_ : JsonClasses.
Variable typeinfo : string -> TypeInfo.

Lemma construct_scalar E :
  is_scalar E = true ->
  size_of typeinfo E = 1
  /\ exists d, forall p js, construct typeinfo E p js = Ret tt (assigned p d js).
Proof.
  intros Hs. destruct E; try discriminate Hs; (split; [reflexivity|]);
    eexists; intros p js; reflexivity.
Qed.

(** [MapClass<T>::readMember] for mapped values read from one token. *)
Lemma readMember_entry fuel E a key val js b js' entries :
  is_scalar E = true ->
  cells (mem js) !! a = Some (VMap entries) -> a < brk (mem js) ->
  map_wf a entries (mem js) ->
  MapClass_readMember typeinfo (readValue classes_ typeinfo fuel) E a key val js = Ret b js' ->
  js' = set_mem (mem js') js
  /\ exists entries1, reads_entry E a key val entries entries1 (mem js) (mem js').
Proof.
  intros Hs Hc Hlt [Wlt Winj] H. unfold MapClass_readMember in H.
  rewrite (bind_Ret _ _ js entries js) in H
    by (unfold load_map, load, bind; rewrite Hc; reflexivity).
  destruct (construct_scalar E Hs) as [Hsz [d Hd]].
  destruct (map_find key entries) as [p|] eqn:F.
  - rewrite (bind_Ret _ _ js p js) in H by reflexivity.
    rewrite (bind_Ret _ _ _ _ _ (Hd p js)) in H.
    apply bind_Ret_inv in H as ([] & js2 & H2 & H). injection H as <- <-.
    apply readValue_scalar in H2 as (v & P & ->); [|exact Hs].
    destruct (Wlt _ _ F) as [Hp Hpa].
    unfold assigned. cbn [mem set_mem cells brk]. split; [reflexivity|].
    exists entries. unfold reads_entry, map_wf; cbn [cells brk]; split; [|split; [|split]].
    + by rewrite !lookup_insert_ne by congruence.
    + lia.
    + split; [exact Wlt|exact Winj].
    + exists p, v. split; [exact F|]. split; [exact P|].
      split; [by rewrite lookup_insert_eq|]. split; [by left|]. split; [reflexivity|].
      intros c _ _ Hcp. by rewrite !lookup_insert_ne by congruence.
  - apply bind_Ret_inv in H as (p & js1 & H1 & H).
    assert (E1 : p = brk (mem js)
                 /\ js1 = set_mem {| cells := <[a := VMap (map_insert key (brk (mem js)) entries)]>
                                                (cells (mem js));
                                     brk := brk (mem js) + 1 |} js).
    { unfold alloc, store, bind, modify, ret in H1. rewrite Hsz in H1.
      injection H1 as <- <-. split; reflexivity. }
    destruct E1 as [-> ->].
    rewrite (bind_Ret _ _ _ _ _ (Hd _ _)) in H.
    apply bind_Ret_inv in H as ([] & js2 & H2 & H). injection H as <- <-.
    apply readValue_scalar in H2 as (v & P & ->); [|exact Hs].
    unfold assigned. cbn [mem set_mem cells brk]. split; [reflexivity|].
    exists (map_insert key (brk (mem js)) entries).
    assert (Find : forall k q,
               map_find k (map_insert key (brk (mem js)) entries) = Some q ->
               (k = key /\ q = brk (mem js)) \/ (k <> key /\ map_find k entries = Some q)).
    { intros k q Hk. rewrite (map_find_insert _ _ _ _ F) in Hk.
      destruct (String.eqb_spec key k) as [->|Hne]; [left|right]; split; congruence. }
    unfold reads_entry, map_wf; cbn [cells brk]; split; [|split; [|split]].
    + rewrite !lookup_insert_ne by lia. by rewrite lookup_insert_eq.
    + lia.
    + split.
      * intros k q Hk. destruct (Find k q Hk) as [[-> ->]|[_ Hq]]; [lia|].
        destruct (Wlt _ _ Hq). lia.
      * intros k k' q Hk Hk'.
        destruct (Find k q Hk) as [[-> ->]|[_ Hq]], (Find k' _ Hk') as [[-> Hq']|[_ Hq']];
          try reflexivity.
        -- destruct (Wlt _ _ Hq'). lia.
        -- destruct (Wlt _ _ Hq). lia.
        -- by eapply Winj.
    + exists (brk (mem js)), v.
      split; [by rewrite (map_find_insert _ _ _ _ F), String.eqb_refl|].
      split; [exact P|]. split; [by rewrite lookup_insert_eq|].
      split; [by right|]. split.
      * intros k Hne. rewrite (map_find_insert _ _ _ _ F).
        destruct (String.eqb_spec key k); congruence.
      * intros c Hc' Hca Hcp. by rewrite !lookup_insert_ne by congruence.
Qed.

Lemma MapClass_readMember_true rv E a key val js b js' :
  MapClass_readMember typeinfo rv E a key val js = Ret b js' -> b = true.
Proof.
  intros H. unfold MapClass_readMember in H.
  apply bind_Ret_inv in H as (? & ? & _ & H).
  apply bind_Ret_inv in H as (? & ? & _ & H).
  apply bind_Ret_inv in H as (? & ? & _ & H).
  apply bind_Ret_inv in H as (? & ? & _ & H).
  by injection H as <- _.
Qed.

Lemma read_member_or_warn_map rv rp ra E a name value js js' :
  read_member_or_warn typeinfo rv rp ra (MapClass E) a name value js = Ret tt js' ->
  MapClass_readMember typeinfo rv E a name value js = Ret true js'.
Proof.
  intros H. unfold read_member_or_warn, catch_invalid_argument, readMember, bind in H.
  destruct (MapClass_readMember typeinfo rv E a name value js) as [b js1|?|e ?| |] eqn:R;
    try discriminate H.
  - pose proof (MapClass_readMember_true _ _ _ _ _ _ _ _ R) as ->.
    by injection H as <-.
  - destruct e; discriminate H.
Qed.

Lemma stoul_inv s js id js' : stoul s js = Ret id js' -> js' = js.
Proof.
  unfold stoul. destruct (scan_integer 10 (c_str s)) as [[neg n]|]; [|discriminate].
  destruct (2 ^ 64 <=? n); [discriminate|]. intros H. by injection H as _ <-.
Qed.

Lemma mem_free_stoul s : mem_free (stoul s).
Proof.
  unfold stoul. destruct (scan_integer 10 (c_str s)) as [[neg n]|]; mem_free_auto.
Qed.

Lemma object_members_outside n : forall u js,
  object_members n (put_outside u js) = object_members n js.
Proof.
  induction n as [|n IH]; intros u js; [reflexivity|].
  cbn [object_members]. rewrite (mem_free_in_good u js).
  destruct (in_good js) as [[] js0|?|? ?| |]; cbn [map_state]; try reflexivity.
  rewrite (mem_free_readLine true u js0).
  destruct (readLine true js0) as [l js1|?|? ?| |]; cbn [map_state]; try reflexivity.
  rewrite (mem_free_stoul (token2 l) u js1).
  destruct (stoul (token2 l) js1) as [id js2|?|? ?| |] eqn:S; cbn [map_state];
    rewrite ?IH; reflexivity.
Qed.

Lemma object_members_mem n g js : object_members n (set_mem g js) = object_members n js.
Proof. apply (object_members_outside n (Mem g)). Qed.

Lemma object_members_ids n i js :
  object_members n (set_id_to_object_ i js) = object_members n js.
Proof. apply (object_members_outside n (Ids i)). Qed.

(** The loop of [readObject] on a map whose mapped values are read from
    one token. *)
Lemma readObject_loop_members rv_fuel rp ra E a n : forall js js' r entries,
  is_scalar E = true ->
  cells (mem js) !! a = Some (VMap entries) -> a < brk (mem js) ->
  map_wf a entries (mem js) ->
  readObject_loop classes_ typeinfo (readValue classes_ typeinfo rv_fuel) rp ra n
    (Some (MapClass E)) (MapClass E) None a js = Ret r js' ->
  exists members, object_members n js = Some members
                  /\ holds_entries E a members entries (mem js) (mem js').
Proof.
  induction n as [|n IH]; intros js js' r entries Hs Hc Hlt Hw H; [discriminate H|].
  rewrite readObject_loop_S in H. cbn [object_members].
  apply bind_Ret_inv in H as (ok & js0 & H0 & H). rewrite H0.
  pose proof (mem_free_mem _ _ _ _ mem_free_in_good H0) as M0.
  destruct ok; cbn [negb] in H; [|discriminate H].
  apply bind_Ret_inv in H as (l & js1 & H1 & H). rewrite H1.
  pose proof (mem_free_mem _ _ _ _ (mem_free_readLine true) H1) as M1.
  cbv zeta in H |- *.
  apply bind_Ret_inv in H as ([] & js2 & G1 & H).
  destruct (negb (found1 l)); [discriminate G1|].
  destruct (negb (found2 l) && negb (String.eqb (token1 l) "}")); [discriminate G1|].
  injection G1 as <-.
  apply bind_Ret_inv in H as ([] & js2 & G2 & H).
  destruct (ch_eq (front (token1 l)) "@" && negb (String.eqb (token1 l) "@class")
            && negb (String.eqb (token1 l) "@id")); [discriminate G2|].
  injection G2 as <-.
  cbn [pin_class] in H. rewrite (bind_Ret _ _ js1 (MapClass E, a, false) js1) in H
    by reflexivity.
  cbv iota beta in H.
  rewrite <- M0, <- M1 in Hc, Hlt, Hw |- *.
  destruct (String.eqb (token1 l) "}").
  { cbn [doPostRead] in H. injection H as <- <-.
    exists []. split; [reflexivity|]. by apply holds_entries_nil. }
  destruct (String.eqb (token1 l) "@id").
  { apply bind_Ret_inv in H as (id & js2 & H2 & H). rewrite H2.
    apply stoul_inv in H2 as ->.
    apply bind_Ret_inv in H as ([] & js3 & H3 & H). injection H3 as <-.
    apply (IH (set_id_to_object_ (<[id := a]> (id_to_object_ js1)) js1) _ _ entries
             Hs Hc Hlt Hw) in H as (members & T & A).
    exists members. split; [|exact A].
    by rewrite object_members_ids in T. }
  apply bind_Ret_inv in H as ([] & js2 & H2 & H).
  apply read_member_or_warn_map in H2.
  apply (readMember_entry _ _ _ _ _ _ _ _ entries Hs Hc Hlt Hw) in H2
    as (E2 & entries1 & R).
  pose proof R as (C1 & B1 & W1 & _).
  apply (IH _ _ _ entries1 Hs C1) in H as (members & T & A); [|lia|exact W1].
  exists ((token1 l, token2 l) :: members). split.
  - rewrite E2, object_members_mem in T. by rewrite T.
  - by eapply holds_entries_cons.
Qed.

Lemma readMember_entry_run fuel E a key val v js entries :
  is_scalar E = true -> parses_as E val v ->
  cells (mem js) !! a = Some (VMap entries) ->
  exists js',
    MapClass_readMember typeinfo (readValue classes_ typeinfo (S fuel)) E a key val js
    = Ret true js'.
Proof.
  intros Hs P Hc. unfold MapClass_readMember.
  rewrite (bind_Ret _ _ js entries js)
    by (unfold load_map, load, bind; rewrite Hc; reflexivity).
  destruct (construct_scalar E Hs) as [Hsz [d Hd]].
  destruct (map_find key entries) as [p|].
  - rewrite (bind_Ret _ _ js p js) by reflexivity.
    rewrite (bind_Ret _ _ _ _ _ (Hd p js)).
    rewrite (bind_Ret _ _ _ _ _ (readValue_parses classes_ typeinfo fuel E p val v _ Hs P)).
    by eexists.
  - rewrite (bind_Ret _ _ js (brk (mem js))
               (set_mem {| cells := <[a := VMap (map_insert key (brk (mem js)) entries)]>
                                      (cells (mem js));
                           brk := brk (mem js) + size_of typeinfo E |} js))
      by reflexivity.
    rewrite (bind_Ret _ _ _ _ _ (Hd _ _)).
    rewrite (bind_Ret _ _ _ _ _ (readValue_parses classes_ typeinfo fuel E _ val v _ Hs P)).
    by eexists.
Qed.

Lemma readObject_loop_returns fuel rp ra E a n : forall js members entries,
  is_scalar E = true ->
  cells (mem js) !! a = Some (VMap entries) -> a < brk (mem js) ->
  map_wf a entries (mem js) ->
  object_members n js = Some members ->
  Forall (fun kv => exists v, parses_as E (snd kv) v) members ->
  exists js',
    readObject_loop classes_ typeinfo (readValue classes_ typeinfo (S fuel)) rp ra n
      (Some (MapClass E)) (MapClass E) None a js = Ret a js'.
Proof.
  induction n as [|n IH]; intros js members entries Hs Hc Hlt Hw T P; [discriminate T|].
  rewrite readObject_loop_S. cbn [object_members] in T.
  destruct (in_good js) as [ok js0|?|? ?| |] eqn:H0; try discriminate T.
  rewrite (bind_Ret _ _ _ _ _ H0).
  pose proof (mem_free_mem _ _ _ _ mem_free_in_good H0) as M0.
  destruct ok; cbn [negb]; [|discriminate T].
  destruct (readLine true js0) as [l js1|?|? ?| |] eqn:H1; try discriminate T.
  rewrite (bind_Ret _ _ _ _ _ H1).
  pose proof (mem_free_mem _ _ _ _ (mem_free_readLine true) H1) as M1.
  cbv zeta in T |- *.
  destruct (negb (found1 l)); [discriminate T|].
  destruct (negb (found2 l) && negb (String.eqb (token1 l) "}")); [discriminate T|].
  rewrite (bind_Ret _ _ js1 tt js1) by reflexivity.
  destruct (ch_eq (front (token1 l)) "@" && negb (String.eqb (token1 l) "@class")
            && negb (String.eqb (token1 l) "@id")); [discriminate T|].
  rewrite (bind_Ret _ _ js1 tt js1) by reflexivity.
  cbn [pin_class]. rewrite (bind_Ret _ _ js1 (MapClass E, a, false) js1) by reflexivity.
  cbv iota beta.
  rewrite <- M0, <- M1 in Hc, Hlt, Hw.
  destruct (String.eqb (token1 l) "}"); [by eexists|].
  destruct (String.eqb (token1 l) "@id").
  { destruct (stoul (token2 l) js1) as [id js2|?|? ?| |] eqn:H2; try discriminate T.
    rewrite (bind_Ret _ _ _ _ _ H2). apply stoul_inv in H2 as ->.
    rewrite (bind_Ret _ _ js1 tt (set_id_to_object_ (<[id := a]> (id_to_object_ js1)) js1))
      by reflexivity.
    apply (IH (set_id_to_object_ (<[id := a]> (id_to_object_ js1)) js1)
             members entries Hs Hc Hlt Hw); [|exact P].
    by rewrite object_members_ids. }
  destruct (object_members n js1) as [members'|] eqn:T'; [|discriminate T].
  injection T as <-. inversion P as [|? ? [v Pv] P']; subst.
  destruct (readMember_entry_run fuel E a (token1 l) (token2 l) v js1 entries Hs Pv Hc)
    as [js2 H2].
  assert (W2 : read_member_or_warn typeinfo (readValue classes_ typeinfo (S fuel)) rp ra
                 (MapClass E) a (token1 l) (token2 l) js1 = Ret tt js2).
  { unfold read_member_or_warn, catch_invalid_argument, readMember, bind.
    by rewrite H2. }
  rewrite (bind_Ret _ _ _ _ _ W2).
  apply (readMember_entry _ _ _ _ _ _ _ _ entries Hs Hc Hlt Hw) in H2
    as (E2 & entries1 & C1 & B1 & W1 & _).
  apply (IH js2 members' entries1 Hs C1); [lia|exact W1| |exact P'].
  by rewrite E2, object_members_mem.
Qed.


End MapRead.

(** ** Strings: what [writeString] writes is what [readLine] reads *)

Lemma escape_head c r :
  writable c = true ->
  (quotable c = true /\ escape (String c r) = String c (escape r))
  \/ (exists x, escape (String c r) = String BSLASH (String x (escape r))
                /\ ch_eq x LF = false /\ iscntrl x = false
                /\ unescape (Some x) = c).
Proof.
  destruct c as [[] [] [] [] [] [] [] []]; intros H;
    first [ discriminate H
          | left; split; reflexivity
          | right; eexists; repeat split; reflexivity ].
Qed.

Lemma all_writable_c_str s : all_writable s = true -> c_str s = s.
Proof.
  induction s as [|c s IH]; [reflexivity|].
  cbn [all_writable c_str]. intros H. apply andb_true_iff in H as [Hc Hs].
  destruct (ch_eq c NUL) eqn:E.
  - apply Ascii.eqb_eq in E. subst c. discriminate Hc.
  - by rewrite IH.
Qed.

Lemma before_switch_in_quotes2 lp c js :
  iscntrl c = false ->
  before_switch InQuotedToken2 lp c js = Ret (InQuotedToken2, lp, c) js.
Proof.
  intros Hc. unfold before_switch.
  rewrite (cntrl_not_LF _ Hc), Hc. mrun. rewrite andb_false_r. reflexivity.
Qed.

(** The loop in [InQuotedToken1] over an escaped string: one turn for each
    character of the string, up to the closing quote. *)
Lemma quoted1_escaped s : forall acc fuel inObj lp l js rest,
  in_ js = Some (stream (escape s +:+ String DQUOTE rest)) ->
  token1_ js = acc ->
  all_writable s = true ->
  readLine_loop (String.length s + 1 + fuel) inObj InQuotedToken1 lp l js
  = readLine_loop fuel inObj AfterToken1 lp (set_token1 (acc +:+ s) l)
      (set_token1_ (acc +:+ s) (set_in_ (Some (stream rest)) js)).
Proof.
  induction s as [|c w IH]; intros acc fuel inObj lp l js rest Hin Ht Hp; subst acc.
  - change (escape "" +:+ String DQUOTE rest) with (String DQUOTE rest) in Hin.
    rewrite append_nil_r.
    cbn [String.length Nat.add]. rewrite readLine_loop_S. mrun.
    rewrite (in_get_cons _ _ _ Hin).
    rewrite before_switch_in_quotes1 by reflexivity.
    cbn [switch_part]. mrun.
    change (ch_eq DQUOTE DQUOTE) with true. mrun.
    destruct js; reflexivity.
  - cbn [all_writable] in Hp. apply andb_true_iff in Hp as [Hc Hp].
    cbn [String.length Nat.add]. rewrite readLine_loop_S.
    destruct (escape_head c w Hc) as [[Hq E]|(x & E & Hx1 & Hx2 & Hu)];
      rewrite E in Hin.
    + apply quotable_inv in Hq as (H1 & H2 & H3).
      change (String c (escape w) +:+ String DQUOTE rest)
        with (String c (escape w +:+ String DQUOTE rest)) in Hin.
      mrun. rewrite (in_get_cons _ _ _ Hin).
      rewrite before_switch_in_quotes1 by assumption.
      cbn [switch_part]. rewrite H1, H2. mrun.
      rewrite in_quotes_invalid_no by assumption. mrun.
      erewrite IH; [|reflexivity|reflexivity|assumption].
      mrun. unfold push_back. rewrite append_assoc_1. destruct js; reflexivity.
    + change (String BSLASH (String x (escape w)) +:+ String DQUOTE rest)
        with (String BSLASH (String x (escape w +:+ String DQUOTE rest))) in Hin.
      mrun. rewrite (in_get_cons _ _ _ Hin).
      rewrite before_switch_in_quotes1 by reflexivity.
      cbn [switch_part]. change (ch_eq BSLASH DQUOTE) with false.
      change (ch_eq BSLASH BSLASH) with true. cbv iota.
      unfold readEscape1. mrun. rewrite Hu.
      erewrite IH; [|reflexivity|reflexivity|assumption].
      mrun. unfold push_back. rewrite append_assoc_1. destruct js; reflexivity.
Qed.

Lemma escape_length s : exists k, String.length (escape s) = (String.length s + k)%nat.
Proof.
  induction s as [|c s [k IH]]; [by exists O|].
  cbn [escape].
  repeat match goal with |- context [if ?b then _ else _] => destruct b end;
    cbn [String.length]; rewrite IH; (by exists (S k); lia) || (by exists k; lia).
Qed.

(** A quoted token, as an element of an array or alone, up to the comma
    that follows it. *)
Lemma read_quoted_token inObj js s rest :
  in_ js = Some (stream (String DQUOTE (escape s +:+ String DQUOTE (String "," rest)))) ->
  all_writable s = true ->
  readLine inObj js
  = Ret {| token1 := s; token2 := ""; found1 := true; found2 := false |}
      (set_token1_ s (set_token2_ "" (set_in_ (Some (stream rest)) js))).
Proof.
  intros Hin Hs.
  unfold readLine. mrun. unfold remaining. rewrite Hin.
  cbn [buf stream String.length]. rewrite readLine_loop_S. mrun.
  rewrite (in_get_cons _ DQUOTE _) by (mcbn; exact Hin).
  rewrite before_switch_plain by reflexivity.
  cbn [switch_part]. change (ch_eq DQUOTE DQUOTE) with true. mrun.
  rewrite length_append. cbn [String.length].
  destruct (escape_length s) as [k Hk]. rewrite Hk.
  replace (S (String.length s + k + S (S (String.length rest))))%nat
    with (String.length s + 1 + S (k + S (String.length rest)))%nat by lia.
  erewrite quoted1_escaped; [|mcbn; reflexivity|reflexivity|assumption].
  mrun. rewrite readLine_loop_S. mrun.
  rewrite before_switch_plain by reflexivity.
  cbn [switch_part]. mrun. rewrite separator_comma. mrun.
  destruct js; reflexivity.
Qed.

(** A string without control characters other than those that
    [writeString] escapes is written as a quoted token that [readLine]
    reads back as the same string: the escapes are undone, the quotes are
    dropped and nothing else is taken from the stream but the comma. *)
Theorem written_string_is_read_back
    (s : string) (is_cstring : bool) (jsw : JsonSerial) (o : string) :
  all_writable s = true -> out_ jsw = Some o ->
  exists w,
    writeString (Some s) is_cstring jsw
    = Ret tt (set_needcomma_ true (set_out_ (Some (o +:+ w)) jsw))
    /\ forall (js : JsonSerial) (inObj : bool) (rest : string),
         in_ js = Some (stream (w +:+ String "," rest)) ->
         readLine inObj js
         = Ret {| token1 := s; token2 := ""; found1 := true; found2 := false |}
             (set_token1_ s (set_token2_ "" (set_in_ (Some (stream rest)) js))).
Proof.
  intros Hs Ho. exists (str1 DQUOTE +:+ escape s +:+ str1 DQUOTE). split.
  - unfold writeString, put, bind, modify. rewrite Ho, (all_writable_c_str s Hs).
    reflexivity.
  - intros js inObj rest Hin. apply read_quoted_token; [|exact Hs].
    rewrite Hin. do 2 f_equal.
    change (str1 DQUOTE +:+ escape s +:+ str1 DQUOTE)
      with (String DQUOTE (escape s +:+ str1 DQUOTE)).
    change (String DQUOTE (escape s +:+ str1 DQUOTE) +:+ String "," rest)
      with (String DQUOTE ((escape s +:+ str1 DQUOTE) +:+ String "," rest)).
    by rewrite append_assoc_1.
Qed.

(** The same loop over an escaped prefix of the stream. *)
Lemma quoted1_prefix s : forall acc fuel inObj lp l js tail,
  in_ js = Some (stream (escape s +:+ tail)) ->
  token1_ js = acc ->
  all_writable s = true ->
  readLine_loop (String.length s + fuel) inObj InQuotedToken1 lp l js
  = readLine_loop fuel inObj InQuotedToken1 lp l
      (set_token1_ (acc +:+ s) (set_in_ (Some (stream tail)) js)).
Proof.
  induction s as [|c w IH]; intros acc fuel inObj lp l js tail Hin Ht Hp; subst acc.
  - change (escape "" +:+ tail) with tail in Hin. rewrite append_nil_r.
    cbn [String.length Nat.add]. f_equal. destruct js; cbn in *. by rewrite Hin.
  - cbn [all_writable] in Hp. apply andb_true_iff in Hp as [Hc Hp].
    cbn [String.length Nat.add]. rewrite readLine_loop_S.
    destruct (escape_head c w Hc) as [[Hq E]|(x & E & Hx1 & Hx2 & Hu)];
      rewrite E in Hin.
    + apply quotable_inv in Hq as (H1 & H2 & H3).
      change (String c (escape w) +:+ tail) with (String c (escape w +:+ tail)) in Hin.
      mrun. rewrite (in_get_cons _ _ _ Hin).
      rewrite before_switch_in_quotes1 by assumption.
      cbn [switch_part]. rewrite H1, H2. mrun.
      rewrite in_quotes_invalid_no by assumption. mrun.
      erewrite IH; [|reflexivity|reflexivity|assumption].
      mrun. unfold push_back. rewrite append_assoc_1. destruct js; reflexivity.
    + change (String BSLASH (String x (escape w)) +:+ tail)
        with (String BSLASH (String x (escape w +:+ tail))) in Hin.
      mrun. rewrite (in_get_cons _ _ _ Hin).
      rewrite before_switch_in_quotes1 by reflexivity.
      cbn [switch_part]. change (ch_eq BSLASH DQUOTE) with false.
      change (ch_eq BSLASH BSLASH) with true. cbv iota.
      unfold readEscape1. mrun. rewrite Hu.
      erewrite IH; [|reflexivity|reflexivity|assumption].
      mrun. unfold push_back. rewrite append_assoc_1. destruct js; reflexivity.
Qed.

Lemma escape_app s t : escape (s +:+ t) = escape s +:+ escape t.
Proof.
  induction s as [|c s IH]; [reflexivity|].
  change (String c s +:+ t) with (String c (s +:+ t)). cbn [escape]. rewrite IH.
  repeat match goal with |- context [if ?b then _ else _] => destruct b end; reflexivity.
Qed.

Lemma c_str_app s c t :
  all_writable s = true -> ch_eq c NUL = false ->
  c_str (s +:+ String c t) = s +:+ String c (c_str t).
Proof.
  intros Hs Hc. induction s as [|d s IH].
  - change ("" +:+ String c t) with (String c t). cbn [c_str]. by rewrite Hc.
  - cbn [all_writable] in Hs. apply andb_true_iff in Hs as [Hd Hs].
    change (String d s +:+ String c t) with (String d (s +:+ String c t)).
    cbn [c_str]. destruct (ch_eq d NUL) eqn:E.
    + apply Ascii.eqb_eq in E. subst d. discriminate Hd.
    + by rewrite IH.
Qed.

Lemma raw_control_character c r :
  iscntrl c = true -> writable c = false ->
  escape (String c r) = String c (escape r)
  /\ ch_eq c LF = false /\ ch_eq c CR = false /\ ch_eq c TAB = false
  /\ ch_eq c DQUOTE = false /\ ch_eq c BSLASH = false.
Proof.
  destruct c as [[] [] [] [] [] [] [] []]; intros H1 H2;
    first [discriminate H1 | discriminate H2 | repeat split; reflexivity].
Qed.

Lemma before_switch_quotes1_space lp c js :
  ch_eq c LF = false -> isspace c = true ->
  before_switch InQuotedToken1 lp c js = Ret (InQuotedToken1, lp, c) js.
Proof.
  intros H1 H2. unfold before_switch. rewrite H1, H2, andb_false_r.
  mrun. rewrite andb_false_r. reflexivity.
Qed.

(** A control character that [writeString] does not escape is written as
    it is, and the tokenizer refuses it inside the quotes: the read of what
    was written fails with InvalidCharacter. (A white space character is
    taken when Newlines is allowed.) *)
Theorem raw_control_character_is_refused
    (pre post : string) (c : ascii) (is_cstring : bool) (jsw : JsonSerial) (o : string) :
  all_writable pre = true ->
  iscntrl c = true -> writable c = false -> ch_eq c NUL = false ->
  out_ jsw = Some o ->
  writeString (Some (pre +:+ String c post)) is_cstring jsw
  = Ret tt (set_needcomma_ true
              (set_out_ (Some (o +:+ str1 DQUOTE +:+ escape pre
                               +:+ String c (escape (c_str post)) +:+ str1 DQUOTE)) jsw))
  /\ forall (js : JsonSerial) (inObj : bool) (tail : string),
       in_ js = Some (stream (String DQUOTE (escape pre +:+ String c tail))) ->
       isspace c = false \/ allows js Newlines = false ->
       readLine inObj js
       = Throw (raised JsonError.InvalidCharacter
                  ("(code: " +:+ pretty (code c) +:+ ")") true
                  (set_token1_ pre (set_token2_ "" (set_in_ (Some (stream tail)) js)))).
Proof.
  intros Hpre Hc Hw Hnul Ho.
  destruct (raw_control_character c (c_str post) Hc Hw) as (E & N1 & N2 & N3 & N4 & N5).
  split.
  - unfold writeString, put, bind, modify. rewrite Ho.
    rewrite (c_str_app _ _ _ Hpre Hnul), escape_app, E.
    do 3 f_equal. by rewrite !append_assoc.
  - intros js inObj tail Hin Hnl.
    unfold readLine. mrun. unfold remaining. rewrite Hin.
    cbn [buf stream String.length]. rewrite readLine_loop_S. mrun.
    rewrite (in_get_cons _ DQUOTE _) by (mcbn; exact Hin).
    rewrite before_switch_plain by reflexivity.
    cbn [switch_part]. change (ch_eq DQUOTE DQUOTE) with true. mrun.
    rewrite length_append. cbn [String.length].
    destruct (escape_length pre) as [k Hk]. rewrite Hk.
    replace (S (String.length pre + k + S (String.length tail)))%nat
      with (String.length pre + S (S (k + String.length tail)))%nat by lia.
    erewrite quoted1_prefix; [|mcbn; reflexivity|reflexivity|assumption].
    rewrite readLine_loop_S. mrun.
    destruct (isspace c) eqn:Hsp.
    + destruct Hnl as [?|Hnl]; [discriminate|].
      rewrite before_switch_quotes1_space by assumption.
      cbn [switch_part]. rewrite N4, N5. unfold in_quotes_invalid, allows in *. mrun.
      rewrite Hnl, Hc, Hsp. mrun.
      unfold INVALID_CHAR. rewrite N1, N2, N3. unfold error. mrun.
      destruct js; reflexivity.
    + unfold before_switch. rewrite N1, Hc, Hsp. cbn [negb andb].
      unfold INVALID_CHAR. rewrite N1, N2, N3. unfold error. mrun.
      destruct js; reflexivity.
Qed.

(** ** Numbers: what [operator<<] writes is what [stoi], [stoul] and
    [strtoul] read *)

Lemma pretty_N_char_digit d :
  (d < 10)%N ->
  isdigit (pretty_N_char d) = true
  /\ digit_of (pretty_N_char d) = Some (Z.of_N d)
  /\ (ch_eq (pretty_N_char d) "0" = true -> d = 0%N).
Proof.
  intros H.
  assert (d = 0 \/ d = 1 \/ d = 2 \/ d = 3 \/ d = 4 \/ d = 5 \/ d = 6 \/ d = 7
          \/ d = 8 \/ d = 9)%N as Hd by lia.
  repeat (destruct Hd as [->|Hd]); try subst d;
    (split; [reflexivity|split; [reflexivity|]]); intros E;
    try reflexivity; vm_compute in E; discriminate E.
Qed.

Lemma isdigit_facts c :
  isdigit c = true ->
  isspace c = false /\ ch_eq c "-" = false /\ ch_eq c "+" = false
  /\ ch_eq c NUL = false /\ plain c = true /\ starts_bare c = true
  /\ ch_eq c "." = false /\ exists d, digit_of c = Some d /\ 0 <= d < 10.
Proof.
  destruct c as [[] [] [] [] [] [] [] []]; intros H; try discriminate H;
    repeat split; try reflexivity; eexists; (split; [reflexivity|]); vm_compute;
    split; (discriminate || reflexivity).
Qed.

Lemma pretty_N_go_digits x : forall s,
  all_digits s = true -> all_digits (pretty_N_go x s) = true.
Proof.
  induction (N.lt_wf_0 x) as [x _ IH]; intros s Hs.
  assert (x = 0 \/ 0 < x)%N as [->|Hx] by lia; [by rewrite pretty_N_go_0|].
  rewrite pretty_N_go_step by done. apply IH; [by apply N.div_lt|].
  cbn [all_digits]. rewrite Hs, andb_true_r.
  apply pretty_N_char_digit. by apply N.mod_lt.
Qed.

(** The first digit of a positive number is not 0. *)
Lemma pretty_N_go_head x : forall s,
  (0 < x)%N ->
  exists d r, (0 < d < 10)%N /\ pretty_N_go x s = String (pretty_N_char d) r.
Proof.
  induction (N.lt_wf_0 x) as [x _ IH]; intros s Hx.
  rewrite pretty_N_go_step by done.
  destruct (N.eq_0_gt_0_cases (x `div` 10)) as [E|Hq].
  - rewrite E, pretty_N_go_0. exists (x `mod` 10)%N, s. split; [|done].
    pose proof (N.div_mod x 10 ltac:(done)). pose proof (N.mod_lt x 10 ltac:(done)). lia.
  - apply IH; [by apply N.div_lt|done].
Qed.

Lemma scan_digits_pretty_go x : forall s,
  (0 < x)%N ->
  scan_digits 10 (pretty_N_go x s) None = scan_digits 10 s (Some (Z.of_N x)).
Proof.
  induction (N.lt_wf_0 x) as [x _ IH]; intros s Hx.
  rewrite pretty_N_go_step by done.
  pose proof (N.div_mod x 10 ltac:(done)) as Hdm.
  pose proof (N.mod_lt x 10 ltac:(done)) as Hm.
  destruct (pretty_N_char_digit _ Hm) as (_ & Hd & _).
  destruct (N.eq_0_gt_0_cases (x `div` 10)) as [E|Hq].
  - rewrite E, pretty_N_go_0. cbn [scan_digits]. rewrite Hd.
    replace (Z.of_N (x `mod` 10) <? 10) with true by (symmetry; apply Z.ltb_lt; lia).
    do 2 f_equal. lia.
  - rewrite IH by (by apply N.div_lt || done). cbn [scan_digits]. rewrite Hd.
    replace (Z.of_N (x `mod` 10) <? 10) with true by (symmetry; apply Z.ltb_lt; lia).
    do 2 f_equal. lia.
Qed.

Lemma scan_digits_nil base acc : scan_digits base "" acc = acc.
Proof. reflexivity. Qed.

(** The decimal digits of a natural number, and the number they denote. *)
Lemma scan_integer_pretty_N (x : N) :
  scan_integer 10 (pretty x) = Some (false, Z.of_N x).
Proof.
  unfold pretty, pretty_N. destruct (decide (x = 0%N)) as [->|Hx]; [reflexivity|].
  assert (0 < x)%N as Hpos by lia.
  destruct (pretty_N_go_head x "" Hpos) as (d & r & Hd & E).
  pose proof (scan_digits_pretty_go x "" Hpos) as S. rewrite E in S |- *.
  destruct (pretty_N_char_digit d ltac:(lia)) as (D & _ & _).
  destruct (isdigit_facts _ D) as (F1 & F2 & F3 & _).
  unfold scan_integer. cbn [skip_space]. rewrite F1. cbv zeta. rewrite F2, F3.
  cbn [Z.eqb]. cbv iota beta. by rewrite S.
Qed.

(** Strings of digits. *)
Lemma all_digits_facts s :
  all_digits s = true ->
  c_str s = s /\ rstrip s = s /\ all_plain s = true
  /\ forall d e, isNumber_scan s d e = true.
Proof.
  induction s as [|c s IH]; intros H; [repeat split; reflexivity|].
  cbn [all_digits] in H. apply andb_true_iff in H as [Hc Hs].
  destruct (IH Hs) as (I1 & I2 & I3 & I4).
  destruct (isdigit_facts _ Hc) as (F1 & F2 & F3 & F4 & F5 & F6 & F7 & _).
  repeat split.
  - cbn [c_str]. by rewrite F4, I1.
  - cbn [rstrip]. by rewrite I2, F1, andb_false_r.
  - cbn [all_plain]. by rewrite F5, I3.
  - intros d e. cbn [isNumber_scan]. by rewrite Hc.
Qed.

Lemma pretty_N_digits (x : N) : all_digits (pretty x) = true /\ pretty x <> "".
Proof.
  unfold pretty, pretty_N. destruct (decide (x = 0%N)) as [->|Hx]; [done|].
  split; [by apply pretty_N_go_digits|].
  destruct (pretty_N_go_head x "") as (d & r & _ & E); [lia|]. by rewrite E.
Qed.

(** The form of a written integer: a sign and digits that denote its
    magnitude. *)
Lemma pretty_Z_shape (n : Z) :
  exists ds, all_digits ds = true /\ ds <> ""
             /\ pretty n = (if n <? 0 then "-" else "") +:+ ds
             /\ scan_integer 10 ds = Some (false, Z.abs n).
Proof.
  destruct n as [|p|p].
  - exists "0". repeat split; done.
  - exists (pretty (N.pos p)). destruct (pretty_N_digits (N.pos p)) as [D N0].
    repeat split; try done. by rewrite scan_integer_pretty_N.
  - exists (pretty (N.pos p)). destruct (pretty_N_digits (N.pos p)) as [D N0].
    repeat split; try done. by rewrite scan_integer_pretty_N.
Qed.

Lemma scan_integer_digits base ds :
  all_digits ds = true -> ds <> "" -> base <> 0 ->
  scan_integer base ds = match scan_digits base ds None with
                         | Some n => Some (false, n)
                         | None => None
                         end.
Proof.
  intros D N0 Hb. destruct ds as [|c r]; [done|].
  cbn [all_digits] in D. apply andb_true_iff in D as [Hc _].
  destruct (isdigit_facts _ Hc) as (F1 & F2 & F3 & _).
  unfold scan_integer. cbn [skip_space]. rewrite F1. cbv zeta. rewrite F2, F3.
  apply Z.eqb_neq in Hb. rewrite Hb. reflexivity.
Qed.

Lemma scan_integer_minus base ds :
  all_digits ds = true -> ds <> "" -> base <> 0 ->
  scan_integer base ("-" +:+ ds) = match scan_digits base ds None with
                                   | Some n => Some (true, n)
                                   | None => None
                                   end.
Proof.
  intros D N0 Hb. unfold scan_integer.
  change ("-" +:+ ds) with (String "-" ds). cbn [skip_space].
  change (isspace "-") with false. cbv iota zeta.
  change (ch_eq "-" "-") with true. cbv iota.
  apply Z.eqb_neq in Hb. rewrite Hb. reflexivity.
Qed.

Lemma scan_integer_pretty_Z (n : Z) :
  scan_integer 10 (pretty n) = Some (n <? 0, Z.abs n).
Proof.
  destruct (pretty_Z_shape n) as (ds & D & N0 & E & S). rewrite E.
  rewrite (scan_integer_digits 10 ds D N0) in S by done.
  destruct (n <? 0).
  - rewrite (scan_integer_minus 10 ds D N0) by done.
    destruct (scan_digits 10 ds None); congruence.
  - change ("" +:+ ds) with ds. rewrite (scan_integer_digits 10 ds D N0) by done.
    destruct (scan_digits 10 ds None); congruence.
Qed.

Lemma pretty_Z_c_str (n : Z) : c_str (pretty n) = pretty n.
Proof.
  destruct (pretty_Z_shape n) as (ds & D & _ & E & _). rewrite E.
  destruct (all_digits_facts ds D) as (C & _).
  destruct (n <? 0); [|exact C].
  change ("-" +:+ ds) with (String "-" ds). cbn [c_str].
  change (ch_eq "-" NUL) with false. by rewrite C.
Qed.

(** [stoi] on a written integer. *)
Lemma stoi_pretty (n : Z) js :
  stoi (pretty n) js
  = if (n <? - 2^31) || (2^31 <=? n) then StdThrow out_of_range js else Ret n js.
Proof.
  unfold stoi. rewrite pretty_Z_c_str, scan_integer_pretty_Z.
  replace (if n <? 0 then - Z.abs n else Z.abs n) with n
    by (destruct (Z.ltb_spec n 0); lia).
  destruct ((n <? - 2^31) || (2^31 <=? n)); reflexivity.
Qed.

Lemma stoul_pretty (n : Z) js :
  0 <= n < 2^64 -> stoul (pretty n) js = Ret n js.
Proof.
  intros H. unfold stoul. rewrite pretty_Z_c_str, scan_integer_pretty_Z.
  replace (n <? 0) with false by (symmetry; apply Z.ltb_ge; lia).
  replace (2^64 <=? Z.abs n) with false by (symmetry; apply Z.leb_gt; lia).
  unfold ret. f_equal. lia.
Qed.

Lemma strtoul_pretty (n : Z) : 0 <= n < 2^64 -> strtoul (pretty n) = n.
Proof.
  intros H. destruct n as [|p|p]; [reflexivity| |lia].
  change (pretty (Z.pos p)) with (pretty_N_go (N.pos p) "").
  destruct (pretty_N_go_head (N.pos p) "") as (d & r & Hd & E); [lia|].
  pose proof (scan_digits_pretty_go (N.pos p) "" ltac:(lia)) as S.
  rewrite E in S |- *.
  destruct (pretty_N_char_digit d ltac:(lia)) as (D & _ & Z0).
  destruct (isdigit_facts _ D) as (F1 & F2 & F3 & _).
  assert (ch_eq (pretty_N_char d) "0" = false) as Hz.
  { destruct (ch_eq (pretty_N_char d) "0"); [|done]. specialize (Z0 eq_refl). lia. }
  assert (scan_integer 0 (String (pretty_N_char d) r) = Some (false, Z.pos p)) as SI.
  { unfold scan_integer. cbn [skip_space]. rewrite F1. cbv zeta. rewrite F2, F3.
    cbn [Z.eqb]. cbv iota beta.
    destruct r as [|x [|h r']]; rewrite Hz; cbn [andb]; cbv iota beta; by rewrite S. }
  unfold strtoul. rewrite SI.
  replace (2^64 <=? Z.pos p) with false by (symmetry; apply Z.leb_gt; lia).
  reflexivity.
Qed.

Lemma trimRight_no_space s : rstrip s = s -> trimRight s = s.
Proof. intros H. unfold trimRight. rewrite H. by destruct (empty s). Qed.

(** A written integer as a bare token. *)
Lemma pretty_Z_token (n : Z) :
  exists c w, pretty n = String c w /\ starts_bare c = true /\ all_plain w = true
              /\ trimRight (pretty n) = pretty n /\ isNumber (pretty n) = true.
Proof.
  destruct (pretty_Z_shape n) as (ds & D & N0 & E & _). rewrite E.
  destruct (all_digits_facts ds D) as (C & R & P & I).
  destruct (n <? 0).
  - exists "-"%char, ds. change ("-" +:+ ds) with (String "-" ds).
    split; [done|]. split; [done|]. split; [done|]. split.
    + apply trimRight_no_space. cbn [rstrip]. rewrite R.
      change (isspace "-") with false. by rewrite andb_false_r.
    + unfold isNumber. cbn [empty c_str]. change (ch_eq "-" NUL) with false.
      cbv iota zeta. change (ch_eq "-" "-") with true. cbv iota. rewrite C. apply I.
  - change ("" +:+ ds) with ds. destruct ds as [|c w]; [done|].
    pose proof D as D'. cbn [all_digits] in D'. apply andb_true_iff in D' as [Hc Hw].
    destruct (isdigit_facts _ Hc) as (F1 & F2 & F3 & F4 & F5 & F6 & _).
    destruct (all_digits_facts w Hw) as (_ & _ & Pw & _).
    exists c, w. split; [done|]. split; [done|]. split; [done|]. split.
    + by apply trimRight_no_space.
    + unfold isNumber. cbn [empty]. rewrite C. cbv zeta. rewrite F2. apply I.
Qed.

Lemma readScalar_int_pretty (n : Z) js :
  - 2^31 <= n < 2^31 -> readScalar TInt (pretty n) js = Ret (VInt n) js.
Proof.
  intros H. cbn [readScalar]. unfold bind. rewrite stoi_pretty.
  replace ((n <? - 2^31) || (2^31 <=? n)) with false; [reflexivity|].
  symmetry. apply orb_false_iff. split; [apply Z.ltb_ge|apply Z.leb_gt]; lia.
Qed.


(** A number that does not fit an [int] makes [stoi] throw
    [std::out_of_range]. *)
Lemma readScalar_out_of_range (n : Z) js :
  n < - 2^31 \/ 2^31 <= n ->
  readScalar TInt (pretty n) js = StdThrow out_of_range js.
Proof.
  intros H. cbn [readScalar]. unfold bind. rewrite stoi_pretty.
  replace ((n <? - 2^31) || (2^31 <=? n)) with true; [reflexivity|].
  symmetry. apply orb_true_iff. destruct H; [left; apply Z.ltb_lt|right; apply Z.leb_le]; lia.
Qed.

(** ** The reader: numbers, references to shared objects *)

Lemma starts_no_number_scan s :
  starts_no_number s = true -> scan_integer 10 (c_str s) = None.
Proof.
  destruct s as [|c r]; [reflexivity|].
  destruct c as [[] [] [] [] [] [] [] []]; intros H;
    first [discriminate H | reflexivity].
Qed.

Section ReaderValues.

Variable classes_ : JsonClasses.
Variable typeinfo : string -> TypeInfo.

(** The value of an [int] member. A written integer that fits is
    assigned. One that does not fit makes [stoi] throw
    [std::out_of_range], which [readObject] does not catch: it leaves the
    reader as a C++ exception. A token that is no number makes [stoi]
    throw [std::invalid_argument], which [readObject] turns into the fatal
    error InvalidValue, with the token and the name of the member. *)
Theorem int_member_values
    (fuel : nat) (rp ra : ty -> Z -> option Creator -> string -> M unit)
    (cl : ObjectClass) (obj part off : Z) (name value : string) (js : JsonSerial) :
  find_member cl obj name = Some ({| name := name; kind := InstanceMember off TInt |}, part) ->
  let call :=
    read_member_or_warn typeinfo (readValue classes_ typeinfo (S fuel)) rp ra
      (Object cl) obj name value js in
  (forall n, value = pretty n -> - 2^31 <= n < 2^31 ->
     call = Ret tt (assigned (part + off) (VInt n) js))
  /\ (forall n, value = pretty n -> n < - 2^31 \/ 2^31 <= n ->
        call = StdThrow out_of_range js)
  /\ (starts_no_number value = true ->
        call = Throw (raised JsonError.InvalidValue
                        (value +:+ " for member '" +:+ name +:+ "'") true js)).
Proof.
  intros Hf call.
  assert (U : forall o,
             readScalar TInt value js = o ->
             call = match o with
                    | Ret v js1 => Ret tt (assigned (part + off) v js1)
                    | StdThrow invalid_argument js1 =>
                        Throw (raised JsonError.InvalidValue
                                 (value +:+ " for member '" +:+ name +:+ "'") true js1)
                    | StdThrow e js1 => StdThrow e js1
                    | Throw js1 => Throw js1
                    | Undefined => Undefined
                    | OutOfFuel => OutOfFuel
                    end).
  { intros o Ho. subst call.
    unfold read_member_or_warn, catch_invalid_argument. cbn [readMember].
    unfold bind at 1. rewrite readMember_order, Hf.
    cbn [Member_read kind]. cbn [readValue]. unfold readValue_.
    unfold bind. rewrite Ho.
    destruct o as [v js1|js1|[] js1| |]; reflexivity. }
  split; [|split].
  - intros n -> Hn. rewrite (U _ eq_refl). by rewrite readScalar_int_pretty.
  - intros n -> Hn. rewrite (U _ eq_refl). by rewrite readScalar_out_of_range.
  - intros Hs. rewrite (U _ eq_refl). cbn [readScalar]. unfold bind, stoi.
    by rewrite (starts_no_number_scan _ Hs).
Qed.

Lemma in_good_good js s :
  in_ js = Some s -> good s = true -> in_good js = Ret true js.
Proof.
  intros Hin Hg. unfold in_good, with_in. rewrite Hin. cbv beta iota zeta. rewrite Hg.
  clear -Hin. destruct js; simpl in Hin; subst; reflexivity.
Qed.


Lemma readObject_reference rv rp ra objclass pc cr obj id js :
  0 <= id < 2^64 ->
  readObject classes_ typeinfo rv rp ra objclass pc cr obj ("@" +:+ pretty id) js
  = match id_to_object_ js !! id with
    | Some raw => Ret raw js
    | None => Throw (raised JsonError.InvalidID "" true js)
    end.
Proof.
  intros Hid. unfold readObject.
  change ("@" +:+ pretty id) with (String "@" (pretty id)).
  cbn [empty front c_str]. change (ch_eq "@" "@") with true.
  change (ch_eq "@" NUL) with false. cbv iota.
  rewrite pretty_Z_c_str, (strtoul_pretty id Hid).
  unfold bind, gets. destruct (id_to_object_ js !! id); reflexivity.
Qed.

(** A reference to a shared object, as the writer writes it, read into
    a pointer: the pointer is set to the object that was recorded under the
    identifier, nothing is read from the stream and nothing is created. An
    identifier that was not recorded is the fatal error InvalidID, and the
    pointer is left null. *)
Theorem shared_reference_is_resolved
    (fuel : nat) (T : string) (cl : ObjectClass) (a id : Z) (js : JsonSerial) :
  0 <= id < 2^64 -> getClass_type classes_ T = Some cl ->
  readValue classes_ typeinfo (S (S fuel)) (TPtr (TObj T)) a ("@" +:+ pretty id) js
  = match id_to_object_ js !! id with
    | Some raw => Ret tt (assigned a (VPtr raw) js)
    | None => Throw (raised JsonError.InvalidID "" true (assigned a (VPtr 0) js))
    end.
Proof.
  intros Hid Hcl. cbn [readValue]. unfold readValue_.
  change (String.eqb ("@" +:+ pretty id) "null") with false. cbn [negb].
  cbn [readPointee]. unfold readPointee_, getCheckedClass. rewrite Hcl.
  unfold bind at 1. unfold store at 1. unfold modify at 1.
  unfold bind at 1. unfold ret at 1.
  unfold bind at 1. rewrite readObject_reference by exact Hid.
  change (id_to_object_ (set_mem _ js)) with (id_to_object_ js).
  destruct (id_to_object_ js !! id) as [raw|]; [|reflexivity].
  unfold store, modify, assigned. cbn [mem set_mem cells brk].
  by rewrite insert_insert_eq.
Qed.

End ReaderValues.

(** ** Layout: white space and comments before a token *)

Lemma isspace_facts c :
  isspace c = true ->
  ch_eq c "/" = false /\ ch_eq c DQUOTE = false /\ opening c = false.
Proof.
  destruct c as [[] [] [] [] [] [] [] []]; intros H;
    first [discriminate H | repeat split; reflexivity].
Qed.

Lemma before_switch_space lp c js :
  isspace c = true ->
  before_switch Begin lp c js
  = Ret (Begin, lp, c)
      (if ch_eq c LF then set_lineno_ ((lineno_ js + 1) mod 2^64) js else js).
Proof.
  intros Hs. destruct (isspace_facts c Hs) as (H1 & _).
  unfold before_switch. destruct (ch_eq c LF); [reflexivity|].
  rewrite Hs, H1, andb_false_r. mrun. rewrite !andb_false_r.
  destruct (allows js Comments && _ && _); reflexivity.
Qed.

(** The loop at the beginning of a line, over white space. *)
Lemma skip_space_loop w : forall fuel inObj l js rest,
  in_ js = Some (stream (w +:+ rest)) ->
  all_space w = true ->
  readLine_loop (String.length w + fuel) inObj Begin Begin l js
  = readLine_loop fuel inObj Begin Begin l
      (set_lineno_ (lines_after w (lineno_ js)) (set_in_ (Some (stream rest)) js)).
Proof.
  induction w as [|c w IH]; intros fuel inObj l js rest Hin Hw.
  - change ("" +:+ rest) with rest in Hin. cbn [String.length Nat.add lines_after].
    f_equal. destruct js; cbn in *. by rewrite Hin.
  - cbn [all_space] in Hw. apply andb_true_iff in Hw as [Hc Hw].
    destruct (isspace_facts c Hc) as (H1 & H2 & H3).
    change (String c w +:+ rest) with (String c (w +:+ rest)) in Hin.
    cbn [String.length Nat.add]. rewrite readLine_loop_S. mrun.
    rewrite (in_get_cons _ _ _ Hin).
    rewrite before_switch_space by exact Hc.
    cbn [switch_part]. rewrite H2, H3, Hc. cbn [negb]. mrun.
    erewrite IH; [|destruct (ch_eq c LF); mcbn; reflexivity|exact Hw].
    cbn [lines_after]. destruct (ch_eq c LF); mcbn; destruct js; reflexivity.
Qed.

(** White space before a token is skipped, and its newlines are counted:
    [readLine] on a stream that starts with white space does what it does
    on the rest of the stream, the line number advanced. *)
Theorem leading_white_space_is_skipped
    (inObj : bool) (w rest : string) (js : JsonSerial) :
  in_ js = Some (stream (w +:+ rest)) ->
  all_space w = true ->
  readLine inObj js
  = readLine inObj
      (set_lineno_ (lines_after w (lineno_ js)) (set_in_ (Some (stream rest)) js)).
Proof.
  intros Hin Hw. unfold readLine. mrun. unfold remaining. mcbn. rewrite Hin.
  cbn [buf stream]. rewrite length_append.
  replace (S (String.length w + String.length rest))
    with (String.length w + S (String.length rest))%nat by lia.
  erewrite skip_space_loop; [|mcbn; exact Hin|exact Hw].
  reflexivity.
Qed.

(** [readLine] on a stream that holds white space only: nothing is found,
    and the stream is at its end. *)
Lemma readLine_blank inObj w js :
  in_ js = Some (stream w) -> all_space w = true ->
  readLine inObj js
  = Ret {| token1 := ""; token2 := ""; found1 := false; found2 := false |}
      (set_token2_ "" (set_token1_ ""
         (set_lineno_ (lines_after w (lineno_ js)) (set_in_ (Some at_eof) js)))).
Proof.
  intros Hin Hw. unfold readLine. mrun. unfold remaining. rewrite Hin.
  cbn [buf stream].
  replace (S (String.length w)) with (String.length w + 1)%nat by lia.
  erewrite (skip_space_loop w 1 inObj _ _ "");
    [|mcbn; rewrite Hin, append_nil_r; reflexivity|exact Hw].
  rewrite readLine_loop_S. mrun. destruct js; reflexivity.
Qed.

(** An input that holds nothing but white space (or nothing at all) is the
    fatal error NoData: [read] returns false, whatever the type of the
    object, and the object is not touched. *)
Theorem blank_input_is_no_data
    (classes : JsonClasses) (typeinfo : string -> TypeInfo) (fuel : nat) (t : ty) (a : Z)
    (input name : string) (line : Z) (js : JsonSerial) :
  all_space input = true ->
  exists js',
    read classes typeinfo fuel t a input name line js = Ret false js'
    /\ mem js' = mem js
    /\ in_ js' = Some at_eof
    /\ lineno_ js' = lines_after input line
    /\ exists e, reported js' = reported js ++ [e]
                 /\ jsonerror_ js' = Some e
                 /\ JsonError.type e = JsonError.NoData
                 /\ JsonError.fatal e = true
                 /\ JsonError.line e = lines_after input line.
Proof.
  intros Hw. unfold read, try_catch.
  unfold bind at 1. unfold modify at 1.
  unfold bind at 1.
  change {| buf := input; eofbit := false; failbit := false |} with (stream input).
  rewrite (readLine_blank true input
             (reset name line (Some (stream input)) None js) eq_refl Hw).
  cbn [found1]. unfold error. cbv zeta iota beta.
  eexists. split; [reflexivity|]. mcbn. cbn [reset mem in_ lineno_ reported].
  repeat split. eexists. repeat split.
Qed.

Lemma peek_is_cons d js x r :
  in_ js = Some (stream (String x r)) -> peek_is d js = Ret (ch_eq x d) js.
Proof.
  intros Hin. unfold peek_is, in_peek, with_in, bind, ret. rewrite Hin.
  cbn. destruct js; cbn in *. by rewrite Hin.
Qed.

Lemma bind_peek_is {B} d (k : bool -> M B) js x r :
  in_ js = Some (stream (String x r)) -> bind (peek_is d) k js = k (ch_eq x d) js.
Proof. intros Hin. by rewrite (bind_Ret _ _ _ _ _ (peek_is_cons d js x r Hin)). Qed.

(** Inside a line comment, a character that is no newline and no control
    character is passed over. *)
Lemma before_switch_in_comment lp c js x r :
  in_ js = Some (stream (String x r)) ->
  allows js Comments = true -> comment_char c = true ->
  before_switch LineComment lp c js = Ret (LineComment, lp, c) js.
Proof.
  intros Hin Hcm Hc. unfold comment_char in Hc.
  apply andb_true_iff in Hc as [H1 H2].
  apply negb_true_iff in H1. apply negb_true_iff in H2.
  unfold before_switch. rewrite H1, H2.
  unfold bind at 1. unfold gets at 1. rewrite Hcm. cbn [andb negb bool_decide decide_rel].
  change (bool_decide (LineComment = InQuotedToken1)) with false.
  change (bool_decide (LineComment = InQuotedToken2)) with false.
  change (bool_decide (LineComment = Comment)) with false.
  change (bool_decide (LineComment = LineComment)) with true.
  cbn [andb negb].
  destruct (ch_eq c "/").
  - rewrite (bind_Ret _ _ _ _ _ (peek_is_cons "/" js x r Hin)).
    destruct (ch_eq x "/"); reflexivity.
  - reflexivity.
Qed.

(** The loop in a line comment, up to the newline that ends it. *)
Lemma line_comment_loop text : forall fuel inObj lp l js rest,
  in_ js = Some (stream (text +:+ String LF rest)) ->
  allows js Comments = true ->
  all_comment text = true ->
  readLine_loop (String.length text + 1 + fuel) inObj LineComment lp l js
  = readLine_loop fuel inObj lp lp l
      (set_lineno_ ((lineno_ js + 1) mod 2^64) (set_in_ (Some (stream rest)) js)).
Proof.
  induction text as [|c w IH]; intros fuel inObj lp l js rest Hin Hcm Hw.
  - change ("" +:+ String LF rest) with (String LF rest) in Hin.
    cbn [String.length Nat.add]. rewrite readLine_loop_S. mrun.
    rewrite (in_get_cons _ _ _ Hin).
    unfold before_switch. change (ch_eq LF LF) with true. cbv iota. mrun.
    cbn [switch_part]. unfold allows in *. mrun. rewrite Hcm.
    change (ch_eq LF LF) with true. cbn [andb]. mrun.
    first [reflexivity | f_equal; destruct js; reflexivity].
  - cbn [all_comment] in Hw. apply andb_true_iff in Hw as [Hc Hw].
    change (String c w +:+ String LF rest) with (String c (w +:+ String LF rest)) in Hin.
    cbn [String.length Nat.add]. rewrite readLine_loop_S. mrun.
    rewrite (in_get_cons _ _ _ Hin).
    assert (exists x r, w +:+ String LF rest = String x r) as (x & r & Ex).
    { destruct w; cbn; eauto. }
    rewrite (before_switch_in_comment lp c _ x r); [|mcbn; by rewrite Ex|exact Hcm|exact Hc].
    cbn [switch_part]. unfold allows in *. mrun. rewrite Hcm.
    assert (ch_eq c LF = false) as HLF.
    { unfold comment_char in Hc. apply andb_true_iff in Hc as [H1 _].
      by apply negb_true_iff in H1. }
    rewrite HLF. cbn [andb]. mrun.
    erewrite IH; [|mcbn; reflexivity|exact Hcm|exact Hw].
    first [reflexivity | f_equal; destruct js; reflexivity].
Qed.

(** A line comment before a token, when comments are allowed: [readLine]
    on a stream that starts with the comment does what it does on the
    stream after the end of the line, the line number advanced by one. *)
Theorem line_comment_is_skipped
    (inObj : bool) (text rest : string) (js : JsonSerial) :
  in_ js = Some (stream ("//" +:+ text +:+ String LF rest)) ->
  allows js Comments = true ->
  all_comment text = true ->
  readLine inObj js
  = readLine inObj
      (set_lineno_ ((lineno_ js + 1) mod 2^64) (set_in_ (Some (stream rest)) js)).
Proof.
  intros Hin Hcm Hw. unfold readLine. mrun. unfold remaining. mcbn. rewrite Hin.
  change ("//" +:+ text +:+ String LF rest)
    with (String "/" (String "/" (text +:+ String LF rest))) in *.
  cbn [buf stream String.length]. rewrite length_append. cbn [String.length].
  rewrite readLine_loop_S. mrun.
  rewrite (in_get_cons _ "/" (String "/" (text +:+ String LF rest)))
    by (mcbn; exact Hin).
  unfold before_switch at 1. change (ch_eq "/" LF) with false.
  change (iscntrl "/" && negb (isspace "/")) with false. cbv iota.
  unfold bind at 1. unfold gets at 1. unfold allows in *. mcbn. rewrite Hcm.
  change (bool_decide (Begin = InQuotedToken1)) with false.
  change (bool_decide (Begin = InQuotedToken2)) with false.
  change (bool_decide (Begin = Comment)) with false.
  change (bool_decide (Begin = LineComment)) with false.
  change (ch_eq "/" "/") with true. cbn [andb negb].
  rewrite (bind_peek_is "/" _ _ "/" (text +:+ String LF rest)) by (mcbn; reflexivity).
  change (ch_eq "/" "/") with true. cbv iota. mrun.
  cbn [switch_part]. unfold allows. mrun. rewrite Hcm. change (ch_eq "/" LF) with false.
  cbn [andb]. mrun.
  match goal with
  | |- context [readLine_loop ?n] =>
      replace n with (String.length (String "/" text) + 1 + S (String.length rest))%nat
        by (cbn [String.length]; lia)
  end.
  erewrite (line_comment_loop (String "/" text));
    [|mcbn; reflexivity|unfold allows; mcbn; exact Hcm
     |cbn [all_comment]; by rewrite Hw].
  first [reflexivity | f_equal; destruct js; reflexivity].
Qed.

(** ** Bare tokens: [trimRight] and [isNumber] *)

Lemma rstrip_spec s :
  exists ws,
    all_space ws = true /\ s = rstrip s +:+ ws
    /\ (rstrip s = ""
        \/ exists body c, rstrip s = body +:+ str1 c /\ isspace c = false).
Proof.
  induction s as [|c r (ws & Hws & Hr & Hlast)]; [exists ""; auto|].
  cbn [rstrip]. destruct (empty (rstrip r) && isspace c) eqn:E.
  - apply andb_true_iff in E as [E1 E2].
    destruct (rstrip r); [|discriminate E1].
    exists (String c ws). cbn [all_space]. rewrite E2, Hws.
    split; [reflexivity|]. split; [|by left].
    change ("" +:+ String c ws) with (String c ws). f_equal. exact Hr.
  - exists ws. split; [exact Hws|]. split.
    + change (String c (rstrip r) +:+ ws) with (String c (rstrip r +:+ ws)). by f_equal.
    + right. destruct Hlast as [E0|(body & d & Eb & Hd)].
      * rewrite E0 in *. cbn [empty andb] in E. exists "", c. by split.
      * exists (String c body), d. split; [|exact Hd]. rewrite Eb. reflexivity.
Qed.

Lemma rstrip_all_space s : all_space s = true -> rstrip s = "".
Proof.
  induction s as [|c r IH]; [reflexivity|].
  cbn [all_space rstrip]. intros H. apply andb_true_iff in H as [Hc Hr].
  by rewrite (IH Hr), Hc.
Qed.

Lemma all_space_app s t : all_space (s +:+ t) = all_space s && all_space t.
Proof.
  induction s as [|c s IH]; [reflexivity|].
  change (String c s +:+ t) with (String c (s +:+ t)). cbn [all_space].
  by rewrite IH, andb_assoc.
Qed.

Lemma rstrip_app_space s ws : all_space ws = true -> rstrip (s +:+ ws) = rstrip s.
Proof.
  intros Hws. induction s as [|c s IH].
  - change ("" +:+ ws) with ws. by rewrite rstrip_all_space.
  - change (String c s +:+ ws) with (String c (s +:+ ws)). cbn [rstrip]. by rewrite IH.
Qed.

(** [checkValue] removes the white space at the end of a bare token: what
    is left ends with a character that is no white space, and what was
    removed is white space. A token of white space only is left as it is.
    Trimming twice changes nothing more. *)
Theorem trimRight_removes_trailing_space (token : string) :
  (all_space token = true -> trimRight token = token)
  /\ (all_space token = false ->
      exists body c ws,
        trimRight token = body +:+ str1 c /\ isspace c = false
        /\ all_space ws = true /\ token = trimRight token +:+ ws)
  /\ trimRight (trimRight token) = trimRight token.
Proof.
  destruct (rstrip_spec token) as (ws & Hws & Ht & Hlast).
  unfold trimRight at 1 2 3 5.
  destruct Hlast as [E0|(body & c & Eb & Hc)].
  - rewrite E0 in *. cbn [empty]. change ("" +:+ ws) with ws in Ht. subst ws.
    split; [done|]. split; [congruence|]. unfold trimRight. by rewrite E0.
  - assert (empty (rstrip token) = false) as Hne.
    { rewrite Eb. destruct body; reflexivity. }
    rewrite Hne. split; [|split].
    + intros Hs. rewrite (rstrip_all_space _ Hs) in Hne. discriminate Hne.
    + intros _. exists body, c, ws. by rewrite Eb in *.
    + unfold trimRight.
      assert (rstrip (rstrip token) = rstrip token) as Hi.
      { rewrite Ht at 2. by rewrite rstrip_app_space. }
      by rewrite Hi, Hne.
Qed.

Lemma isNumber_scan_spec n : forall p dot exp,
  (String.length p <= n)%nat ->
  isNumber_scan p dot exp = true ->
  all_number_chars p = true
  /\ (count_chars (fun c => ch_eq c ".") p <= if dot then 0 else 1)%nat
  /\ (count_chars (fun c => ch_eq c "e" || ch_eq c "E") p <= if exp then 0 else 1)%nat.
Proof.
  induction n as [|n IH]; intros p dot exp Hn H.
  - destruct p; [|cbn in Hn; lia]. repeat split; cbn; destruct dot, exp; lia.
  - destruct p as [|c r]; [repeat split; cbn; destruct dot, exp; lia|].
    cbn [String.length] in Hn. cbn [isNumber_scan] in H.
    cbn [all_number_chars count_chars].
    destruct (isdigit c) eqn:Hd.
    { assert (ch_eq c "." = false /\ ch_eq c "e" = false /\ ch_eq c "E" = false
              /\ number_char c = true) as (E1 & E2 & E3 & E4).
      { clear -Hd. destruct c as [[] [] [] [] [] [] [] []]; try discriminate Hd;
          repeat split; reflexivity. }
      rewrite E1, E2, E3, E4. cbn [orb andb Nat.add].
      apply (IH r dot exp); [lia|exact H]. }
    destruct (ch_eq c ".") eqn:Hp.
    { assert (ch_eq c "e" = false /\ ch_eq c "E" = false /\ number_char c = true)
        as (E2 & E3 & E4).
      { apply Ascii.eqb_eq in Hp. subst c. repeat split; reflexivity. }
      rewrite E2, E3, E4. cbn [orb andb].
      destruct dot; [discriminate H|].
      destruct (IH r true exp ltac:(lia) H) as (A & B & C).
      split; [exact A|]. split; [lia|exact C]. }
    destruct (ch_eq c "e" || ch_eq c "E") eqn:He; [|discriminate H].
    assert (number_char c = true) as Hnc.
    { apply orb_true_iff in He as [E|E]; apply Ascii.eqb_eq in E; subst c; reflexivity. }
    rewrite Hnc. cbn [andb Nat.add].
    destruct exp; [discriminate H|].
    assert (forall q, (String.length q <= n)%nat -> isNumber_scan q dot true = true ->
              all_number_chars q = true
              /\ (count_chars (fun c => ch_eq c ".") q <= if dot then 0 else 1)%nat
              /\ (count_chars (fun c => ch_eq c "e" || ch_eq c "E") q <= 0)%nat) as IH'.
    { intros q Hq Hs. apply (IH q dot true Hq Hs). }
    destruct r as [|d r'].
    { destruct (IH' "" ltac:(cbn; lia) H) as (A & B & C). repeat split; cbn; lia || done. }
    destruct (ch_eq d "+" || ch_eq d "-") eqn:Hsign.
    + cbn [String.length] in Hn.
      destruct (IH' r' ltac:(lia) H) as (A & B & C).
      assert (ch_eq d "." = false /\ (ch_eq d "e" || ch_eq d "E") = false
              /\ number_char d = true) as (S1 & S2 & S3).
      { apply orb_true_iff in Hsign as [E|E]; apply Ascii.eqb_eq in E; subst d;
          repeat split; reflexivity. }
      cbn [all_number_chars count_chars]. rewrite S1, S2, S3, A. cbn [andb Nat.add].
      split; [reflexivity|]. split; lia.
    + destruct (IH' (String d r') ltac:(lia) H) as (A & B & C).
      split; [exact A|]. split; [exact B|]. lia.
Qed.

(** What [isNumber] asks of a token: it is not empty and, up to its first
    NUL, it is made of digits, points, the letters e and E and signs, with
    one point and one exponent at most. Every integer as the writer writes
    it passes. (Digits are not asked for: a lone minus sign passes.) *)
Theorem isNumber_accepts (token : string) :
  (isNumber token = true ->
   token <> ""
   /\ all_number_chars (c_str token) = true
   /\ (count_chars (fun c => ch_eq c ".") (c_str token) <= 1)%nat
   /\ (count_chars (fun c => ch_eq c "e" || ch_eq c "E") (c_str token) <= 1)%nat)
  /\ (forall n : Z, token = pretty n -> isNumber token = true)
  /\ (token = "-" -> isNumber token = true).
Proof.
  split; [|split].
  - unfold isNumber. destruct token as [|c0 r0]; [discriminate|]. cbn [empty].
    cbv zeta. intros H. split; [discriminate|].
    destruct (c_str (String c0 r0)) as [|c r] eqn:E.
    { repeat split; cbn; lia. }
    destruct (ch_eq c "-") eqn:Hm.
    + destruct (isNumber_scan_spec _ r false false (le_n _) H) as (A & B & C).
      apply Ascii.eqb_eq in Hm. subst c.
      cbn [all_number_chars count_chars]. rewrite A.
      change (number_char "-") with true. change (ch_eq "-" ".") with false.
      change (ch_eq "-" "e" || ch_eq "-" "E") with false. cbn [andb Nat.add].
      repeat split; assumption.
    + destruct (isNumber_scan_spec _ (String c r) false false (le_n _) H) as (A & B & C).
      repeat split; assumption.
  - intros n ->. destruct (pretty_Z_token n) as (c & w & _ & _ & _ & _ & I). exact I.
  - intros ->. reflexivity.
Qed.

(** ** The registry *)

Lemma put_class_lookup T cl c :
  (forall k cl', classindexes_ (put_class T cl c) !! k = Some cl' ->
                 cl' = cl \/ classindexes_ c !! k = Some cl')
  /\ (forall k cl', classnames_ (put_class T cl c) !! k = Some cl' ->
                    cl' = cl \/ classnames_ c !! k = Some cl').
Proof.
  split; intros k cl' H; cbn [put_class classindexes_ classnames_] in H.
  - destruct (decide (T = k)) as [->|Hne].
    + rewrite lookup_insert_eq in H. left. congruence.
    + rewrite lookup_insert_ne in H by done. by right.
  - destruct (decide (classname_ cl = k)) as [<-|Hne].
    + rewrite lookup_insert_eq in H. left. congruence.
    + rewrite lookup_insert_ne in H by done. by right.
Qed.

Lemma well_formed_new n cr : well_formed_class (Build_ObjectClass n [] cr [] ∅ None None).
Proof.
  split; [|constructor].
  intros k m. unfold getMember. cbn. rewrite lookup_empty. split; [discriminate|tauto].
Qed.

Lemma well_formed_add_member cl m :
  well_formed_class cl -> getMember cl (name m) = None ->
  well_formed_class
    (Build_ObjectClass (classname_ cl) (superclasses_ cl) (creator_ cl)
       (members_ cl ++ [m]) (<[name m := m]> (membermap_ cl))
       (postread_ cl) (postwrite_ cl)).
Proof.
  intros (Hs & Hn) Hnone. split.
  - intros k m'. unfold getMember in *. cbn [membermap_ members_].
    rewrite in_app_iff. cbn [In].
    destruct (decide (name m = k)) as [<-|Hne].
    + rewrite lookup_insert_eq. split.
      * intros [= <-]. split; [right; by left|reflexivity].
      * intros [[Hin|[<-|[]]] Hname]; [|reflexivity].
        assert (membermap_ cl !! name m = Some m') as E by (apply Hs; by split).
        congruence.
    + rewrite lookup_insert_ne by done. rewrite (Hs k m'). split.
      * intros [Hin Hname]. split; [by left|exact Hname].
      * intros [[Hin|[<-|[]]] Hname]; [by split|congruence].
  - cbn [members_]. rewrite map_app. cbn [map].
    apply NoDup_ListNoDup. apply NoDup_app. split; [by apply NoDup_ListNoDup|].
    split; [|apply NoDup_singleton].
    intros x Hx Hx'. apply list_elem_of_singleton in Hx'. subst x.
    apply list_elem_of_In, in_map_iff in Hx as (m' & Hname & Hin).
    assert (membermap_ cl !! name m = Some m') as E by (apply Hs; by split).
    unfold getMember in Hnone. congruence.
Qed.

Lemma well_formed_add_super cl c up :
  well_formed_class cl ->
  well_formed_class
    (Build_ObjectClass (classname_ cl) (superclasses_ cl ++ [Build_Superclass c up])
       (creator_ cl) (members_ cl) (membermap_ cl) (postread_ cl) (postwrite_ cl)).
Proof. intros (Hs & Hn). split; assumption. Qed.


(** [defclass]: the new class, with the creator given and no member, is
    what the name and the type now stand for, and nothing else changes.
    When the name was taken, the error RedefinedClass is recorded, and
    the new class replaces the former one all the same. *)
Theorem defclass_registers (T n : string) (cr : option Creator) (c : JsonClasses) :
  let c' := defclass T n cr c in
  let cl := Build_ObjectClass n [] cr [] ∅ None None in
  getClass_name c' n = Some cl
  /\ getClass_type c' T = Some cl
  /\ (forall n', n' <> n -> getClass_name c' n' = getClass_name c n')
  /\ (forall T', T' <> T -> getClass_type c' T' = getClass_type c T')
  /\ (getClass_name c n = None ->
      registry_reported c' = registry_reported c
      /\ registry_error c' = registry_error c)
  /\ (forall old, getClass_name c n = Some old ->
      exists e, registry_reported c' = registry_reported c ++ [e]
                /\ registry_error c' = Some e
                /\ JsonError.type e = JsonError.RedefinedClass
                /\ JsonError.arg e = n).
Proof.
  intros c' cl. subst c' cl. unfold defclass, getClass_name, getClass_type.
  destruct (classnames_ c !! n) as [old|] eqn:E;
    cbn [put_class registry_fail classindexes_ classnames_ classname_
         registry_reported registry_error];
    (split; [apply lookup_insert_eq|]); (split; [apply lookup_insert_eq|]);
    (split; [intros n' Hn; by rewrite lookup_insert_ne|]);
    (split; [intros T' HT; by rewrite lookup_insert_ne|]).
  - split; [discriminate|]. intros old' _. eexists. repeat split.
  - split; [done|]. discriminate.
Qed.


(** ** Indentation: [addTab], [removeTab], [writeTabs] *)

Lemma fill_length n c : String.length (fill n c) = n.
Proof.
  induction n as [|n IH]; [reflexivity|].
  change (fill (S n) c) with (String c (fill n c)). cbn [String.length]. by rewrite IH.
Qed.

Lemma fill_app a b c : fill a c +:+ fill b c = fill (a + b) c.
Proof.
  induction a as [|a IH]; [reflexivity|].
  change (fill (S a) c) with (String c (fill a c)).
  change (fill (S a + b) c) with (String c (fill (a + b) c)).
  change (String c (fill a c) +:+ fill b c) with (String c (fill a c +:+ fill b c)).
  by rewrite IH.
Qed.

Lemma substring_fill n k c : (n <= k)%nat -> String.substring 0 n (fill k c) = fill n c.
Proof.
  revert k. induction n as [|n IH]; intros k H.
  - destruct k; reflexivity.
  - destruct k as [|k]; [lia|].
    change (fill (S k) c) with (String c (fill k c)).
    change (fill (S n) c) with (String c (fill n c)).
    cbn [String.substring]. rewrite IH by lia. reflexivity.
Qed.


Lemma addTab_state js :
  exists js',
    addTab js = Ret tt js'
    /\ level_ js' = level_ js + 1
    /\ indent_ js' = indent_ js
    /\ (String.length (tabs_ js') <= String.length (tabs_ js) + 20)%nat.
Proof.
  unfold addTab, modify. cbv zeta. mcbn. eexists. split; [reflexivity|].
  match goal with |- context [if ?b then _ else _] => destruct b end; mcbn;
    rewrite ?length_append, ?fill_length; repeat split; lia.
Qed.

Lemma addTabs_state k : forall js,
  exists js',
    addTabs k js = Ret tt js'
    /\ level_ js' = level_ js + Z.of_nat k
    /\ indent_ js' = indent_ js
    /\ (String.length (tabs_ js') <= String.length (tabs_ js) + 20 * k)%nat.
Proof.
  induction k as [|k IH]; intros js.
  - exists js. cbn [addTabs]. repeat split; lia.
  - cbn [addTabs]. destruct (addTab_state js) as (js1 & E1 & L1 & I1 & T1).
    rewrite (bind_Ret _ _ _ _ _ E1).
    destruct (IH js1) as (js' & E & L & I & T).
    exists js'. split; [exact E|]. repeat split; lia.
Qed.


(** ** Errors: what is reported is recorded, and makes [read] return false *)

Lemma errors_kept_refl js : errors_kept js js.
Proof. exists []. by rewrite app_nil_r. Qed.

Lemma errors_kept_trans js1 js2 js3 :
  errors_kept js1 js2 -> errors_kept js2 js3 -> errors_kept js1 js3.
Proof.
  intros (m1 & R1 & E1) (m2 & R2 & E2). exists (m1 ++ m2).
  split; [by rewrite R2, R1, app_assoc|].
  destruct m1 as [|e1 m1], m2 as [|e2 m2]; cbn [app]; congruence.
Qed.

Lemma errors_kept_frame js js' :
  reported js' = reported js -> jsonerror_ js' = jsonerror_ js -> errors_kept js js'.
Proof. intros R E. exists []. by rewrite app_nil_r. Qed.

Lemma errors_tracked_weaken {A} js1 js2 (o : outcome A) :
  errors_kept js1 js2 -> errors_tracked js2 o -> errors_tracked js1 o.
Proof.
  intros K H. destruct o; cbn in *; try exact I;
    try (eapply errors_kept_trans; eassumption).
  destruct H as [H N]. split; [eapply errors_kept_trans; eassumption|exact N].
Qed.

Lemma tracked_bind {A B} (m : M A) (k : A -> M B) js :
  errors_tracked js (m js) ->
  (forall a js1, m js = Ret a js1 -> errors_tracked js1 (k a js1)) ->
  errors_tracked js (bind m k js).
Proof.
  intros Hm Hk. unfold bind.
  destruct (m js) as [a js1|js1|e js1| |]; try exact Hm.
  eapply errors_tracked_weaken; [exact Hm|]. by apply Hk.
Qed.

Create HintDb tracks.

Lemma tracks_ret {A} (a : A) : tracks (ret a).
Proof. intros js. apply errors_kept_refl. Qed.

Lemma tracks_bind {A B} (m : M A) (k : A -> M B) :
  tracks m -> (forall a, tracks (k a)) -> tracks (bind m k).
Proof. intros Hm Hk js. apply tracked_bind; [apply Hm|]. intros a js1 _. apply Hk. Qed.

Lemma tracks_gets {A} (f : JsonSerial -> A) : tracks (gets f).
Proof. intros js. apply errors_kept_refl. Qed.

Lemma tracks_modify f :
  (forall js, reported (f js) = reported js /\ jsonerror_ (f js) = jsonerror_ js) ->
  tracks (modify f).
Proof. intros H js. destruct (H js). by apply errors_kept_frame. Qed.

Lemma tracks_undefined {A} : tracks (@undefined A).
Proof. intros js. exact I. Qed.

Lemma tracks_std_throw {A} e : tracks (@std_throw A e).
Proof. intros js. apply errors_kept_refl. Qed.

Lemma tracks_error type arg fatal : tracks (error type arg fatal).
Proof.
  intros js. unfold error. cbv zeta.
  assert (forall e, errors_kept js (set_reported (reported js ++ [e])
                                      (set_jsonerror_ (Some e) js))) as K.
  { intros e. exists [e]. by split. }
  destruct fatal; cbn [errors_tracked]; [split; [apply K|discriminate]|apply K].
Qed.

Lemma tracks_with_in {A} (f : istream -> A * istream) : tracks (with_in f).
Proof.
  intros js. unfold with_in. destruct (in_ js) as [s|]; [|exact I].
  destruct (f s). by apply errors_kept_frame.
Qed.

Lemma tracks_load a : tracks (load a).
Proof. intros js. unfold load. destruct (_ !! a); [apply errors_kept_refl|exact I]. Qed.

Lemma tracks_alloc n : tracks (alloc n).
Proof. intros js. by apply errors_kept_frame. Qed.

Lemma tracks_run_creator f : tracks (run_creator f).
Proof. intros js. unfold run_creator. destruct (f (mem js)). by apply errors_kept_frame. Qed.

Lemma tracks_typeid T a : tracks (typeid T a).
Proof. intros js. unfold typeid. destruct (_ !! a) as [[]|]; apply errors_kept_refl. Qed.

Lemma tracks_catch {A} (body handler : M A) :
  tracks body -> tracks handler -> tracks (catch_invalid_argument body handler).
Proof.
  intros Hb Hh js. unfold catch_invalid_argument.
  pose proof (Hb js) as H. destruct (body js) as [a js1|js1|[] js1| |]; try exact H.
  eapply errors_tracked_weaken; [exact H|apply Hh].
Qed.

#[local] Hint Resolve tracks_ret tracks_gets tracks_undefined tracks_std_throw
  tracks_error tracks_with_in tracks_load tracks_alloc tracks_run_creator
  tracks_typeid : tracks.

Ltac tracks_step :=
  first
    [ solve [auto 1 with tracks]
    | lazymatch goal with
      | |- tracks (modify _) => apply tracks_modify; intros ?; split; reflexivity
      | |- tracks (bind _ _) => apply tracks_bind; [|intros ?]
      | |- tracks (catch_invalid_argument _ _) => apply tracks_catch
      | |- tracks (match ?x with _ => _ end) => destruct x
      end ].

Ltac tracks_auto := repeat tracks_step.

Lemma tracks_in_get : tracks in_get.
Proof. apply tracks_with_in. Qed.
Lemma tracks_in_peek : tracks in_peek.
Proof. apply tracks_with_in. Qed.
Lemma tracks_in_putback c : tracks (in_putback c).
Proof. apply tracks_with_in. Qed.
Lemma tracks_in_good : tracks in_good.
Proof. apply tracks_with_in. Qed.
#[local] Hint Resolve tracks_in_get tracks_in_peek tracks_in_putback tracks_in_good
  : tracks.

Lemma tracks_peek_is d : tracks (peek_is d).
Proof. unfold peek_is. tracks_auto. Qed.
#[local] Hint Resolve tracks_peek_is : tracks.

Lemma tracks_checkValue token objName : tracks (checkValue token objName).
Proof. unfold checkValue. cbv zeta. tracks_auto. Qed.
Lemma tracks_readEscape1 : tracks readEscape1.
Proof. unfold readEscape1. tracks_auto. Qed.
Lemma tracks_readEscape2 : tracks readEscape2.
Proof. unfold readEscape2. tracks_auto. Qed.
Lemma tracks_INVALID_CHAR {A} c : tracks (@INVALID_CHAR A c).
Proof. unfold INVALID_CHAR. cbv zeta. tracks_auto. Qed.
Lemma tracks_separator c : tracks (separator c).
Proof. unfold separator. tracks_auto. Qed.
Lemma tracks_in_quotes_invalid c : tracks (in_quotes_invalid c).
Proof. unfold in_quotes_invalid. tracks_auto. Qed.
#[local] Hint Resolve tracks_checkValue tracks_readEscape1 tracks_readEscape2
  tracks_INVALID_CHAR tracks_separator tracks_in_quotes_invalid : tracks.

Lemma tracks_before_switch part lastPart c : tracks (before_switch part lastPart c).
Proof. unfold before_switch. tracks_auto. Qed.
Lemma tracks_switch_part inObj part lastPart c l :
  tracks (switch_part inObj part lastPart c l).
Proof. unfold switch_part. destruct part; cbv zeta; tracks_auto. Qed.
#[local] Hint Resolve tracks_before_switch tracks_switch_part : tracks.

Lemma tracks_readLine_loop fuel : forall inObj part lastPart l,
  tracks (readLine_loop fuel inObj part lastPart l).
Proof.
  induction fuel as [|fuel IH]; intros inObj part lastPart l.
  - intros js. exact I.
  - cbn [readLine_loop]. tracks_auto.
Qed.

Lemma tracks_readLine inObj : tracks (readLine inObj).
Proof.
  intros js. unfold readLine.
  apply tracks_bind; [|intros ?; apply tracks_readLine_loop].
  apply tracks_modify. intros ?. split; reflexivity.
Qed.
#[local] Hint Resolve tracks_readLine : tracks.

Lemma tracks_bind_post {A B} (m : M A) (k : A -> M B) (P : A -> Prop) :
  tracks m -> (forall js a js', m js = Ret a js' -> P a) ->
  (forall a, P a -> tracks (k a)) -> tracks (bind m k).
Proof.
  intros Hm HP Hk js. apply tracked_bind; [apply Hm|].
  intros a js1 E. apply Hk. eapply HP, E.
Qed.

Lemma tracks_store a v : tracks (store a v).
Proof. unfold store. tracks_auto. Qed.
Lemma tracks_stoi s : tracks (stoi s).
Proof. unfold stoi. cbv zeta. tracks_auto. Qed.
Lemma tracks_stoul s : tracks (stoul s).
Proof. unfold stoul. tracks_auto. Qed.
#[local] Hint Resolve tracks_store tracks_stoi tracks_stoul : tracks.

Lemma tracks_readScalar t s : tracks (readScalar t s).
Proof. unfold readScalar. tracks_auto. Qed.
Lemma tracks_load_map a : tracks (load_map a).
Proof. unfold load_map. tracks_auto. Qed.
Lemma tracks_load_seq a : tracks (load_seq a).
Proof. unfold load_seq. tracks_auto. Qed.
#[local] Hint Resolve tracks_readScalar tracks_load_map tracks_load_seq : tracks.

Section ReaderTracks.

Variable classes_ : JsonClasses.
Variable typeinfo : string -> TypeInfo.
Hypothesis registry_ok : plain_registry classes_ = true.

Lemma registered_plain_type T cl :
  getClass_type classes_ T = Some cl -> plain_members cl = true.
Proof.
  intros H. unfold plain_registry in registry_ok.
  apply andb_true_iff in registry_ok as [R _]. rewrite forallb_forall in R.
  apply (R (T, cl)). apply list_elem_of_In, elem_of_map_to_list, H.
Qed.

Lemma registered_plain_name n cl :
  getClass_name classes_ n = Some cl -> plain_members cl = true.
Proof.
  intros H. unfold plain_registry in registry_ok.
  apply andb_true_iff in registry_ok as [_ R]. rewrite forallb_forall in R.
  apply (R (n, cl)). apply list_elem_of_In, elem_of_map_to_list, H.
Qed.

Lemma tracks_construct t a : tracks (construct typeinfo t a).
Proof.
  unfold construct. destruct t; try apply tracks_store.
  generalize (ti_init (typeinfo T)). intros l.
  induction l as [|[o v] l IH]; tracks_auto; try exact IH.
Qed.
#[local] Hint Resolve tracks_construct : tracks.

Lemma tracks_new_ t : tracks (new_ typeinfo t).
Proof. unfold new_. tracks_auto. Qed.
#[local] Hint Resolve tracks_new_ : tracks.

Lemma tracks_getCheckedClass T : tracks (getCheckedClass classes_ T).
Proof. unfold getCheckedClass. tracks_auto. Qed.

Lemma getCheckedClass_plain T js cl js' :
  getCheckedClass classes_ T js = Ret cl js' -> plain_members cl = true.
Proof.
  unfold getCheckedClass. destruct (getClass_type classes_ T) as [c|] eqn:E.
  - intros [= <- _]. eapply registered_plain_type, E.
  - discriminate.
Qed.

Lemma tracks_create cl : tracks (create typeinfo cl).
Proof. unfold create. tracks_auto. Qed.
Lemma tracks_doPostRead cl obj : tracks (doPostRead cl obj).
Proof. unfold doPostRead. tracks_auto. Qed.
#[local] Hint Resolve tracks_getCheckedClass tracks_create tracks_doPostRead : tracks.

Lemma tracks_pin_class objclass pc cr obj name value :
  tracks (pin_class classes_ typeinfo objclass pc cr obj name value).
Proof. unfold pin_class. tracks_auto. Qed.

Lemma pin_class_plain objclass pc cr obj name value js p js' :
  match objclass with Some cl => plain_metaclass cl = true | None => True end ->
  plain_metaclass pc = true ->
  pin_class classes_ typeinfo objclass pc cr obj name value js = Ret p js' ->
  plain_metaclass (fst (fst p)) = true.
Proof.
  intros Ho Hp. unfold pin_class. destruct objclass as [cl|].
  - intros [= <- _]. exact Ho.
  - intros H. apply bind_Ret_inv in H as (cl & js1 & H1 & H).
    apply bind_Ret_inv in H as (obj1 & js2 & _ & H).
    apply bind_Ret_inv in H as (u & js3 & _ & H). injection H as <- _.
    cbn [fst]. destruct (negb (name =? "@class")%string).
    + by injection H1 as <- _.
    + destruct (getClass_name classes_ value) as [c|] eqn:E.
      * injection H1 as <- _. eapply registered_plain_name, E.
      * apply bind_Ret_inv in H1 as (? & ? & _ & H1). discriminate.
Qed.

Section OneLevel.

Variable readValue : ty -> Z -> string -> M unit.
Variable readPointee : ty -> Z -> option Creator -> string -> M unit.
Variable readArray : ty -> Z -> option Creator -> string -> M unit.
Hypothesis tracks_rv : forall t a s, tracks (readValue t a s).
Hypothesis tracks_rp : forall t a cr s, tracks (readPointee t a cr s).
Hypothesis tracks_ra : forall t a cr s, tracks (readArray t a cr s).

Lemma tracks_Member_read m obj val :
  isCustom m = false -> tracks (Member_read readValue readPointee readArray m obj val).
Proof.
  unfold Member_read, isCustom. destruct (kind m); intros Hc; try discriminate;
    try apply tracks_rv; try apply tracks_ra.
  - tracks_auto; try apply tracks_rp.
  - tracks_auto.
Qed.

Lemma tracks_ObjectClass_readMember cl :
  forall obj name val, plain_members cl = true ->
  tracks (ObjectClass_readMember readValue readPointee readArray cl obj name val).
Proof.
  induction cl as [cl IH] using ObjectClass_supers_ind. intros obj name val Hn.
  destruct cl as [n sups cr ms mm pr pw]. cbn [superclasses_] in IH.
  cbn [plain_members membermap_ superclasses_] in Hn.
  apply andb_true_iff in Hn as [Hms Hsups].
  cbn [ObjectClass_readMember superclasses_]. unfold getMember. cbn [membermap_].
  destruct (mm !! name) as [mb|] eqn:E.
  - apply tracks_bind; [|intros _; apply tracks_ret].
    apply tracks_Member_read. rewrite forallb_forall in Hms.
    apply negb_true_iff, (Hms (name, mb)).
    apply list_elem_of_In, elem_of_map_to_list, E.
  - clear Hms E. induction sups as [|it sups IHs]; [apply tracks_ret|].
    apply andb_true_iff in Hsups as [Hit Hsups].
    inversion IH as [|? ? Pit Ps]; subst.
    apply tracks_bind; [by apply Pit|]. intros [|]; [apply tracks_ret|by apply IHs].
Qed.

Lemma tracks_MapClass_readMember E map key val :
  tracks (MapClass_readMember typeinfo readValue E map key val).
Proof. unfold MapClass_readMember. tracks_auto; try apply tracks_rv. Qed.

Lemma tracks_readMember cl obj name val :
  plain_metaclass cl = true ->
  tracks (readMember typeinfo readValue readPointee readArray cl obj name val).
Proof.
  destruct cl as [cl|E]; cbn [plain_metaclass readMember]; intros H.
  - by apply tracks_ObjectClass_readMember.
  - apply tracks_MapClass_readMember.
Qed.

Lemma tracks_read_member_or_warn cl obj name value :
  plain_metaclass cl = true ->
  tracks (read_member_or_warn typeinfo readValue readPointee readArray cl obj name value).
Proof.
  intros H. unfold read_member_or_warn. apply tracks_catch; [|apply tracks_error].
  apply tracks_bind; [by apply tracks_readMember|]. intros [|]; tracks_auto.
Qed.

Lemma tracks_readObject_loop n : forall objclass pc cr obj,
  match objclass with Some cl => plain_metaclass cl = true | None => True end ->
  plain_metaclass pc = true ->
  tracks (readObject_loop classes_ typeinfo readValue readPointee readArray
            n objclass pc cr obj).
Proof.
  induction n as [|n IH]; intros objclass pc cr obj Ho Hp; [intros js; exact I|].
  cbn [readObject_loop].
  apply tracks_bind; [tracks_auto|intros ok].
  destruct (negb ok); [tracks_auto|].
  apply tracks_bind; [tracks_auto|intros l]. cbv zeta.
  apply tracks_bind; [tracks_auto|intros _].
  apply tracks_bind; [tracks_auto|intros _].
  apply (tracks_bind_post _ _ (fun p => plain_metaclass (fst (fst p)) = true));
    [apply tracks_pin_class| |].
  { intros js p js'. by apply pin_class_plain. }
  intros [[cl obj'] c] Hcl. cbn [fst] in Hcl.
  destruct c; [by apply IH|].
  destruct (token1 l =? "}")%string; [tracks_auto|].
  destruct (token1 l =? "@id")%string.
  - apply tracks_bind; [tracks_auto|intros id].
    apply tracks_bind; [tracks_auto|intros _]. by apply IH.
  - apply tracks_bind; [by apply tracks_read_member_or_warn|intros _]. by apply IH.
Qed.

Lemma tracks_readObject objclass pc cr obj s :
  match objclass with Some cl => plain_metaclass cl = true | None => True end ->
  plain_metaclass pc = true ->
  tracks (readObject classes_ typeinfo readValue readPointee readArray
            objclass pc cr obj s).
Proof.
  intros Ho Hp. unfold readObject.
  destruct (empty s); [tracks_auto|].
  destruct (ch_eq (front s) "@"); [cbv zeta; tracks_auto|].
  apply tracks_bind; [tracks_auto|intros _].
  apply tracks_bind; [tracks_auto|intros n]. by apply tracks_readObject_loop.
Qed.

Lemma tracks_readPointee_ t ptr cr s :
  tracks (readPointee_ classes_ typeinfo readValue readPointee readArray t ptr cr s).
Proof.
  unfold readPointee_. destruct t; try (tracks_auto; apply tracks_rv).
  apply (tracks_bind_post _ _ (fun cl => plain_members cl = true));
    [apply tracks_getCheckedClass|apply getCheckedClass_plain|].
  intros cl Hcl. apply tracks_bind; [|intros p; apply tracks_store].
  by apply tracks_readObject.
Qed.

Lemma tracks_readArrayValue t e cr s :
  tracks (readArrayValue readValue readPointee t e cr s).
Proof.
  unfold readArrayValue. destruct t; try apply tracks_rv; tracks_auto;
    (apply tracks_rv || apply tracks_rp).
Qed.

Lemma tracks_JsonArrayImpl_add t cont cr s :
  tracks (JsonArrayImpl_add typeinfo readValue readPointee t cont cr s).
Proof. unfold JsonArrayImpl_add. tracks_auto; try apply tracks_readArrayValue. Qed.

Lemma tracks_readArray_loop n t cont cr :
  tracks (readArray_loop typeinfo readValue readPointee n t cont cr).
Proof.
  induction n as [|n IH]; [intros js; exact I|].
  cbn [readArray_loop]. tracks_auto; try exact IH.
  apply tracks_JsonArrayImpl_add.
Qed.

Lemma tracks_readArray_ t cont cr s :
  tracks (readArray_ typeinfo readValue readPointee t cont cr s).
Proof. unfold readArray_. tracks_auto; try apply tracks_readArray_loop. Qed.

Lemma tracks_readValue_ t a s :
  tracks (readValue_ classes_ typeinfo readValue readPointee readArray t a s).
Proof.
  unfold readValue_. destruct t; try (tracks_auto; fail).
  - apply tracks_bind; [tracks_auto|intros dyn].
    apply (tracks_bind_post _ _ (fun cl => plain_members cl = true));
      [apply tracks_getCheckedClass|apply getCheckedClass_plain|].
    intros cl Hcl. apply tracks_bind; [|intros p; apply tracks_ret].
    by apply tracks_readObject.
  - apply tracks_bind; [|intros p; apply tracks_ret]. by apply tracks_readObject.
Qed.

End OneLevel.

Lemma tracks_reader fuel :
  (forall t a s, tracks (readValue classes_ typeinfo fuel t a s))
  /\ (forall t a cr s, tracks (readPointee classes_ typeinfo fuel t a cr s))
  /\ (forall t a cr s, tracks (readArray classes_ typeinfo fuel t a cr s)).
Proof.
  induction fuel as [|fuel (IHv & IHp & IHa)].
  - repeat split; intros; intros js; exact I.
  - repeat split; intros.
    + cbn [readValue]. by apply tracks_readValue_.
    + cbn [readPointee]. by apply tracks_readPointee_.
    + cbn [readArray]. by apply tracks_readArray_.
Qed.

(** Errors. For a registry without custom members, [read] returns true
    exactly when the read reported nothing, neither an error nor a
    warning; whatever it returns, the errors reported before the read are
    kept in front of the new ones, and [jsonerror_] is set exactly when the
    read returns false. *)
Theorem read_returns_true_iff_nothing_reported
    (fuel : nat) (t : ty) (a : Z) (input name : string) (line : Z)
    (js : JsonSerial) (b : bool) (js' : JsonSerial) :
  read classes_ typeinfo fuel t a input name line js = Ret b js' ->
  exists more,
    reported js' = reported js ++ more
    /\ (b = true <-> more = [])
    /\ (b = false <-> jsonerror_ js' <> None).
Proof.
  unfold read, try_catch.
  match goal with
  | |- context [bind (modify ?f) ?k] =>
      change (bind (modify f) k js) with (k tt (f js));
      pose proof (tracked_bind (readLine true)
                    (fun l => if found1 l then readValue classes_ typeinfo fuel t a (token1 l)
                              else error JsonError.NoData "" true) (f js)
                    (tracks_readLine true (f js))) as H
  end.
  lapply H; clear H.
  2:{ intros l js1 _. destruct (found1 l); [apply tracks_reader|apply tracks_error]. }
  cbv beta.
  match goal with |- errors_tracked _ ?o -> _ => destruct o as [u js1|js1|e js1| |] end;
    cbn [errors_tracked]; try discriminate.
  - intros (more & R & E) [= <- <-]. exists more. split; [exact R|].
    cbn [reset reported jsonerror_] in R, E.
    destruct more; destruct (jsonerror_ js1); cbn [non_null negb];
      try congruence; repeat split; try congruence; try discriminate.
  - intros [(more & R & E) N] [= <- <-]. exists more. split; [exact R|].
    cbn [reset reported jsonerror_] in R, E.
    destruct more; [congruence|]. repeat split; try congruence; discriminate.
Qed.

End ReaderTracks.

(** *** The writer *)

Lemma tracks_put s : tracks (put s).
Proof.
  intros js. unfold put. destruct (out_ js); [|exact I]. by apply errors_kept_frame.
Qed.
#[local] Hint Resolve tracks_put : tracks.

Lemma tracks_addTab : tracks addTab.
Proof.
  unfold addTab. apply tracks_modify. intros js. cbv zeta.
  match goal with |- context [if ?b then _ else _] => destruct b end; split; reflexivity.
Qed.
Lemma tracks_removeTab : tracks removeTab.
Proof.
  unfold removeTab. apply tracks_modify. intros js.
  match goal with |- context [if ?b then _ else _] => destruct b end; split; reflexivity.
Qed.
Lemma tracks_writeTabs : tracks writeTabs.
Proof. unfold writeTabs. tracks_auto. Qed.
Lemma tracks_writeString s is_cstring : tracks (writeString s is_cstring).
Proof. unfold writeString. tracks_auto. Qed.
Lemma tracks_load_string a : tracks (load_string a).
Proof. unfold load_string. tracks_auto. Qed.
Lemma tracks_load_cstr a : tracks (load_cstr a).
Proof. unfold load_cstr. tracks_auto. Qed.
Lemma tracks_load_bool a : tracks (load_bool a).
Proof. unfold load_bool. tracks_auto. Qed.
Lemma tracks_load_int a : tracks (load_int a).
Proof. unfold load_int. tracks_auto. Qed.
Lemma tracks_load_ptr a : tracks (load_ptr a).
Proof. unfold load_ptr. tracks_auto. Qed.
#[local] Hint Resolve tracks_addTab tracks_removeTab tracks_writeTabs tracks_writeString
  tracks_load_string tracks_load_cstr tracks_load_bool tracks_load_int tracks_load_ptr
  : tracks.

Section WriterTracks.

Variable classes_ : JsonClasses.
Hypothesis registry_ok : registry_no_custom classes_ = true.

Section OneLevel.

Variable writeValue : ty -> Z -> M unit.
Hypothesis tracks_wv : forall t a, tracks (writeValue t a).

Lemma tracks_write_returned t v : tracks (write_returned writeValue t v).
Proof. unfold write_returned. destruct t, v; tracks_auto. Qed.

Lemma tracks_Member_write m obj :
  isCustom m = false -> tracks (Member_write writeValue m obj).
Proof.
  unfold Member_write, isCustom. destruct (kind m); intros Hc; try discriminate;
    try apply tracks_wv.
  tracks_auto; try apply tracks_write_returned.
Qed.

Lemma tracks_write_own_members ms obj :
  forallb (fun m => negb (isCustom m)) ms = true ->
  tracks (write_own_members writeValue ms obj).
Proof.
  induction ms as [|it ms IH]; intros H; [apply tracks_ret|].
  cbn [forallb] in H. apply andb_true_iff in H as [Hc H].
  apply negb_true_iff in Hc.
  cbn [write_own_members]. rewrite Hc.
  tracks_auto; first [by apply tracks_Member_write|by apply IH].
Qed.

Lemma tracks_ObjectClass_writeMembers cl :
  forall obj, no_custom cl = true ->
  tracks (ObjectClass_writeMembers writeValue cl obj).
Proof.
  induction cl as [cl IH] using ObjectClass_supers_ind. intros obj Hn.
  destruct cl as [n sups cr ms mm pr pw]. cbn [superclasses_] in IH.
  cbn [no_custom members_ superclasses_] in Hn.
  apply andb_true_iff in Hn as [Hms Hsups].
  cbn [ObjectClass_writeMembers superclasses_ members_].
  apply tracks_bind; [|intros _; by apply tracks_write_own_members].
  clear Hms. induction sups as [|it sups IHs]; [apply tracks_ret|].
  apply andb_true_iff in Hsups as [Hit Hsups].
  inversion IH as [|? ? Pit Ps]; subst.
  apply tracks_bind; [by apply Pit|]. intros _. by apply IHs.
Qed.

Lemma tracks_MapClass_writeMembers E entries :
  tracks (MapClass_writeMembers writeValue E entries).
Proof.
  induction entries as [|it entries IH]; [apply tracks_ret|].
  cbn [MapClass_writeMembers]. tracks_auto; try exact IH; try apply tracks_wv.
Qed.

Lemma tracks_writeMembers cl obj :
  metaclass_no_custom cl = true -> tracks (writeMembers writeValue cl obj).
Proof.
  destruct cl as [cl|E]; cbn [metaclass_no_custom writeMembers]; intros H.
  - by apply tracks_ObjectClass_writeMembers.
  - apply tracks_bind; [tracks_auto|intros m]. apply tracks_MapClass_writeMembers.
Qed.

Lemma tracks_doPostWrite cl obj : tracks (doPostWrite cl obj).
Proof. unfold doPostWrite. tracks_auto. Qed.

Lemma tracks_writeObject cl derived obj :
  metaclass_no_custom cl = true -> tracks (writeObject writeValue cl derived obj).
Proof.
  intros H. unfold writeObject.
  apply tracks_bind; [tracks_auto|intros sharing].
  apply tracks_bind; [tracks_auto|intros [id|]]; [tracks_auto|].
  tracks_auto; first [by apply tracks_writeMembers|apply tracks_doPostWrite].
Qed.

Lemma tracks_writeArray_loop t elems : tracks (writeArray_loop writeValue t elems).
Proof.
  induction elems as [|it elems IH]; [apply tracks_ret|].
  cbn [writeArray_loop]. tracks_auto; try exact IH; try apply tracks_wv.
Qed.

Lemma tracks_writeArray t elems : tracks (writeArray writeValue t elems).
Proof. unfold writeArray. tracks_auto; try apply tracks_writeArray_loop. Qed.

Lemma tracks_writeValue2 t a : tracks (writeValue2 classes_ writeValue t a).
Proof.
  unfold writeValue2. destruct t; try (tracks_auto; fail).
  - apply tracks_bind; [tracks_auto|intros dyn].
    destruct (getClass_type classes_ dyn) as [cl|] eqn:E; [|tracks_auto].
    apply tracks_writeObject. cbn [metaclass_no_custom].
    unfold registry_no_custom in registry_ok. rewrite forallb_forall in registry_ok.
    apply (registry_ok (dyn, cl)). apply list_elem_of_In, elem_of_map_to_list, E.
  - apply tracks_bind; [tracks_auto|intros cont].
    destruct cont; [tracks_auto|apply tracks_writeArray].
  - by apply tracks_writeObject.
Qed.

Lemma tracks_writeValue_ t a : tracks (writeValue_ classes_ writeValue t a).
Proof.
  unfold writeValue_. destruct t; tracks_auto; try apply tracks_writeValue2.
Qed.

End OneLevel.

Lemma tracks_writeValue fuel : forall t a, tracks (writeValue classes_ fuel t a).
Proof.
  induction fuel as [|fuel IH]; intros t a; [intros js; exact I|].
  cbn [writeValue]. by apply tracks_writeValue_.
Qed.

(** Errors. For a registry without custom members, [write] returns true
    exactly when the write reported nothing; the errors reported before
    the write are kept in front of the new ones, and [jsonerror_] is set
    exactly when the write returns false. *)
Theorem write_returns_true_iff_nothing_reported
    (fuel : nat) (t : ty) (a : Z) (name : string) (line : Z)
    (js : JsonSerial) (b : bool) (js' : JsonSerial) :
  write classes_ fuel t a name line js = Ret b js' ->
  exists more,
    reported js' = reported js ++ more
    /\ (b = true <-> more = [])
    /\ (b = false <-> jsonerror_ js' <> None).
Proof.
  unfold write, try_catch.
  match goal with
  | |- context [bind (modify ?f) ?k] =>
      change (bind (modify f) k js) with (k tt (f js));
      assert (errors_tracked (f js) (k tt (f js))) as H
  end.
  { cbv beta. apply tracks_bind; [apply tracks_writeValue|intros _]. tracks_auto. }
  revert H. cbv beta.
  match goal with |- errors_tracked _ ?o -> _ => destruct o as [u js1|js1|e js1| |] end;
    cbn [errors_tracked]; try discriminate.
  - intros (more & R & E) [= <- <-]. exists more. split; [exact R|].
    cbn [reset reported jsonerror_] in R, E.
    destruct more; destruct (jsonerror_ js1); cbn [non_null negb];
      try congruence; repeat split; try congruence; try discriminate.
  - intros [(more & R & E) N] [= <- <-]. exists more. split; [exact R|].
    cbn [reset reported jsonerror_] in R, E.
    destruct more; [congruence|]. repeat split; try congruence; discriminate.
Qed.

End WriterTracks.

(** ** The writer reads the memory and never writes it *)

Create HintDb keeps.

Lemma keeps_ret {A} (a : A) : keeps_mem (ret a).
Proof. intros js. reflexivity. Qed.

Lemma keeps_bind {A B} (m : M A) (k : A -> M B) :
  keeps_mem m -> (forall a, keeps_mem (k a)) -> keeps_mem (bind m k).
Proof.
  intros Hm Hk js. unfold bind. pose proof (Hm js) as H.
  destruct (m js) as [a js1|js1|e js1| |]; try exact H.
  pose proof (Hk a js1) as H1.
  destruct (k a js1); try exact I; congruence.
Qed.

Lemma keeps_gets {A} (f : JsonSerial -> A) : keeps_mem (gets f).
Proof. intros js. reflexivity. Qed.

Lemma keeps_modify f : (forall js, mem (f js) = mem js) -> keeps_mem (modify f).
Proof. intros H js. apply H. Qed.

Lemma keeps_undefined {A} : keeps_mem (@undefined A).
Proof. intros js. exact I. Qed.

Lemma keeps_error type arg fatal : keeps_mem (error type arg fatal).
Proof. intros js. unfold error. cbv zeta. destruct fatal; reflexivity. Qed.

Lemma keeps_load a : keeps_mem (load a).
Proof. intros js. unfold load. destruct (_ !! a); [reflexivity|exact I]. Qed.

Lemma keeps_typeid T a : keeps_mem (typeid T a).
Proof. intros js. unfold typeid. destruct (_ !! a) as [[]|]; reflexivity. Qed.

Lemma keeps_put s : keeps_mem (put s).
Proof. intros js. unfold put. destruct (out_ js); [reflexivity|exact I]. Qed.

Lemma keeps_addTab : keeps_mem addTab.
Proof.
  unfold addTab. apply keeps_modify. intros js. cbv zeta.
  match goal with |- context [if ?b then _ else _] => destruct b end; reflexivity.
Qed.

Lemma keeps_removeTab : keeps_mem removeTab.
Proof.
  unfold removeTab. apply keeps_modify. intros js.
  match goal with |- context [if ?b then _ else _] => destruct b end; reflexivity.
Qed.

#[local] Hint Resolve keeps_ret keeps_gets keeps_undefined keeps_error keeps_load
  keeps_typeid keeps_put keeps_addTab keeps_removeTab : keeps.

Ltac keeps_step :=
  first
    [ solve [auto 1 with keeps]
    | lazymatch goal with
      | |- keeps_mem (modify _) => apply keeps_modify; intros ?; reflexivity
      | |- keeps_mem (bind _ _) => apply keeps_bind; [|intros ?]
      | |- keeps_mem (match ?x with _ => _ end) => destruct x
      end ].

Ltac keeps_auto := repeat keeps_step.

Lemma keeps_writeTabs : keeps_mem writeTabs.
Proof. unfold writeTabs. keeps_auto. Qed.
Lemma keeps_writeString s is_cstring : keeps_mem (writeString s is_cstring).
Proof. unfold writeString. keeps_auto. Qed.
Lemma keeps_load_string a : keeps_mem (load_string a).
Proof. unfold load_string. keeps_auto. Qed.
Lemma keeps_load_cstr a : keeps_mem (load_cstr a).
Proof. unfold load_cstr. keeps_auto. Qed.
Lemma keeps_load_bool a : keeps_mem (load_bool a).
Proof. unfold load_bool. keeps_auto. Qed.
Lemma keeps_load_int a : keeps_mem (load_int a).
Proof. unfold load_int. keeps_auto. Qed.
Lemma keeps_load_ptr a : keeps_mem (load_ptr a).
Proof. unfold load_ptr. keeps_auto. Qed.
Lemma keeps_load_seq a : keeps_mem (load_seq a).
Proof. unfold load_seq. keeps_auto. Qed.
Lemma keeps_load_map a : keeps_mem (load_map a).
Proof. unfold load_map. keeps_auto. Qed.
#[local] Hint Resolve keeps_writeTabs keeps_writeString keeps_load_string
  keeps_load_cstr keeps_load_bool keeps_load_int keeps_load_ptr keeps_load_seq
  keeps_load_map : keeps.

Section WriterKeeps.

Variable classes_ : JsonClasses.
Hypothesis registry_ok : registry_no_custom classes_ = true.
Hypothesis hooks_ok : no_postwrite classes_ = true.

Section OneLevel.

Variable writeValue : ty -> Z -> M unit.
Hypothesis keeps_wv : forall t a, keeps_mem (writeValue t a).

Lemma keeps_write_returned t v : keeps_mem (write_returned writeValue t v).
Proof. unfold write_returned. destruct t, v; keeps_auto. Qed.

Lemma keeps_Member_write m obj :
  isCustom m = false -> keeps_mem (Member_write writeValue m obj).
Proof.
  unfold Member_write, isCustom. destruct (kind m); intros Hc; try discriminate;
    try apply keeps_wv.
  keeps_auto; try apply keeps_write_returned.
Qed.

Lemma keeps_write_own_members ms obj :
  forallb (fun m => negb (isCustom m)) ms = true ->
  keeps_mem (write_own_members writeValue ms obj).
Proof.
  induction ms as [|it ms IH]; intros H; [apply keeps_ret|].
  cbn [forallb] in H. apply andb_true_iff in H as [Hc H].
  apply negb_true_iff in Hc.
  cbn [write_own_members]. rewrite Hc.
  keeps_auto; first [by apply keeps_Member_write|by apply IH].
Qed.

Lemma keeps_ObjectClass_writeMembers cl :
  forall obj, no_custom cl = true ->
  keeps_mem (ObjectClass_writeMembers writeValue cl obj).
Proof.
  induction cl as [cl IH] using ObjectClass_supers_ind. intros obj Hn.
  destruct cl as [n sups cr ms mm pr pw]. cbn [superclasses_] in IH.
  cbn [no_custom members_ superclasses_] in Hn.
  apply andb_true_iff in Hn as [Hms Hsups].
  cbn [ObjectClass_writeMembers superclasses_ members_].
  apply keeps_bind; [|intros _; by apply keeps_write_own_members].
  clear Hms. induction sups as [|it sups IHs]; [apply keeps_ret|].
  apply andb_true_iff in Hsups as [Hit Hsups].
  inversion IH as [|? ? Pit Ps]; subst.
  apply keeps_bind; [by apply Pit|]. intros _. by apply IHs.
Qed.

Lemma keeps_MapClass_writeMembers E entries :
  keeps_mem (MapClass_writeMembers writeValue E entries).
Proof.
  induction entries as [|it entries IH]; [apply keeps_ret|].
  cbn [MapClass_writeMembers]. keeps_auto; try exact IH; try apply keeps_wv.
Qed.

Lemma keeps_writeMembers cl obj :
  metaclass_no_custom cl = true -> keeps_mem (writeMembers writeValue cl obj).
Proof.
  destruct cl as [cl|E]; cbn [metaclass_no_custom writeMembers]; intros H.
  - by apply keeps_ObjectClass_writeMembers.
  - apply keeps_bind; [keeps_auto|intros m]. apply keeps_MapClass_writeMembers.
Qed.

Lemma keeps_doPostWrite cl obj :
  match cl with Object cl => postwrite_ cl = None | MapClass _ => True end ->
  keeps_mem (doPostWrite cl obj).
Proof.
  unfold doPostWrite. destruct cl as [cl|E]; [|intros _; apply keeps_ret].
  intros ->. apply keeps_ret.
Qed.

Lemma keeps_writeObject cl derived obj :
  metaclass_no_custom cl = true ->
  match cl with Object cl => postwrite_ cl = None | MapClass _ => True end ->
  keeps_mem (writeObject writeValue cl derived obj).
Proof.
  intros H Hp. unfold writeObject.
  apply keeps_bind; [keeps_auto|intros sharing].
  apply keeps_bind; [keeps_auto|intros [id|]]; [keeps_auto|].
  keeps_auto; first [by apply keeps_writeMembers|by apply keeps_doPostWrite].
Qed.

Lemma keeps_writeArray_loop t elems : keeps_mem (writeArray_loop writeValue t elems).
Proof.
  induction elems as [|it elems IH]; [apply keeps_ret|].
  cbn [writeArray_loop]. keeps_auto; try exact IH; try apply keeps_wv.
Qed.

Lemma keeps_writeArray t elems : keeps_mem (writeArray writeValue t elems).
Proof. unfold writeArray. keeps_auto; try apply keeps_writeArray_loop. Qed.

Lemma keeps_writeValue2 t a : keeps_mem (writeValue2 classes_ writeValue t a).
Proof.
  unfold writeValue2. destruct t; try (keeps_auto; fail).
  - apply keeps_bind; [keeps_auto|intros dyn].
    destruct (getClass_type classes_ dyn) as [cl|] eqn:E; [|keeps_auto].
    assert ((dyn, cl) ∈ map_to_list (classindexes_ classes_)) as Hin
      by apply elem_of_map_to_list, E.
    apply list_elem_of_In in Hin.
    unfold registry_no_custom in registry_ok. rewrite forallb_forall in registry_ok.
    unfold no_postwrite in hooks_ok. rewrite forallb_forall in hooks_ok.
    apply keeps_writeObject.
    + apply (registry_ok _ Hin).
    + specialize (hooks_ok _ Hin). cbn [snd] in hooks_ok.
      destruct (postwrite_ cl); [discriminate|reflexivity].
  - apply keeps_bind; [keeps_auto|intros cont].
    destruct cont; [keeps_auto|apply keeps_writeArray].
  - by apply keeps_writeObject.
Qed.

Lemma keeps_writeValue_ t a : keeps_mem (writeValue_ classes_ writeValue t a).
Proof.
  unfold writeValue_. destruct t; keeps_auto; try apply keeps_writeValue2.
Qed.

End OneLevel.

Lemma keeps_writeValue fuel : forall t a, keeps_mem (writeValue classes_ fuel t a).
Proof.
  induction fuel as [|fuel IH]; intros t a; [intros js; exact I|].
  cbn [writeValue]. by apply keeps_writeValue_.
Qed.

(** The writer leaves the program's objects alone. For a registry
    without custom members and without [postwrite] functions, a [write],
    whether it returns true or false, leaves the memory exactly as it
    was; so does the write of any value inside it, also one that ends
    with an exception. *)
Theorem write_leaves_memory_unchanged
    (fuel : nat) (t : ty) (a : Z) (name : string) (line : Z)
    (js : JsonSerial) (b : bool) (js' : JsonSerial) :
  write classes_ fuel t a name line js = Ret b js' ->
  mem js' = mem js
  /\ forall fuel' t' a', keeps_mem (writeValue classes_ fuel' t' a').
Proof.
  intros H. split; [|intros; apply keeps_writeValue].
  revert H. unfold write, try_catch.
  match goal with
  | |- context [bind (modify ?f) ?k] =>
      change (bind (modify f) k js) with (k tt (f js));
      assert (keeps_mem (k tt)) as K
  end.
  { cbv beta. apply keeps_bind; [apply keeps_writeValue|intros _]. keeps_auto. }
  match type of K with keeps_mem ?m =>
    match goal with |- context [m ?s] => specialize (K s) end end.
  cbv beta in K |- *.
  match type of K with match ?o with _ => _ end =>
    destruct o as [u js1|js1|e js1| |] end; try discriminate;
    intros [= <- <-]; exact K.
Qed.

End WriterKeeps.

(** ** Members with string values: what is written is read back *)

(** The loop in [InQuotedToken2] over an escaped string: one turn for each
    character of the string, up to the closing quote. *)
Lemma quoted2_escaped s : forall acc fuel inObj lp l js rest,
  in_ js = Some (stream (escape s +:+ String DQUOTE rest)) ->
  token2_ js = acc ->
  in_multiquotes_ js = false ->
  all_writable s = true ->
  readLine_loop (String.length s + 1 + fuel) inObj InQuotedToken2 lp l js
  = readLine_loop fuel inObj AfterToken2 lp (set_token2 (acc +:+ s) l)
      (set_token2_ (acc +:+ s) (set_in_ (Some (stream rest)) js)).
Proof.
  induction s as [|c w IH]; intros acc fuel inObj lp l js rest Hin Ht Hmq Hp; subst acc.
  - change (escape "" +:+ String DQUOTE rest) with (String DQUOTE rest) in Hin.
    rewrite append_nil_r.
    cbn [String.length Nat.add]. rewrite readLine_loop_S. mrun.
    rewrite (in_get_cons _ _ _ Hin).
    rewrite before_switch_in_quotes2 by reflexivity.
    cbn [switch_part]. mrun. rewrite Hmq.
    change (ch_eq DQUOTE DQUOTE) with true. mrun.
    destruct js; reflexivity.
  - cbn [all_writable] in Hp. apply andb_true_iff in Hp as [Hc Hp].
    cbn [String.length Nat.add]. rewrite readLine_loop_S.
    destruct (escape_head c w Hc) as [[Hq E]|(x & E & Hx1 & Hx2 & Hu)];
      rewrite E in Hin.
    + apply quotable_inv in Hq as (H1 & H2 & H3).
      change (String c (escape w) +:+ String DQUOTE rest)
        with (String c (escape w +:+ String DQUOTE rest)) in Hin.
      mrun. rewrite (in_get_cons _ _ _ Hin).
      rewrite before_switch_in_quotes2 by assumption.
      cbn [switch_part]. mrun. rewrite Hmq, H1, H2. mrun.
      rewrite in_quotes_invalid_no by assumption. mrun.
      erewrite IH; [|reflexivity|reflexivity|exact Hmq|assumption].
      mrun. unfold push_back. rewrite append_assoc_1. destruct js; reflexivity.
    + change (String BSLASH (String x (escape w)) +:+ String DQUOTE rest)
        with (String BSLASH (String x (escape w +:+ String DQUOTE rest))) in Hin.
      mrun. rewrite (in_get_cons _ _ _ Hin).
      rewrite before_switch_in_quotes2 by reflexivity.
      cbn [switch_part]. mrun. rewrite Hmq.
      change (ch_eq BSLASH DQUOTE) with false.
      change (ch_eq BSLASH BSLASH) with true. cbv iota. mrun.
      unfold readEscape2. mrun. rewrite Hu.
      erewrite IH; [|reflexivity|reflexivity|exact Hmq|assumption].
      mrun. unfold push_back. rewrite append_assoc_1. destruct js; reflexivity.
Qed.

(** After the value, a comma ends the line. *)
Lemma after_token2_comma fuel inObj lp l js rest :
  in_ js = Some (stream (String "," rest)) ->
  readLine_loop (S fuel) inObj AfterToken2 lp l js
  = Ret l (set_in_ (Some (stream rest)) js).
Proof.
  intros Hin. rewrite readLine_loop_S. mrun. rewrite (in_get_cons _ _ _ Hin).
  rewrite before_switch_plain by reflexivity.
  cbn [switch_part]. mrun. rewrite separator_comma. reflexivity.
Qed.

(** After the value, a newline and the closing brace end the line; the
    brace is left on the stream. *)
Lemma after_token2_brace fuel inObj lp l js rest :
  in_ js = Some (stream (String LF (String "}" rest))) ->
  readLine_loop (S (S fuel)) inObj AfterToken2 lp l js
  = Ret l (set_lineno_ ((lineno_ js + 1) mod 2^64)
             (set_in_ (Some (stream (String "}" rest))) js)).
Proof.
  intros Hin. rewrite readLine_loop_S. mrun. rewrite (in_get_cons _ _ _ Hin).
  unfold before_switch. change (ch_eq LF LF) with true. mrun.
  cbn [switch_part]. unfold separator. mrun.
  change (ch_eq LF ",") with false. change (ch_eq LF LF) with true.
  cbn [orb]. rewrite andb_true_r.
  destruct (allows _ NoCommas) eqn:Hnc.
  - destruct js; reflexivity.
  - change (closing LF) with false. change (isspace LF) with true. mrun.
    rewrite readLine_loop_S. mrun.
    rewrite before_switch_plain by reflexivity.
    cbn [switch_part]. unfold separator. mrun.
    change (ch_eq "}" ",") with false. change (ch_eq "}" LF) with false.
    rewrite andb_false_r. cbn [orb]. change (closing "}") with true. mrun.
    destruct js; reflexivity.
Qed.

(** The first character of an escaped string is no quote. *)
Lemma escape_first c w :
  writable c = true ->
  exists x r, escape (String c w) = String x r /\ ch_eq x DQUOTE = false.
Proof.
  intros Hc. destruct (escape_head c w Hc) as [[Hq E]|(x & E & _)].
  - apply quotable_inv in Hq as (H1 & _). exists c, (escape w). by split.
  - exists BSLASH, (String x (escape w)). by split.
Qed.

(** The line of a member with a string value, up to the end of the
    value. *)
Lemma member_line_value js name s x tail :
  in_ js = Some (stream (member_line name s (String x tail))) ->
  in_multiquotes_ js = false ->
  all_quotable name = true ->
  all_writable s = true ->
  ch_eq x DQUOTE = false ->
  exists k,
    readLine true js
    = readLine_loop (S (k + String.length (String x tail))) true AfterToken2 Begin
        {| token1 := name; token2 := s; found1 := true; found2 := true |}
        (set_token1_ name (set_token2_ s (set_in_ (Some (stream (String x tail))) js))).
Proof.
  intros Hin Hmq Hn Hs Hx. unfold member_line in Hin.
  unfold readLine. mrun. unfold remaining. rewrite Hin.
  cbn [buf stream String.length]. rewrite readLine_loop_S. mrun.
  rewrite (in_get_cons _ DQUOTE _) by (mcbn; exact Hin).
  rewrite before_switch_plain by reflexivity.
  cbn [switch_part]. change (ch_eq DQUOTE DQUOTE) with true. mrun.
  rewrite length_append. cbn [String.length].
  match goal with
  | |- context [readLine_loop (S (String.length name + S ?n))] =>
      replace (S (String.length name + S n))
        with (String.length name + 1 + S n)%nat by lia
  end.
  erewrite quoted1_loop; [|mcbn; reflexivity|reflexivity|assumption].
  mrun. rewrite readLine_loop_S. mrun.
  rewrite before_switch_plain by reflexivity.
  cbn [switch_part]. mrun. rewrite separator_plain by reflexivity.
  change (closing ":") with false. change (ch_eq ":" ":" && true) with true. mrun.
  rewrite readLine_loop_S. mrun.
  rewrite before_switch_plain by reflexivity.
  cbn [switch_part]. change (ch_eq " " DQUOTE) with false.
  change (opening " ") with false. change (isspace " ") with true. mrun.
  rewrite readLine_loop_S. mrun.
  rewrite before_switch_plain by reflexivity.
  cbn [switch_part]. change (ch_eq DQUOTE DQUOTE) with true. cbv zeta iota.
  rewrite length_append. cbn [String.length].
  destruct s as [|c w].
  - change (escape "" +:+ String DQUOTE (String x tail))
      with (String DQUOTE (String x tail)).
    rewrite (bind_peek_is DQUOTE _ _ DQUOTE (String x tail)) by (mcbn; reflexivity).
    change (ch_eq DQUOTE DQUOTE) with true. mrun.
    rewrite Hx. mrun.
    exists 1%nat. cbn [escape String.length Nat.add]. first [reflexivity|f_equal; destruct js; reflexivity].
  - cbn [all_writable] in Hs. pose proof Hs as Hs'.
    apply andb_true_iff in Hs' as [Hc _].
    destruct (escape_first c w Hc) as (y & r & E & Hy).
    rewrite (bind_peek_is DQUOTE _ _ y (r +:+ String DQUOTE (String x tail)))
      by (mcbn; rewrite E; reflexivity).
    rewrite Hy. mrun.
    destruct (escape_length (String c w)) as [k Hk]. rewrite Hk.
    match goal with
    | |- context [readLine_loop ?n] =>
        replace n with (String.length (String c w) + 1
                        + S (k + String.length (String x tail)))%nat
          by (cbn [String.length]; lia)
    end.
    erewrite quoted2_escaped;
      [|mcbn; reflexivity|reflexivity|mcbn; exact Hmq|exact Hs].
    exists k. mrun. first [reflexivity|f_equal; destruct js; reflexivity].
Qed.

(** A member with a string value, as the writer writes it before another
    member. *)
Lemma string_member_comma js name s rest :
  in_ js = Some (stream (member_line name s (String "," rest))) ->
  in_multiquotes_ js = false ->
  all_quotable name = true ->
  all_writable s = true ->
  readLine true js
  = Ret {| token1 := name; token2 := s; found1 := true; found2 := true |}
      (set_token1_ name (set_token2_ s (set_in_ (Some (stream rest)) js))).
Proof.
  intros Hin Hmq Hn Hs.
  destruct (member_line_value js name s "," rest Hin Hmq Hn Hs eq_refl) as [k ->].
  rewrite (after_token2_comma _ _ _ _ _ rest) by (mcbn; reflexivity).
  try reflexivity; f_equal; destruct js; reflexivity.
Qed.

(** The last member of an object. *)
Lemma string_member_last js name s rest :
  in_ js = Some (stream (member_line name s (String LF (String "}" rest)))) ->
  in_multiquotes_ js = false ->
  all_quotable name = true ->
  all_writable s = true ->
  readLine true js
  = Ret {| token1 := name; token2 := s; found1 := true; found2 := true |}
      (set_lineno_ ((lineno_ js + 1) mod 2^64)
         (set_token1_ name (set_token2_ s
            (set_in_ (Some (stream (String "}" rest))) js)))).
Proof.
  intros Hin Hmq Hn Hs.
  destruct (member_line_value js name s LF (String "}" rest) Hin Hmq Hn Hs eq_refl)
    as [k ->].
  cbn [String.length]. rewrite Nat.add_succ_r.
  rewrite (after_token2_brace _ _ _ _ _ rest) by (mcbn; reflexivity).
  try reflexivity; f_equal; destruct js; reflexivity.
Qed.

(** [checkValue] on the name of a line that is a closing brace. *)
Lemma checkValue_brace t js : trimRight t = "}" -> checkValue t true js = Ret "}" js.
Proof.
  intros H. unfold checkValue. cbv zeta. rewrite H. mrun.
  change (ch_eq (front "}") "}") with true. rewrite orb_true_r. reflexivity.
Qed.

(** The line of the closing brace, at the end of what [write] writes: in
    every dialect the token is the brace, and nothing is reported. *)
Lemma closing_brace_line js :
  in_ js = Some (stream (String "}" (String LF (String LF "")))) ->
  exists js',
    readLine true js
    = Ret {| token1 := "}"; token2 := ""; found1 := true; found2 := false |} js'
    /\ mem js' = mem js /\ reported js' = reported js
    /\ jsonerror_ js' = jsonerror_ js.
Proof.
  intros Hin. unfold readLine. mrun. unfold remaining. rewrite Hin.
  cbn [buf stream String.length]. rewrite readLine_loop_S. mrun.
  rewrite (in_get_cons _ "}" _) by (mcbn; exact Hin).
  rewrite before_switch_plain by reflexivity.
  cbn [switch_part]. change (ch_eq "}" DQUOTE) with false.
  change (opening "}") with false. change (isspace "}") with false. mrun.
  rewrite readLine_loop_S. mrun.
  unfold before_switch. change (ch_eq LF LF) with true. mrun.
  cbn [switch_part]. unfold separator. mrun.
  change (ch_eq LF ",") with false. change (ch_eq LF LF) with true.
  cbn [orb]. rewrite andb_true_r. unfold allows. mcbn.
  destruct (negb (Z.land (allow_ js) NoCommas =? 0)) eqn:Hnc.
  - mrun. rewrite checkValue_brace by reflexivity. mrun.
    eexists. split; [reflexivity|]. repeat split; reflexivity.
  - change (closing LF) with false. change (ch_eq LF ":" && true) with false.
    change (ch_eq LF BSLASH) with false. mrun.
    rewrite readLine_loop_S. mrun.
    unfold before_switch. change (ch_eq LF LF) with true. mrun.
    cbn [switch_part]. unfold separator. mrun.
    change (ch_eq LF ",") with false. change (ch_eq LF LF) with true.
    cbn [orb]. rewrite andb_true_r. unfold allows. mcbn. rewrite Hnc.
    change (closing LF) with false. change (ch_eq LF ":" && true) with false.
    change (ch_eq LF BSLASH) with false. mrun.
    rewrite readLine_loop_S. mrun.
    change (negb (empty (push_back (push_back (push_back "" "}") LF) LF))) with true.
    cbv iota. mrun.
    rewrite checkValue_brace by reflexivity. mrun.
    eexists. split; [reflexivity|]. repeat split; reflexivity.
Qed.

(** The indentation in front of the line of a member. *)
Lemma indented_line (w rest : string) (js : JsonSerial) :
  in_ js = Some (stream (w +:+ rest)) ->
  all_space w = true ->
  readLine true js
  = readLine true
      (set_lineno_ (lines_after w (lineno_ js)) (set_in_ (Some (stream rest)) js)).
Proof.
  intros Hin Hw. unfold readLine. mrun. unfold remaining. mcbn. rewrite Hin.
  cbn [buf stream]. rewrite length_append.
  replace (S (String.length w + String.length rest))
    with (String.length w + S (String.length rest))%nat by lia.
  erewrite skip_space_loop; [|mcbn; exact Hin|exact Hw].
  reflexivity.
Qed.

(** The line of an opening brace. *)
Lemma opening_brace_line inObj js rest :
  in_ js = Some (stream (String "{" rest)) ->
  readLine inObj js
  = Ret {| token1 := "{"; token2 := ""; found1 := true; found2 := false |}
      (set_in_ (Some (stream rest)) (set_token2_ "" (set_token1_ "" js))).
Proof.
  intros Hin. unfold readLine. mrun. unfold remaining. rewrite Hin.
  cbn [buf stream String.length]. rewrite readLine_loop_S. mrun.
  rewrite (in_get_cons _ "{" _) by (mcbn; exact Hin).
  rewrite before_switch_plain by reflexivity.
  cbn [switch_part]. change (ch_eq "{" DQUOTE) with false.
  change (opening "{") with true. mrun. destruct js; reflexivity.
Qed.

Lemma typeid_static T a js :
  (forall dyn, cells (mem js) !! a <> Some (VVptr dyn)) -> typeid T a js = Ret T js.
Proof.
  intros H. unfold typeid. destruct (cells (mem js) !! a) as [[]|] eqn:E;
    try reflexivity. by destruct (H dyn).
Qed.

Section StringMembers.

Variable classes_ : JsonClasses.
Variable typeinfo : string -> TypeInfo.
Variable rp ra : ty -> Z -> option Creator -> string -> M unit.

Lemma string_member_assigned fuel cl obj part off name n' value js :
  find_member cl obj name
  = Some ({| name := n'; kind := InstanceMember off TString |}, part) ->
  read_member_or_warn typeinfo (readValue classes_ typeinfo (S fuel)) rp ra
    (Object cl) obj name value js
  = Ret tt (assigned (part + off) (VStr value) js).
Proof.
  intros Hf. unfold read_member_or_warn, catch_invalid_argument. cbn [readMember].
  unfold bind at 1. rewrite readMember_order, Hf.
  cbn [Member_read kind]. cbn [readValue]. unfold readValue_. reflexivity.
Qed.

(** One turn of the loop of [readObject] at the line of a string member. *)
Lemma string_member_turn fuel n cl pc cr obj part off n' js js1 s l :
  in_ js = Some s -> good s = true ->
  readLine true js = Ret l js1 ->
  found1 l = true -> found2 l = true ->
  ch_eq (front (token1 l)) "@" = false -> String.eqb (token1 l) "}" = false ->
  find_member cl obj (token1 l)
  = Some ({| name := n'; kind := InstanceMember off TString |}, part) ->
  readObject_loop classes_ typeinfo (readValue classes_ typeinfo (S fuel)) rp ra
    (S n) (Some (Object cl)) pc cr obj js
  = readObject_loop classes_ typeinfo (readValue classes_ typeinfo (S fuel)) rp ra
      n (Some (Object cl)) pc cr obj (assigned (part + off) (VStr (token2 l)) js1).
Proof.
  intros Hin Hgood Hline Hf1 Hf2 Hat Hbrace Hfind.
  rewrite readObject_loop_S.
  rewrite (bind_Ret _ _ _ _ _ (in_good_good js s Hin Hgood)). cbn [negb].
  rewrite (bind_Ret _ _ _ _ _ Hline). cbv zeta.
  rewrite Hf1, Hf2, Hat. cbn [negb andb].
  rewrite Hbrace, (not_at_not_id _ Hat).
  cbn [bind ret pin_class].
  rewrite (bind_Ret _ _ _ _ _ (string_member_assigned fuel cl obj part off _ n' _ js1 Hfind)).
  reflexivity.
Qed.

(** The turn at the closing brace, for a class without [postread]. *)
Lemma closing_brace_turn rv n cl pc cr obj js js1 s l :
  in_ js = Some s -> good s = true ->
  readLine true js = Ret l js1 ->
  found1 l = true -> token1 l = "}" ->
  postread_ cl = None ->
  readObject_loop classes_ typeinfo rv rp ra (S n) (Some (Object cl)) pc cr obj js
  = Ret obj js1.
Proof.
  intros Hin Hgood Hline Hf1 Ht Hpost.
  rewrite readObject_loop_S.
  rewrite (bind_Ret _ _ _ _ _ (in_good_good js s Hin Hgood)). cbn [negb].
  rewrite (bind_Ret _ _ _ _ _ Hline). cbv zeta.
  rewrite Hf1, Ht. change ("}" =? "}")%string with true.
  change (ch_eq (front "}") "@") with false.
  cbn [negb andb]. rewrite andb_false_r.
  cbn [bind ret pin_class]. unfold doPostRead. rewrite Hpost. reflexivity.
Qed.

End StringMembers.

Lemma string_app_assoc (a b c : string) : (a +:+ b) +:+ c = a +:+ (b +:+ c).
Proof.
  induction a as [|x a IH]; [reflexivity|].
  change (String x ((a +:+ b) +:+ c) = String x (a +:+ (b +:+ c))). by rewrite IH.
Qed.

(** What [write] writes for an object of the class [P]. *)
Lemma P_object_bytes (s1 s2 : string) (fuel : nat) (name : string) (line : Z) :
  let r := write Scenario.classes (S (S (S fuel))) (TObj "P") 100 name line
             (Scenario.engine (P_object s1 s2)) in
  Scenario.result r = Some true
  /\ Scenario.written r = Some (P_document (c_str s1) (c_str s2)).
Proof.
  intros r. split; [vm_compute; reflexivity|].
  assert (W : Scenario.written r
              = Some (fold_left append
                        [ "{" +:+ str1 LF; "  ";
                          str1 DQUOTE +:+ "type" +:+ str1 DQUOTE +:+ ": ";
                          str1 DQUOTE +:+ escape (c_str s1) +:+ str1 DQUOTE;
                          "," +:+ str1 LF; "  ";
                          str1 DQUOTE +:+ "number" +:+ str1 DQUOTE +:+ ": ";
                          str1 DQUOTE +:+ escape (c_str s2) +:+ str1 DQUOTE;
                          str1 LF; ""; "}"; str1 LF; str1 LF ] ""))
    by (vm_compute; reflexivity).
  rewrite W. f_equal. cbn [fold_left].
  rewrite !string_app_assoc. reflexivity.
Qed.

Lemma P_registered :
  getClass_type Scenario.classes "P" = Some (Scenario.class_of "P")
  /\ getMember (Scenario.class_of "P") "type"
     = Some {| name := "type"; kind := InstanceMember 0 TString |}
  /\ getMember (Scenario.class_of "P") "number"
     = Some {| name := "number"; kind := InstanceMember 1 TString |}
  /\ postread_ (Scenario.class_of "P") = None.
Proof. vm_compute. repeat split; reflexivity. Qed.

(** Reading what was written for an object of the class [P], into an
    object of this class at [a]. *)
Lemma P_document_read (s1 s2 : string) (fuel : nat) (a : Z) (name : string) (line : Z)
    (js : JsonSerial) :
  all_writable s1 = true -> all_writable s2 = true ->
  (forall dyn, cells (mem js) !! a <> Some (VVptr dyn)) ->
  exists js',
    read Scenario.classes Scenario.typeinfo (S (S fuel)) (TObj "P") a
      (P_document s1 s2) name line js = Ret true js'
    /\ mem js' = {| cells := <[a + 1 := VStr s2]> (<[a + 0 := VStr s1]> (cells (mem js)));
                    brk := brk (mem js) |}
    /\ reported js' = reported js.
Proof.
  intros H1 H2 Hdyn.
  destruct P_registered as (Hcl & Htype & Hnumber & Hpost).
  unfold read, try_catch.
  match goal with
  | |- context [bind (modify ?f) ?k js] =>
      change (bind (modify f) k js) with (k tt (f js)); set (js0 := f js)
  end.
  cbv beta.
  assert (Hin0 : in_ js0 = Some (stream (P_document s1 s2))) by reflexivity.
  unfold P_document in Hin0.
  rewrite (bind_Ret _ _ _ _ _ (opening_brace_line true js0 _ Hin0)).
  cbn [found1 token1].
  set (js1 := set_in_ _ (set_token2_ "" (set_token1_ "" js0))).
  cbn [readValue]. unfold readValue_ at 1.
  rewrite (bind_Ret _ _ _ _ _ (typeid_static "P" a js1 Hdyn)).
  unfold getCheckedClass. rewrite Hcl. cbn [bind ret].
  unfold readObject. change (empty "{") with false.
  change (ch_eq (front "{") "@") with false. change ("{" =? "{")%string with true.
  cbv iota. cbn [negb]. mrun. unfold remaining. cbn [in_ js1 set_in_ buf stream].
  change ("  " +:+ ?x) with (String " " (String " " x)).
  cbn [String.length].
  (* the member type *)
  erewrite (string_member_turn Scenario.classes Scenario.typeinfo _ _ fuel _ _ _ _ a a 0
              "type" js1).
  2:{ reflexivity. }
  2:{ reflexivity. }
  2:{ rewrite (indented_line (String LF "  ") _ js1 eq_refl eq_refl).
      apply string_member_comma; [mcbn; reflexivity|reflexivity|reflexivity|exact H1]. }
  2-5: reflexivity.
  2:{ cbn [token1]. apply find_member_own, Htype. }
  cbn [token2].
  match goal with
  | |- context [readObject_loop _ _ _ _ _ _ _ _ _ _ ?st] => set (js2 := st)
  end.
  (* the member number *)
  erewrite (string_member_turn Scenario.classes Scenario.typeinfo _ _ fuel _ _ _ _ a a 1
              "number" js2).
  2:{ reflexivity. }
  2:{ reflexivity. }
  2:{ rewrite (indented_line (String LF "  ") _ js2 eq_refl eq_refl).
      apply string_member_last; [mcbn; reflexivity|reflexivity|reflexivity|exact H2]. }
  2-5: reflexivity.
  2:{ cbn [token1]. apply find_member_own, Hnumber. }
  cbn [token2].
  match goal with
  | |- context [readObject_loop _ _ _ _ _ _ _ _ _ _ ?st] => set (js3 := st)
  end.
  (* the closing brace *)
  destruct (closing_brace_line js3 eq_refl) as (js4 & Hline & Hm & Hr & He).
  erewrite (closing_brace_turn Scenario.classes Scenario.typeinfo _ _ _ _ _ _ _ a js3 js4);
    [|reflexivity|reflexivity|exact Hline|reflexivity|reflexivity|exact Hpost].
  cbn [bind ret]. rewrite He. cbn [jsonerror_ js3 js2 js1 js0 assigned set_mem set_lineno_
    set_token1_ set_token2_ set_in_ reset non_null negb].
  exists js4. split; [reflexivity|]. split; [rewrite Hm|rewrite Hr]; reflexivity.
Qed.

(** Round trip. An object of the class [P], whose two members are
    strings: whatever the two strings, as long as they hold no control
    character that [writeString] does not escape, [write] succeeds, and
    [read] of what it wrote, in every dialect and into any object of the
    class, succeeds, reports nothing and leaves the two strings in the
    members; no other cell of the memory is written. *)
Theorem string_members_round_trip
    (s1 s2 : string) (fuel : nat) (name : string) (line : Z) :
  all_writable s1 = true -> all_writable s2 = true ->
  let w := write Scenario.classes (S (S (S fuel))) (TObj "P") 100 name line
             (Scenario.engine (P_object s1 s2)) in
  exists doc,
    Scenario.result w = Some true
    /\ Scenario.written w = Some doc
    /\ forall (js : JsonSerial) (a : Z) (name' : string) (line' : Z),
         (forall dyn, cells (mem js) !! a <> Some (VVptr dyn)) ->
         exists js',
           read Scenario.classes Scenario.typeinfo (S (S fuel)) (TObj "P") a
             doc name' line' js = Ret true js'
           /\ mem js'
              = {| cells := <[a + 1 := VStr s2]> (<[a + 0 := VStr s1]> (cells (mem js)));
                   brk := brk (mem js) |}
           /\ reported js' = reported js.
Proof.
  intros H1 H2 w. exists (P_document s1 s2).
  destruct (P_object_bytes s1 s2 fuel name line) as [R W].
  rewrite !all_writable_c_str in W by assumption.
  split; [exact R|]. split; [exact W|].
  intros js a name' line' Hdyn. by apply P_document_read.
Qed.

(** ** The loop of [readLine] ends *)

Lemma bounded_ret {A} free (a : A) : bounded free (ret a).
Proof. intros js. right. reflexivity. Qed.

Lemma bounded_free {A} (free : A -> bool) (a : A) (m : M unit) :
  free a = true -> (forall js, m js <> OutOfFuel) -> bounded free (m ;;; ret a).
Proof.
  intros Hf Hm js. unfold bind. specialize (Hm js).
  destruct (m js); try exact I; [by left|congruence].
Qed.

Lemma bounded_bind {A B} free (m : M A) (k : A -> M B) :
  bounded never m -> (forall a, bounded free (k a)) -> bounded free (bind m k).
Proof.
  intros Hm Hk js. unfold bind. specialize (Hm js).
  destruct (m js) as [a js1|js1|e js1| |]; try exact Hm.
  specialize (Hk a js1). destruct (k a js1) as [b js2|js2|e js2| |]; try exact Hk.
  destruct Hm as [Hm|Hm]; [discriminate Hm|].
  destruct Hk as [Hk|Hk]; [by left|right; lia].
Qed.

Lemma bounded_gets {A} free (f : JsonSerial -> A) : bounded free (gets f).
Proof. intros js. right. reflexivity. Qed.

Lemma bounded_modify free f :
  (forall js, in_ (f js) = in_ js) -> bounded free (modify f).
Proof. intros H js. right. unfold modify, remaining. by rewrite H. Qed.

Lemma bounded_undefined {A} free : bounded free (@undefined A).
Proof. intros js. exact I. Qed.

Lemma bounded_error free type arg fatal : bounded free (error type arg fatal).
Proof. intros js. unfold error. cbv zeta. destruct fatal; [exact I|right; reflexivity]. Qed.

Lemma bounded_in_get free : bounded free in_get.
Proof.
  intros js. unfold in_get, with_in. destruct (in_ js) as [s|] eqn:E; [|exact I].
  unfold stream_get, remaining. rewrite E.
  destruct (good s); [destruct (buf s) eqn:Eb|]; right; cbn; rewrite ?Eb; cbn; lia.
Qed.

Lemma bounded_in_peek free : bounded free in_peek.
Proof.
  intros js. unfold in_peek, with_in. destruct (in_ js) as [s|] eqn:E; [|exact I].
  unfold stream_peek, remaining. rewrite E.
  destruct (good s); [destruct (buf s) eqn:Eb|]; right; cbn; rewrite ?E, ?Eb; cbn; lia.
Qed.

Create HintDb bounded.
#[local] Hint Resolve bounded_ret bounded_gets bounded_undefined bounded_error
  bounded_in_get bounded_in_peek : bounded.

Ltac bounded_step :=
  first
    [ solve [auto 1 with bounded]
    | lazymatch goal with
      | |- bounded _ (modify _) => apply bounded_modify; intros ?; reflexivity
      | |- bounded _ (bind _ _) => apply bounded_bind; [|intros ?]
      | |- bounded _ (match ?x with _ => _ end) => destruct x
      end ].

Ltac bounded_auto := repeat bounded_step.

Lemma bounded_peek_is free d : bounded free (peek_is d).
Proof. unfold peek_is. bounded_auto. Qed.
Lemma bounded_checkValue free token objName : bounded free (checkValue token objName).
Proof. unfold checkValue. cbv zeta. bounded_auto. Qed.
Lemma bounded_readEscape1 free : bounded free readEscape1.
Proof. unfold readEscape1. bounded_auto. Qed.
Lemma bounded_readEscape2 free : bounded free readEscape2.
Proof. unfold readEscape2. bounded_auto. Qed.
Lemma bounded_INVALID_CHAR {A} free c : bounded free (@INVALID_CHAR A c).
Proof. unfold INVALID_CHAR. cbv zeta. bounded_auto. Qed.
Lemma bounded_separator free c : bounded free (separator c).
Proof. unfold separator. bounded_auto. Qed.
Lemma bounded_in_quotes_invalid free c : bounded free (in_quotes_invalid c).
Proof. unfold in_quotes_invalid. bounded_auto. Qed.
#[local] Hint Resolve bounded_peek_is bounded_checkValue bounded_readEscape1
  bounded_readEscape2 bounded_INVALID_CHAR bounded_separator bounded_in_quotes_invalid
  : bounded.

Lemma bounded_before_switch part lastPart c :
  bounded never (before_switch part lastPart c).
Proof. unfold before_switch. bounded_auto. Qed.

(** After [putback], the turn leaves the loop. *)
Lemma bounded_putback_return c (k : M turn) :
  (forall js, match k js with
              | Ret r _ => leaves_loop r = true
              | OutOfFuel => False
              | _ => True
              end) ->
  bounded leaves_loop (in_putback c ;;; k).
Proof.
  intros Hk js. unfold bind, in_putback, with_in.
  destruct (in_ js); [|exact I].
  match goal with |- context [k ?s] => specialize (Hk s); destruct (k s) end;
    try exact I; [by left|exact Hk].
Qed.

Lemma checkValue_returns t b (f : string -> turn) :
  (forall t, leaves_loop (f t) = true) ->
  forall js, match (t <- checkValue t b ;; ret (f t)) js with
             | Ret r _ => leaves_loop r = true
             | OutOfFuel => False
             | _ => True
             end.
Proof.
  intros Hf js. unfold checkValue. cbv zeta. unfold bind, gets, ret, error.
  repeat match goal with
         | |- context [if ?b then _ else _] => destruct b
         end; first [apply Hf | exact I].
Qed.

Lemma bounded_switch_part inObj part lastPart c l :
  bounded leaves_loop (switch_part inObj part lastPart c l).
Proof.
  unfold switch_part. destruct part; cbv zeta;
    repeat first
      [ lazymatch goal with
        | |- bounded _ (in_putback _ ;;; _) =>
            apply bounded_putback_return;
            first [ intros ?; reflexivity
                  | intros js0; unfold bind at 1, gets;
                    apply (checkValue_returns _ _ (fun t => Return (set_token1 t l)));
                    reflexivity
                  | intros js0; unfold bind at 1, gets;
                    apply (checkValue_returns _ _ (fun t => Return (set_token2 t l)));
                    reflexivity ]
        end
      | bounded_step ].
Qed.

Lemma in_get_takes js c js1 :
  in_get js = Ret (Some c) js1 -> (S (remaining js1) = remaining js)%nat.
Proof.
  unfold in_get, with_in, remaining. destruct (in_ js) as [s|]; [|discriminate].
  unfold stream_get. destruct (good s); [destruct (buf s) eqn:Eb|];
    intros [= <- <-]. cbn. reflexivity.
Qed.

Lemma readLine_loop_ends fuel : forall inObj part lastPart l js,
  (remaining js < fuel)%nat ->
  readLine_loop fuel inObj part lastPart l js <> OutOfFuel.
Proof.
  induction fuel as [|fuel IH]; intros inObj part lastPart l js Hf; [lia|].
  rewrite readLine_loop_S. unfold bind at 1.
  destruct (in_get js) as [[c|] js1|js1|e js1| |] eqn:Eg; try discriminate.
  - apply in_get_takes in Eg.
    unfold bind at 1. pose proof (bounded_before_switch part lastPart c js1) as Hb.
    destruct (before_switch part lastPart c js1) as [[[p lp] c'] js2|js2|e js2| |];
      try discriminate; [|contradiction].
    destruct Hb as [Hb|Hb]; [discriminate Hb|].
    unfold bind at 1. pose proof (bounded_switch_part inObj p lp c' l js2) as Hs.
    destruct (switch_part inObj p lp c' l js2) as [[l'|p' lp' l'] js3|js3|e js3| |];
      try discriminate; [|contradiction].
    destruct Hs as [Hs|Hs]; [discriminate Hs|]. apply IH. lia.
  - pose proof (bounded_checkValue never (token1_ js1) inObj js1) as Hc.
    unfold bind, gets, ret.
    destruct (negb (empty (token1_ js1))); [|discriminate].
    destruct (checkValue (token1_ js1) inObj js1); try discriminate. contradiction.
  - pose proof (bounded_in_get never js) as H. rewrite Eg in H. contradiction.
Qed.

(** The loop of [readLine] ends on every stream: each turn takes at least
    one byte and none is put back before another turn, so that a call of
    [readLine] returns a line, raises an error or (with no stream) is
    undefined, within as many turns as the stream has bytes, plus one. *)
Theorem readLine_ends (inObj : bool) (js : JsonSerial) :
  readLine inObj js <> OutOfFuel
  /\ forall fuel,
       (remaining js < fuel)%nat ->
       readLine_loop fuel inObj Begin Begin
         {| token1 := ""; token2 := ""; found1 := false; found2 := false |}
         (set_token2_ "" (set_token1_ "" js)) <> OutOfFuel.
Proof.
  split.
  - unfold readLine. unfold bind, modify. apply readLine_loop_ends.
    unfold remaining. cbn. lia.
  - intros fuel Hf. apply readLine_loop_ends. unfold remaining in *. cbn. exact Hf.
Qed.

(** ** Numbers: what [stoi] takes from a token *)

Lemma scan_digits_app ds : forall tail acc,
  all_digits ds = true -> starts_no_digit tail = true ->
  scan_digits 10 (ds +:+ tail) acc = scan_digits 10 ds acc.
Proof.
  induction ds as [|c ds IH]; intros tail acc D T.
  - change ("" +:+ tail) with tail. destruct tail as [|c r]; [reflexivity|].
    cbn [starts_no_digit] in T. cbn [scan_digits].
    destruct c as [[] [] [] [] [] [] [] []]; first [discriminate T | reflexivity].
  - cbn [all_digits] in D. apply andb_true_iff in D as [Hc D].
    change (String c ds +:+ tail) with (String c (ds +:+ tail)). cbn [scan_digits].
    destruct (digit_of c); [|reflexivity].
    destruct (z <? 10); [by apply IH|reflexivity].
Qed.

Lemma skip_space_app ws s :
  all_space ws = true -> skip_space (ws +:+ s) = skip_space s.
Proof.
  induction ws as [|c ws IH]; intros H; [reflexivity|].
  cbn [all_space] in H. apply andb_true_iff in H as [Hc H].
  change (String c ws +:+ s) with (String c (ws +:+ s)). cbn [skip_space].
  rewrite Hc. by apply IH.
Qed.

Lemma c_str_prefix s t : c_str s = s -> c_str (s +:+ t) = s +:+ c_str t.
Proof.
  induction s as [|c s IH]; intros H; [reflexivity|].
  change (String c s +:+ t) with (String c (s +:+ t)). cbn [c_str] in *.
  destruct (ch_eq c NUL); [discriminate H|]. injection H as H. by rewrite IH.
Qed.

Lemma all_space_c_str ws : all_space ws = true -> c_str ws = ws.
Proof.
  induction ws as [|c ws IH]; intros H; [reflexivity|].
  cbn [all_space] in H. apply andb_true_iff in H as [Hc H]. cbn [c_str].
  destruct (ch_eq c NUL) eqn:E.
  - apply Ascii.eqb_eq in E. subst c. discriminate Hc.
  - by rewrite IH.
Qed.

Lemma starts_no_digit_c_str t : starts_no_digit t = true -> starts_no_digit (c_str t) = true.
Proof.
  destruct t as [|c r]; [done|]. cbn [c_str starts_no_digit].
  by destruct (ch_eq c NUL).
Qed.

(** The subject sequence of a written integer between white space and
    something that is no digit. *)
Lemma scan_integer_between (n : Z) (ws tail : string) :
  all_space ws = true -> starts_no_digit tail = true ->
  scan_integer 10 (ws +:+ pretty n +:+ tail) = Some (n <? 0, Z.abs n).
Proof.
  intros W T. rewrite <- (scan_integer_pretty_Z n).
  destruct (pretty_Z_shape n) as (ds & D & N0 & E & _). rewrite E.
  destruct ds as [|c r]; [done|].
  pose proof D as D'. cbn [all_digits] in D'. apply andb_true_iff in D' as [Hc _].
  destruct (isdigit_facts _ Hc) as (F1 & F2 & F3 & _).
  unfold scan_integer. rewrite (skip_space_app ws _ W).
  destruct (n <? 0).
  - change (("-" +:+ String c r) +:+ tail) with (String "-" (String c r +:+ tail)).
    change ("-" +:+ String c r) with (String "-" (String c r)).
    cbn [skip_space]. change (isspace "-") with false. cbv iota zeta.
    change (ch_eq "-" "-") with true. cbv iota.
    change (10 =? 0) with false. cbv iota.
    by rewrite (scan_digits_app (String c r) tail None D T).
  - change (("" +:+ String c r) +:+ tail) with (String c (r +:+ tail)).
    change ("" +:+ String c r) with (String c r).
    cbn [skip_space]. rewrite F1. cbv iota zeta. rewrite F2, F3.
    change (10 =? 0) with false. cbv iota.
    change (String c (r +:+ tail)) with (String c r +:+ tail).
    by rewrite (scan_digits_app (String c r) tail None D T).
Qed.

(** What [std::stoi] takes from a token: white space in front of the
    number is skipped and whatever follows its digits is ignored. A token
    made of white space, a written [int] and a rest that does not start
    with a digit is read as this [int]: no error is raised for the rest. *)
Theorem stoi_reads_a_prefix (n : Z) (ws tail : string) :
  - 2^31 <= n < 2^31 ->
  all_space ws = true -> starts_no_digit tail = true ->
  parses_as TInt (ws +:+ pretty n +:+ tail) (VInt n).
Proof.
  intros Hn W T js. cbn [readScalar]. unfold bind, stoi.
  rewrite (c_str_prefix ws _ (all_space_c_str ws W)).
  rewrite (c_str_prefix (pretty n) tail (pretty_Z_c_str n)).
  rewrite (scan_integer_between n ws (c_str tail) W (starts_no_digit_c_str tail T)).
  replace (if n <? 0 then - Z.abs n else Z.abs n) with n
    by (destruct (Z.ltb_spec n 0); lia).
  replace ((n <? - 2^31) || (2^31 <=? n)) with false; [reflexivity|].
  symmetry. apply orb_false_iff. split; [apply Z.ltb_ge|apply Z.leb_gt]; lia.
Qed.

(** ** The concrete scenarios *)

Import Scenario.

(** C3, as amended. Writing [P("home","212")] with sharing off and the
    indentation (space, 2) produces an opening brace, the two members on
    lines of their own, indented by two spaces and separated by a comma, the
    closing brace on a line of its own, and two newlines after it: the one
    that [write] puts and the one of [std::endl]. The call returns true. *)
Theorem single_object_bytes (fuel : nat) :
  let call := write classes (S (S fuel)) (TObj "P") 100 "" 1 (engine home_212) in
  written call = Some (lit "{$  'type': 'home',$  'number': '212'$}$$")
  /\ result call = Some true.
Proof. vm_compute. auto. Qed.

(** C3 as the specification states it, with one newline after the closing
    brace, is not what is written. *)
Lemma single_object_one_newline :
  written (write classes 2 (TObj "P") 100 "" 1 (engine home_212))
  <> Some (lit "{$  'type': 'home',$  'number': '212'$}$").
Proof. vm_compute. discriminate. Qed.

(** C1 on the failing input. The graph is one object of the registered
    class [V] whose vector holds the one string "]". It is written without
    an error; reading the stream back stops at the quoted bracket, which
    ends the array, and fails with ExpectingPairOrBrace, leaving the vector
    of the target empty. *)
Theorem bracket_string_breaks_round_trip (fuel : nat) :
  let w := write classes (S (S (S fuel))) (TObj "V") 100 "" 1 (engine bracket_V) in
  let r := read classes typeinfo (S (S (S fuel))) (TObj "V") 100 bracket_document "" 1
             (engine empty_V) in
  written w = Some bracket_document /\ result w = Some true
  /\ result r = Some false
  /\ map JsonError.type (errors_after r) = [JsonError.ExpectingPairOrBrace]
  /\ cell_after r 100 = Some (VSeq []).
Proof. vm_compute. auto 6. Qed.

(** C2 on the failing input. Writing the graph that the failed read of
    [bracket_document] leaves behind produces a stream that differs from
    the first one. *)
Theorem bracket_string_breaks_idempotence (fuel : nat) :
  let r := read classes typeinfo (S (S (S fuel))) (TObj "V") 100 bracket_document "" 1
             (engine empty_V) in
  match r with
  | Ret _ js => written (write classes (S (S (S fuel))) (TObj "V") 100 "" 1 js)
  | _ => None
  end = Some (lit "{$  'v': []$}$$")
  /\ lit "{$  'v': []$}$$" <> bracket_document.
Proof. vm_compute. split; [reflexivity|discriminate]. Qed.



(** The theorem [member_walk_order] at the class [B : A, C]: the member
    [z] of the second superclass is found there, at the part of the object
    that the upcast yields. *)
Lemma member_walk_order_witness :
  getMember (class_of "B") "z" = None
  /\ find_member (class_of "B") 500 "z"
     = list_find_first (fun it => find_member (super_ it) (upcast_ it 500) "z")
         (superclasses_ (class_of "B"))
  /\ option_map snd (find_member (class_of "B") 500 "z") = Some 501.
Proof.
  split; [reflexivity|split; [|reflexivity]].
  exact (proj2 (proj2 (proj2
    (member_walk_order (writeValue classes 0) (readValue classes typeinfo 0)
       (readPointee classes typeinfo 0) (readArray classes typeinfo 0)
       (class_of "B") 500))) "z" eq_refl).
Defined.

(** C6 as the specification states it fails for the class [N], whose
    creator returns null: reading an object into a null pointer to [N]
    fails with AbstractClass, not with CantCreateObject. *)
Lemma null_thunk_raises_AbstractClass :
  let r := read classes typeinfo 3 (TPtr (TObj "N")) 50 (lit "{ }") "" 1
             (engine null_pointer) in
  result r = Some false
  /\ map JsonError.type (errors_after r) = [JsonError.AbstractClass]
  /\ ~ In JsonError.CantCreateObject (map JsonError.type (errors_after r)).
Proof.
  vm_compute. split; [reflexivity|split; [reflexivity|]].
  intros [H|[]]. discriminate H.
Qed.

(** The theorem [object_creation] at the class [N]: the thunk of the
    class is invoked, none being supplied by the caller. *)
Lemma object_creation_witness :
  pinned_class classes (Object (class_of "N")) "s" "x" = Some (Object (class_of "N"))
  /\ pin_class classes typeinfo None (Object (class_of "N")) None 0 "s" "x"
       (engine null_pointer)
     = Throw (raised JsonError.AbstractClass "N" true (engine null_pointer)).
Proof.
  split; [reflexivity|].
  exact (object_creation classes typeinfo (Object (class_of "N")) None "s" "x"
           (class_of "N") (engine null_pointer) eq_refl).
Defined.

(** Scenario 5: the document with the unknown member [extra]. One error
    UnknownMember is reported, both members of [P] are populated and
    [read] returns false. *)
Lemma unknown_member_scenario (fuel : nat) :
  let r := read classes typeinfo (S (S fuel)) (TObj "P") 100
             (lit "{'type':'home','extra':'x','number':'1'}") "" 1 (engine empty_P) in
  result r = Some false
  /\ map (fun e => (JsonError.type e, JsonError.fatal e, JsonError.arg e)) (errors_after r)
     = [(JsonError.UnknownMember, false, "'extra' in class 'P'")]
  /\ cell_after r 100 = Some (VStr "home")
  /\ cell_after r 101 = Some (VStr "1").
Proof. vm_compute. auto. Qed.



(** Sharing: a node whose [next] points to the node itself is written
    once, with the identifier 1, and the pointer as the reference to it.
    Two pointers to one node: the second is written as the reference. *)
Example ring_bytes :
  written (write classes 6 (TObj "Node") 100 "" 1 (setSharing true (engine ring)))
  = Some (lit "{$  '@id': '1',$  'v': 7,$  'next': '@1'$}$$").
Proof. vm_compute. reflexivity. Qed.

Example fork_bytes :
  written (write classes 6 (TSeq (TPtr (TObj "Node"))) 100 "" 1
             (setSharing true (engine fork)))
  = Some (lit "[$  {$    '@id': '1',$    'v': 3,$    'next': null$  },$  '@1'$]$$")
  /\ written (write classes 6 (TSeq (TPtr (TObj "Node"))) 100 "" 1
                (setSharing false (engine fork)))
     = Some (lit "[$  {$    'v': 3,$    'next': null$  },$  {$    'v': 3,$    'next': null$  }$]$$").
Proof. vm_compute. split; reflexivity. Qed.


(** Reading into the [V] whose vector holds one string: the empty array
    leaves the vector empty, and an array of two strings leaves exactly
    these two, in their order. *)
Example empty_array_clears :
  let r := read classes typeinfo 4 (TObj "V") 100 (lit "{'v': []}") "" 1
             (engine bracket_V) in
  result r = Some true /\ cell_after r 100 = Some (VSeq []).
Proof. vm_compute. split; reflexivity. Qed.

Example array_elements_in_order :
  let r := read classes typeinfo 4 (TObj "V") 100 (lit "{'v': ['a', 'b']}") "" 1
             (engine bracket_V) in
  result r = Some true
  /\ cell_after r 100 = Some (VSeq [1000; 1001])
  /\ cell_after r 1000 = Some (VStr "a")
  /\ cell_after r 1001 = Some (VStr "b").
Proof. vm_compute. repeat split; reflexivity. Qed.


(** Reading an object with the members b and c into the map with the
    entries a and b: a is kept as it was, b is overwritten, c is added. *)
Example map_entries_are_kept :
  let r := read classes typeinfo 4 (TMap TString) 100 (lit "{'b': 'x', 'c': 'y'}") "" 1
             (engine two_entries) in
  result r = Some true
  /\ cell_after r 100 = Some (VMap [("a", 200); ("b", 201); ("c", 1000)])
  /\ cell_after r 200 = Some (VStr "1")
  /\ cell_after r 201 = Some (VStr "x")
  /\ cell_after r 1000 = Some (VStr "y").
Proof. vm_compute. repeat split; reflexivity. Qed.

Lemma two_entries_wf : map_wf 100 [("a", 200); ("b", 201)] two_entries.
Proof.
  assert (F : forall k p, map_find k [("a", 200); ("b", 201)] = Some p ->
                (k = "a" /\ p = 200) \/ (k = "b" /\ p = 201)).
  { intros k p H. cbn [map_find] in H.
    destruct (String.eqb_spec "a" k) as [<-|_]; [left; split; congruence|].
    destruct (String.eqb_spec "b" k) as [<-|_]; [right; split; congruence|].
    discriminate H. }
  split.
  - intros k p H. destruct (F k p H) as [[_ ->]|[_ ->]]; cbn; lia.
  - intros k k' p H H'.
    destruct (F k p H) as [[-> ->]|[-> ->]], (F k' _ H') as [[-> E]|[-> E]];
      congruence.
Qed.


(** The elements of an array are the tokens up to the first token "]",
    quoted or not: of the three strings of this document only the first is
    an element for the reader, and the read succeeds. *)
Example quoted_bracket_ends_array :
  let r := read classes typeinfo 4 (TSeq TString) 100 (lit "['a', ']', 'b']") "" 1
             (engine bracket_V) in
  result r = Some true
  /\ cell_after r 100 = Some (VSeq [1000])
  /\ cell_after r 1000 = Some (VStr "a").
Proof. vm_compute. repeat split; reflexivity. Qed.

(** In a map, the reserved member [@id] is not an entry, and [@class] is
    one. *)
Example reserved_members_of_a_map :
  let r := read classes typeinfo 4 (TMap TString) 100
             (lit "{'b': 'x', '@id': '7', '@class': 'y'}") "" 1 (engine two_entries) in
  result r = Some true
  /\ cell_after r 100 = Some (VMap [("@class", 1000); ("a", 200); ("b", 201)])
  /\ cell_after r 201 = Some (VStr "x")
  /\ cell_after r 1000 = Some (VStr "y").
Proof. vm_compute. repeat split; reflexivity. Qed.

(** ** The further properties at concrete inputs *)

(** [written_string_is_read_back] at a string with quotes and a newline. *)
Lemma written_string_witness :
  let s := lit "say 'hi'$" in
  let jsw := sharing_writer home_212 in
  all_writable s = true /\ out_ jsw = Some ""
  /\ exists w,
       writeString (Some s) false jsw
       = Ret tt (set_needcomma_ true (set_out_ (Some ("" +:+ w)) jsw))
       /\ forall (js : JsonSerial) (inObj : bool) (rest : string),
            in_ js = Some (stream (w +:+ String "," rest)) ->
            readLine inObj js
            = Ret {| token1 := s; token2 := ""; found1 := true; found2 := false |}
                (set_token1_ s (set_token2_ "" (set_in_ (Some (stream rest)) js))).
Proof.
  intros s jsw. split; [reflexivity|]. split; [reflexivity|].
  refine (written_string_is_read_back s false jsw "" _ _); reflexivity.
Defined.

(** [raw_control_character_is_refused] at the character of code 1. *)
Lemma raw_control_character_witness :
  let c := chr 1 in
  let jsw := sharing_writer home_212 in
  iscntrl c = true /\ writable c = false /\ ch_eq c NUL = false
  /\ writeString (Some ("a" +:+ String c "b")) false jsw
     = Ret tt (set_needcomma_ true
                 (set_out_ (Some ("" +:+ str1 DQUOTE +:+ escape "a"
                                  +:+ String c (escape (c_str "b")) +:+ str1 DQUOTE)) jsw)).
Proof.
  intros c jsw. split; [reflexivity|]. split; [reflexivity|]. split; [reflexivity|].
  refine (proj1 (raw_control_character_is_refused "a" "b" c false jsw "" _ _ _ _ _));
    reflexivity.
Defined.


(** [int_member_values] at the member v of a [Node] at address 100. *)
Lemma int_member_witness :
  let js := reading "" Comments ring in
  let v := {| name := "v"; kind := InstanceMember 0 TInt |} in
  find_member (class_of "Node") 100 "v" = Some (v, 100)
  /\ read_member_or_warn typeinfo (readValue classes typeinfo 1)
       (readPointee classes typeinfo 0) (readArray classes typeinfo 0)
       (Object (class_of "Node")) 100 "v" "12" js
     = Ret tt (assigned (100 + 0) (VInt 12) js).
Proof.
  intros js v.
  assert (F : find_member (class_of "Node") 100 "v" = Some (v, 100))
    by (vm_compute; reflexivity).
  split; [exact F|].
  refine (proj1 (int_member_values classes typeinfo 0
                   (readPointee classes typeinfo 0) (readArray classes typeinfo 0)
                   (class_of "Node") 100 100 0 "v" "12" js F) 12 _ _).
  - reflexivity.
  - lia.
Defined.


(** [shared_reference_is_resolved] at the reference to the object that
    was recorded under the identifier 1. *)
Lemma shared_reference_witness :
  let js := set_id_to_object_ {[ 1 := 100 ]} (reading "" Comments ring) in
  getClass_type classes "Node" = Some (class_of "Node")
  /\ readValue classes typeinfo 2 (TPtr (TObj "Node")) 101 ("@" +:+ pretty 1) js
     = match id_to_object_ js !! 1 with
       | Some raw => Ret tt (assigned 101 (VPtr raw) js)
       | None => Throw (raised JsonError.InvalidID "" true (assigned 101 (VPtr 0) js))
       end.
Proof.
  intros js.
  assert (G : getClass_type classes "Node" = Some (class_of "Node"))
    by (vm_compute; reflexivity).
  split; [exact G|].
  refine (shared_reference_is_resolved classes typeinfo 0 "Node" (class_of "Node")
            101 1 js _ G).
  lia.
Defined.

(** [leading_white_space_is_skipped] at two spaces, a newline and a
    space. *)
Lemma leading_white_space_witness :
  let w := lit "  $ " in
  let rest := lit "'a'" in
  let js := reading (w +:+ rest) Comments empty_P in
  all_space w = true
  /\ readLine false js
     = readLine false
         (set_lineno_ (lines_after w (lineno_ js)) (set_in_ (Some (stream rest)) js)).
Proof.
  intros w rest js. split; [reflexivity|].
  refine (leading_white_space_is_skipped false w rest js _ _); reflexivity.
Defined.

(** [blank_input_is_no_data] at an input of two spaces. *)
Lemma blank_input_witness :
  all_space "  " = true
  /\ exists js',
       read classes typeinfo 4 (TObj "P") 100 "  " "" 1 (engine empty_P) = Ret false js'
       /\ mem js' = mem (engine empty_P).
Proof.
  split; [reflexivity|].
  destruct (blank_input_is_no_data classes typeinfo 4 (TObj "P") 100 "  " "" 1
              (engine empty_P) eq_refl) as (js' & R & Hm & _).
  exists js'. split; [exact R|exact Hm].
Defined.

(** [line_comment_is_skipped] at a comment before a token. *)
Lemma line_comment_witness :
  let text := " note" in
  let rest := lit "'a'" in
  let js := reading ("//" +:+ text +:+ String LF rest) Comments empty_P in
  allows js Comments = true /\ all_comment text = true
  /\ readLine false js
     = readLine false
         (set_lineno_ ((lineno_ js + 1) mod 2^64) (set_in_ (Some (stream rest)) js)).
Proof.
  intros text rest js. split; [reflexivity|]. split; [reflexivity|].
  refine (line_comment_is_skipped false text rest js _ _ _); reflexivity.
Defined.

(** The registry of the scenarios is built by calls of [defclass],
    [member] and [extends]. *)
Lemma classes_built : built classes.
Proof.
  unfold classes, member.
  repeat lazymatch goal with
         | |- built (addMember _ _ _) => apply built_member
         | |- built (extends _ _ _ _) => apply built_extends
         | |- built (defclass _ _ _ _) => apply built_defclass
         | |- built no_classes => apply built_empty
         end.
Qed.



Lemma reset_tabs_ok : tabs_ok (reset "" 1 None (Some "") (engine home_212)).
Proof. unfold tabs_ok. cbn. repeat split; (lia || reflexivity). Qed.



Lemma classes_plain : plain_registry classes = true.
Proof. vm_compute. reflexivity. Qed.

Lemma classes_no_custom : registry_no_custom classes = true.
Proof. vm_compute. reflexivity. Qed.

Lemma classes_no_postwrite : no_postwrite classes = true.
Proof. vm_compute. reflexivity. Qed.

(** [read_returns_true_iff_nothing_reported] at a document with a member
    that the class does not have: a warning is reported and [read]
    returns false. *)
Lemma read_reports_witness :
  let js := engine empty_P in
  let r := read classes typeinfo 4 (TObj "P") 100
             (lit "{'type': 'home', 'extra': 'x'}") "" 1 js in
  plain_registry classes = true
  /\ r = Ret false (state_after r)
  /\ exists more,
       reported (state_after r) = reported js ++ more
       /\ (false = true <-> more = [])
       /\ (false = false <-> jsonerror_ (state_after r) <> None).
Proof.
  intros js r.
  assert (E : r = Ret false (state_after r)) by (vm_compute; reflexivity).
  split; [exact classes_plain|]. split; [exact E|].
  exact (read_returns_true_iff_nothing_reported classes typeinfo classes_plain
           4 (TObj "P") 100 (lit "{'type': 'home', 'extra': 'x'}") "" 1 js
           false (state_after r) E).
Defined.

(** [write_returns_true_iff_nothing_reported] at the object of class P. *)
Lemma write_reports_witness :
  let js := engine home_212 in
  let r := write classes 4 (TObj "P") 100 "" 1 js in
  registry_no_custom classes = true
  /\ r = Ret true (state_after r)
  /\ exists more,
       reported (state_after r) = reported js ++ more
       /\ (true = true <-> more = [])
       /\ (true = false <-> jsonerror_ (state_after r) <> None).
Proof.
  intros js r.
  assert (E : r = Ret true (state_after r)) by (vm_compute; reflexivity).
  split; [exact classes_no_custom|]. split; [exact E|].
  exact (write_returns_true_iff_nothing_reported classes classes_no_custom
           4 (TObj "P") 100 "" 1 js true (state_after r) E).
Defined.

(** [write_leaves_memory_unchanged] at the two nodes that share a
    third, written with sharing on. *)
Lemma write_leaves_memory_witness :
  let js := setSharing true (engine fork) in
  let r := write classes 6 (TSeq (TPtr (TObj "Node"))) 100 "" 1 js in
  registry_no_custom classes = true /\ no_postwrite classes = true
  /\ r = Ret true (state_after r) /\ mem (state_after r) = mem js.
Proof.
  intros js r.
  assert (E : r = Ret true (state_after r)) by (vm_compute; reflexivity).
  split; [exact classes_no_custom|]. split; [exact classes_no_postwrite|].
  split; [exact E|].
  exact (proj1 (write_leaves_memory_unchanged classes classes_no_custom
                  classes_no_postwrite 6 (TSeq (TPtr (TObj "Node"))) 100 "" 1 js
                  true (state_after r) E)).
Defined.

(** [string_members_round_trip] at a string with quotes and a newline,
    read into a default-constructed object. *)
Lemma string_members_witness :
  let s2 := lit "say 'hi'$" in
  all_writable "home" = true /\ all_writable s2 = true
  /\ exists doc js',
       written (write classes 3 (TObj "P") 100 "" 1 (engine (P_object "home" s2)))
       = Some doc
       /\ read classes typeinfo 2 (TObj "P") 100 doc "" 1 (engine empty_P) = Ret true js'
       /\ mem js'
          = {| cells := <[100 + 1 := VStr s2]>
                          (<[100 + 0 := VStr "home"]> (cells (mem (engine empty_P))));
               brk := brk (mem (engine empty_P)) |}.
Proof.
  intros s2. split; [reflexivity|]. split; [reflexivity|].
  destruct (string_members_round_trip "home" s2 0 "" 1 eq_refl eq_refl)
    as (doc & _ & W & Hread).
  destruct (Hread (engine empty_P) 100 "" 1) as (js' & R & Hm & _).
  - intros dyn H. vm_compute in H. discriminate H.
  - exists doc, js'. split; [exact W|]. split; [exact R|exact Hm].
Defined.

(** [stoi_reads_a_prefix] at the token of a space, 12 and letters. *)
Lemma stoi_prefix_witness :
  - 2^31 <= 12 < 2^31 /\ all_space " " = true /\ starts_no_digit "abc" = true
  /\ parses_as TInt (" " +:+ pretty 12 +:+ "abc") (VInt 12).
Proof.
  assert (R : - 2^31 <= 12 < 2^31) by lia.
  split; [exact R|]. split; [reflexivity|]. split; [reflexivity|].
  exact (stoi_reads_a_prefix 12 " " "abc" R eq_refl eq_refl).
Defined.
